(** * now-screening: the retrieval pipeline of [apps/api/main.go]

    A shallow embedding of the Go back end: query normalisation
    ([cleanQuery]), the cache store ([getMoviesFromDB], [saveMoviesToDB]),
    the extractor ([scrapeMovies]), the request handler ([getMovies]),
    the matcher ([fuzzySearchMovies], which delegates to the
    [github.com/sahilm/fuzzy] package and, through it, to Go's
    [sort.Stable]) and the warm-up ([preloadMovies]); and, of the front
    end, the step that picks the booking link out of an answer
    ([validateAndExtractLink] of [frontend/content.js]).

    Conventions.
    - A Go [string] is taken to be well-formed UTF-8 and modelled as the
      list of its Unicode code points (runes); byte lengths and byte
      offsets, where the code uses them, are recomputed from the UTF-8
      width of each rune.
    - Go's [int] is 64 bits wide: arithmetic on scores wraps ([wrap64]).
    - The database is a list of rows in heap (insertion) order; time is an
      integer number of microseconds, the resolution of a PostgreSQL
      [TIMESTAMP].  The model is sequential: one request at a time.
    - The packages [github.com/sahilm/fuzzy], [sort] and [html] are
      embedded from their published sources; the generated tables of
      [unicode] and the entity maps of [html] are parameters ([GoTables]).
    - What the outside world decides (does the query fail, in which order
      come rows of one time stamp, what does the listings page return,
      does a statement of the transaction fail) is an explicit input of
      each function: the [Env] of a request. *)

From Stdlib Require Import ZArith List Bool Lia String Ascii Permutation Sorted.
Import ListNotations.
Open Scope Z_scope.

(* ------------------------------------------------------------------ *)
(** ** Go strings and integers *)
(* ------------------------------------------------------------------ *)

Definition rune := Z.
Definition gostring := list rune.

(** An ASCII literal as a Go string. *)
Fixpoint str (s : string) : gostring :=
  match s with
  | EmptyString => []
  | String c s' => Z.of_nat (nat_of_ascii c) :: str s'
  end.

Definition rune_eqb (a b : rune) : bool := Z.eqb a b.

Fixpoint gostring_eqb (s t : gostring) : bool :=
  match s, t with
  | [], [] => true
  | a :: s', b :: t' => rune_eqb a b && gostring_eqb s' t'
  | _, _ => false
  end.

(** [utf8.RuneLen]: the number of bytes of a rune in a Go string. *)
Definition utf8_RuneLen (r : rune) : Z :=
  if r <? 128 then 1
  else if r <? 2048 then 2
  else if r <? 65536 then 3
  else 4.

(** [len(s)] of a Go string: its length in bytes. *)
Fixpoint len (s : gostring) : Z :=
  match s with
  | [] => 0
  | r :: s' => utf8_RuneLen r + len s'
  end.

(** Two's complement wrap-around of Go's 64-bit [int]. *)
Definition wrap64 (x : Z) : Z :=
  (x + 9223372036854775808) mod 18446744073709551616 - 9223372036854775808.

Definition add64 (x y : Z) : Z := wrap64 (x + y).
Definition mul64 (x y : Z) : Z := wrap64 (x * y).
Definition sub64 (x y : Z) : Z := wrap64 (x - y).

(** [unicode.IsSpace]: the Latin-1 cases are spelled out in Go's source,
    the others are the code points with the White_Space property. *)
Definition unicode_IsSpace (r : rune) : bool :=
  if r <=? 255 then
    ((9 <=? r) && (r <=? 13)) || (r =? 32) || (r =? 133) || (r =? 160)
  else
    (r =? 5760) || ((8192 <=? r) && (r <=? 8202)) || (r =? 8232) ||
    (r =? 8233) || (r =? 8239) || (r =? 8287) || (r =? 12288).

Fixpoint trim_left (s : gostring) : gostring :=
  match s with
  | [] => []
  | r :: s' => if unicode_IsSpace r then trim_left s' else s
  end.

Definition trim_right (s : gostring) : gostring := rev (trim_left (rev s)).

(** [strings.TrimSpace]. *)
Definition strings_TrimSpace (s : gostring) : gostring :=
  trim_right (trim_left s).

(** [strings.ReplaceAll(s, old, new)] for a one-rune [old] and [new]. *)
Definition strings_ReplaceAll1 (s : gostring) (old new : rune) : gostring :=
  map (fun r => if rune_eqb r old then new else r) s.

Definition NBSP : rune := 160.
Definition SPACE : rune := 32.
Definition AMP : rune := 38.

(* ------------------------------------------------------------------ *)
(** ** The tables of Go's libraries *)
(* ------------------------------------------------------------------ *)

(** The parts of Go's standard library that are driven by large generated
    tables are taken as parameters: the maps [entity] and [entity2] of
    [html] (a name, with its semicolon when it has one, to one rune or to
    two; 0 for a name that is not in the map), the letter-case predicates
    of [unicode] beyond ASCII, and the walk over a [unicode.SimpleFold]
    orbit that [equalFold] falls back to for a pair of runes that is not
    ASCII.  The one fact used about them is that the fold orbit of NUL is
    NUL alone. *)
Class GoTables := {
  html_entity : gostring -> rune;
  html_entity2 : gostring -> rune * rune;
  unicode_upper_table : rune -> bool;
  unicode_lower_table : rune -> bool;
  unicode_foldOrbit : rune -> rune -> bool;
  unicode_foldOrbit_nul : forall c, unicode_foldOrbit 0 c = false
}.

(** The entries of [entity] for the references of XML and for the
    non-breaking space, with and without semicolon, as the map has them. *)
Definition entity_sample (name : gostring) : rune :=
  if gostring_eqb name (str "amp;") || gostring_eqb name (str "amp") then 38
  else if gostring_eqb name (str "lt;") || gostring_eqb name (str "lt") then 60
  else if gostring_eqb name (str "gt;") || gostring_eqb name (str "gt") then 62
  else if gostring_eqb name (str "quot;") || gostring_eqb name (str "quot")
  then 34
  else if gostring_eqb name (str "apos;") then 39
  else if gostring_eqb name (str "nbsp;") || gostring_eqb name (str "nbsp")
  then 160
  else 0.

(** An instance for the runs: it knows the entities of [entity_sample]
    and no other, and no rune beyond ASCII has a case. *)
Definition ascii_tables : GoTables := {|
  html_entity := entity_sample;
  html_entity2 := fun _ => (0, 0);
  unicode_upper_table := fun _ => false;
  unicode_lower_table := fun _ => false;
  unicode_foldOrbit := fun _ _ => false;
  unicode_foldOrbit_nul := fun _ => eq_refl
|}.

(* ------------------------------------------------------------------ *)
(** ** [html.UnescapeString] *)
(* ------------------------------------------------------------------ *)

(** Go's [rune] is an [int32]: the value of a numeric character reference
    is computed with wrap-around. *)
Definition wrap32 (x : Z) : Z :=
  (x + 2147483648) mod 4294967296 - 2147483648.

Definition is_digit (c : rune) : bool := (48 <=? c) && (c <=? 57).

Definition is_alnum (c : rune) : bool :=
  ((97 <=? c) && (c <=? 122)) || ((65 <=? c) && (c <=? 90)) || is_digit c.

(** [replacementTable]: what the code points 0x80 to 0x9F of a numeric
    reference are replaced with (Windows-1252). *)
Definition replacementTable : list rune :=
  [8364; 129; 8218; 402; 8222; 8230; 8224; 8225; 710; 8240; 352; 8249; 338;
   141; 381; 143; 144; 8216; 8217; 8220; 8221; 8226; 8211; 8212; 732; 8482;
   353; 8250; 339; 157; 382; 376].

(** [utf8.EncodeRune], read back as a rune: a value that is no code point
    is written as U+FFFD. *)
Definition utf8_EncodeRune (r : rune) : rune :=
  if (r <? 0) || (1114111 <? r) || ((55296 <=? r) && (r <=? 57343))
  then 65533 else r.

(** The loop over the digits of a numeric reference: [x] is the value so
    far and [i] the index, from the ampersand, of the byte to read; at a
    byte that is no digit the loop ends, behind it if it is a semicolon. *)
Fixpoint scan_digits (hex : bool) (s : gostring) (x i : Z) : Z * Z :=
  match s with
  | [] => (x, i)
  | c :: rest =>
      if hex && is_digit c
      then scan_digits hex rest (wrap32 (16 * x + c - 48)) (i + 1)
      else if hex && (97 <=? c) && (c <=? 102)
      then scan_digits hex rest (wrap32 (16 * x + c - 97 + 10)) (i + 1)
      else if hex && (65 <=? c) && (c <=? 70)
      then scan_digits hex rest (wrap32 (16 * x + c - 65 + 10)) (i + 1)
      else if negb hex && is_digit c
      then scan_digits hex rest (wrap32 (10 * x + c - 48)) (i + 1)
      else if c =? 59 then (x, i + 1) else (x, i)
  end.

(** The loop over the letters and digits of a named reference, from index
    [i] on: the index behind the name, its semicolon included. *)
Fixpoint scan_name (s : gostring) (i : nat) : nat :=
  match s with
  | [] => i
  | c :: rest =>
      if is_alnum c then scan_name rest (S i)
      else if c =? 59 then S i else i
  end.

Definition longestEntityWithoutSemicolon : nat := 6.

Section Normalisation.
Context {tables : GoTables}.

(** [for j := maxLen; j > 1; j--]: the longest prefix of the name that is
    an entity. *)
Fixpoint longest_prefix (entityName : gostring) (j : nat)
  : option (rune * nat) :=
  match j with
  | O => None
  | S j' =>
      if (1 <? j)%nat then
        let x := html_entity (firstn j entityName) in
        if negb (x =? 0) then Some (x, j) else longest_prefix entityName j'
      else None
  end.

(** [unescapeEntity], on the string from an ampersand on: the runes that
    are written and the number of bytes that are read (all of them ASCII).
    (The code decodes in place; no entity of Go's table is written with
    more bytes than its reference has, so it reads what the source
    held.) *)
Definition unescapeEntity (s : gostring) : gostring * nat :=
  match s with
  | [] => ([], 1%nat)
  | amp :: [] => ([amp], 1%nat)
  | amp :: (c1 :: s2) as s1 =>
      if c1 =? 35 then
        if len s <=? 3 then ([amp], 1%nat)
        else
          let hex :=
            match s2 with c :: _ => (c =? 120) || (c =? 88) | [] => false end in
          let '(x, i) :=
            if hex then scan_digits true (tl s2) 0 3
            else scan_digits false s2 0 2 in
          if i <=? 3 then ([amp], 1%nat)
          else
            let x :=
              if (128 <=? x) && (x <=? 159)
              then nth (Z.to_nat (x - 128)) replacementTable 0
              else if (x =? 0) || ((55296 <=? x) && (x <=? 57343))
                      || (1114111 <? x)
              then 65533 else x in
            ([utf8_EncodeRune x], Z.to_nat i)
      else
        let i := scan_name s1 1 in
        let entityName := firstn (i - 1) s1 in
        if (List.length entityName =? 0)%nat then ([amp], 1%nat)
        else
          let x := html_entity entityName in
          if negb (x =? 0) then ([utf8_EncodeRune x], i)
          else
            let x2 := html_entity2 entityName in
            if negb (fst x2 =? 0)
            then ([utf8_EncodeRune (fst x2); utf8_EncodeRune (snd x2)], i)
            else
              let maxLen :=
                Nat.min (List.length entityName - 1)
                  longestEntityWithoutSemicolon in
              match longest_prefix entityName maxLen with
              | Some (x, j) => ([utf8_EncodeRune x], S j)
              | None => (firstn i s, i)
              end
  end.

(** The loop of [html.UnescapeString]: the bytes up to the next ampersand
    are copied, the ampersand goes to [unescapeEntity]. *)
Fixpoint unescape (fuel : nat) (s : gostring) : gostring :=
  match fuel with
  | O => s
  | S fuel' =>
      match s with
      | [] => []
      | c :: rest =>
          if rune_eqb c AMP then
            let '(written, read) := unescapeEntity s in
            written ++ unescape fuel' (skipn read s)
          else c :: unescape fuel' rest
      end
  end.

(** [html.UnescapeString]: a string without ['&'] is returned as it is. *)
Definition html_UnescapeString (s : gostring) : gostring :=
  if existsb (rune_eqb AMP) s then unescape (List.length s) s else s.

(** [cleanQuery] (main.go, 72-79). *)
Definition cleanQuery (query : gostring) : gostring :=
  let htmlDecoded := html_UnescapeString query in
  let cleaned := strings_ReplaceAll1 htmlDecoded NBSP SPACE in
  strings_TrimSpace cleaned.

End Normalisation.

(* ------------------------------------------------------------------ *)
(** ** Go's [sort.Stable] *)
(* ------------------------------------------------------------------ *)

(** [sort.Stable] works on a [sort.Interface]: it sees the data through
    [Less(i, j)] and [Swap(i, j)] alone.  The slice is a list; [less x y]
    is the comparison of two elements that [Less] performs. *)
Module GoSort.
Section Stable.
Context {A : Type} (less : A -> A -> bool).

Fixpoint upd (i : nat) (x : A) (d : list A) : list A :=
  match d, i with
  | [], _ => []
  | _ :: d', O => x :: d'
  | y :: d', S i' => y :: upd i' x d'
  end.

(** [data.Less(i, j)]; the indices that [sort.Stable] passes are always
    within the slice. *)
Definition Less (d : list A) (i j : nat) : bool :=
  match nth_error d i, nth_error d j with
  | Some x, Some y => less x y
  | _, _ => false
  end.

(** [data.Swap(i, j)]. *)
Definition Swap (d : list A) (i j : nat) : list A :=
  match nth_error d i, nth_error d j with
  | Some x, Some y => upd j x (upd i y d)
  | _, _ => d
  end.

(** The inner loop of [insertionSort]:
    [for j := i; j > a && data.Less(j, j-1); j-- { data.Swap(j, j-1) }]. *)
Fixpoint insert_down (d : list A) (a j : nat) : list A :=
  match j with
  | O => d
  | S j' =>
      if (a <? j)%nat && Less d j j' then insert_down (Swap d j j') a j'
      else d
  end.

(** [insertionSort(data, a, b)]: [for i := a + 1; i < b; i++ { ... }]. *)
Definition insertionSort (d : list A) (a b : nat) : list A :=
  fold_left (fun d i => insert_down d a i) (seq (a + 1) (b - (a + 1))) d.

(** [swapRange(data, a, b, n)]. *)
Definition swapRange (d : list A) (a b n : nat) : list A :=
  fold_left (fun d i => Swap d (a + i) (b + i)) (seq 0 n) d.

(** The loop of [rotate]: [for i != j { ... }], on the two block lengths. *)
Fixpoint rotate_loop (fuel : nat) (d : list A) (m i j : nat) : list A * nat :=
  match fuel with
  | O => (d, i)
  | S fuel' =>
      if (i =? j)%nat then (d, i)
      else if (j <? i)%nat then
        rotate_loop fuel' (swapRange d (m - i) m j) m (i - j) j
      else
        rotate_loop fuel' (swapRange d (m - i) (m + j - i) i) m i (j - i)
  end.

(** [rotate(data, a, m, b)]: exchange the blocks [data[a:m]] and
    [data[m:b]]. *)
Definition rotate (d : list A) (a m b : nat) : list A :=
  let i := (m - a)%nat in
  let j := (b - m)%nat in
  let '(d', i') := rotate_loop (i + j) d m i j in
  swapRange d' (m - i') m i'.

(** A binary search loop [for i < j { h := (i+j)/2; if go_right h
    { i = h + 1 } else { j = h } }]; the result is the final [i]. *)
Fixpoint bsearch (fuel : nat) (go_right : nat -> bool) (i j : nat) : nat :=
  match fuel with
  | O => i
  | S fuel' =>
      if (i <? j)%nat then
        let h := ((i + j) / 2)%nat in
        if go_right h then bsearch fuel' go_right (h + 1)%nat j
        else bsearch fuel' go_right i h
      else i
  end.

(** [for k := a; k < i-1; k++ { data.Swap(k, k+1) }]. *)
Definition shift_up (d : list A) (a i : nat) : list A :=
  fold_left (fun d k => Swap d k (k + 1)) (seq a (i - 1 - a)) d.

(** [for k := m; k > i; k-- { data.Swap(k, k-1) }]. *)
Definition shift_down (d : list A) (m i : nat) : list A :=
  fold_left (fun d k => Swap d k (k - 1)) (rev (seq (i + 1) (m - i))) d.

(** [symMerge(data, a, m, b)]: merge the sorted runs [data[a:m]] and
    [data[m:b]] in place.  Each recursive call is on a range at most half
    as long, so [b - a] is fuel enough. *)
Fixpoint symMerge (fuel : nat) (d : list A) (a m b : nat) : list A :=
  match fuel with
  | O => d
  | S fuel' =>
      if (m - a =? 1)%nat then
        let i := bsearch (b - m) (fun h => Less d h a) m b in
        shift_up d a i
      else if (b - m =? 1)%nat then
        let i := bsearch (m - a) (fun h => negb (Less d m h)) a m in
        shift_down d m i
      else
        let mid := ((a + b) / 2)%nat in
        let n := (mid + m)%nat in
        let '(start, r) :=
          if (mid <? m)%nat then ((n - b)%nat, mid) else (a, m) in
        let p := (n - 1)%nat in
        let start :=
          bsearch (r - start) (fun c => negb (Less d (p - c) c)) start r in
        let end_ := (n - start)%nat in
        let d1 :=
          if (start <? m)%nat && (m <? end_)%nat then rotate d start m end_
          else d in
        let d2 :=
          if (a <? start)%nat && (start <? mid)%nat
          then symMerge fuel' d1 a start mid else d1 in
        if (mid <? end_)%nat && (end_ <? b)%nat
        then symMerge fuel' d2 mid end_ b else d2
  end.

(** The first loop of [stable]: insertion sort of each full block. *)
Fixpoint stable_blocks (fuel : nat) (d : list A) (a b n blockSize : nat)
  : list A * nat :=
  match fuel with
  | O => (d, a)
  | S fuel' =>
      if (b <=? n)%nat then
        stable_blocks fuel' (insertionSort d a b) b (b + blockSize) n blockSize
      else (d, a)
  end.

(** The inner loop of the merge phase: merge neighbouring blocks. *)
Fixpoint stable_pass (fuel : nat) (d : list A) (a b n blockSize : nat)
  : list A * nat :=
  match fuel with
  | O => (d, a)
  | S fuel' =>
      if (b <=? n)%nat then
        stable_pass fuel'
          (symMerge (b - a) d a (a + blockSize) b) b (b + 2 * blockSize) n
          blockSize
      else (d, a)
  end.

(** The outer loop of the merge phase: [for blockSize < n { ... }]. *)
Fixpoint stable_merge (fuel : nat) (d : list A) (n blockSize : nat) : list A :=
  match fuel with
  | O => d
  | S fuel' =>
      if (blockSize <? n)%nat then
        let '(d1, a) := stable_pass n d 0 (2 * blockSize) n blockSize in
        let m := (a + blockSize)%nat in
        let d2 := if (m <? n)%nat then symMerge (n - a) d1 a m n else d1 in
        stable_merge fuel' d2 n (blockSize * 2)
      else d
  end.

(** [stable(data, n)], with Go's block size of 20. *)
Definition stable (d : list A) (n : nat) : list A :=
  let blockSize := 20%nat in
  let '(d1, a) := stable_blocks n d 0 blockSize n blockSize in
  let d2 := insertionSort d1 a n in
  stable_merge n d2 n blockSize.

(** [sort.Stable(data)]. *)
Definition Stable (d : list A) : list A := stable d (List.length d).

End Stable.
End GoSort.

(* ------------------------------------------------------------------ *)
(** ** The [github.com/sahilm/fuzzy] package *)
(* ------------------------------------------------------------------ *)

Module Fuzzy.

(** [fuzzy.Match]. *)
Record Match := mkMatch {
  Str : gostring;
  Index : nat;
  MatchedIndexes : list Z;
  Score : Z
}.

Definition firstCharMatchBonus : Z := 10.
Definition matchFollowingSeparatorBonus : Z := 20.
Definition camelCaseMatchBonus : Z := 20.
Definition adjacentMatchBonus : Z := 5.
Definition unmatchedLeadingCharPenalty : Z := -5.
Definition maxUnmatchedLeadingCharPenalty : Z := -15.

(** [separators = []rune("/-_ .\\")]. *)
Definition separators : list rune := [47; 45; 95; 32; 46; 92].

Definition isSeparator (s : rune) : bool := existsb (rune_eqb s) separators.

Definition adjacentCharBonus (i lastMatch currentBonus : Z) : Z :=
  if lastMatch =? i then add64 (mul64 currentBonus 2) adjacentMatchBonus
  else 0.

(** [Matches.Less(i, j)] is [a[i].Score >= a[j].Score]. *)
Definition less (x y : Match) : bool := Score y <=? Score x.

Section Find.
Context {tables : GoTables}.

Definition unicode_IsUpper (r : rune) : bool :=
  if r <? 128 then (65 <=? r) && (r <=? 90) else unicode_upper_table r.

Definition unicode_IsLower (r : rune) : bool :=
  if r <? 128 then (97 <=? r) && (r <=? 122) else unicode_lower_table r.

(** [equalFold(tr, sr)], "taken from strings.EqualFold": equal runes, then
    the ASCII case on the ordered pair, then the general case. *)
Definition equalFold (tr sr : rune) : bool :=
  if tr =? sr then true
  else
    let '(tr, sr) := if tr <? sr then (sr, tr) else (tr, sr) in
    if tr <? 128 then (65 <=? sr) && (sr <=? 90) && (tr =? sr + 97 - 65)
    else unicode_foldOrbit sr tr.

(** The variables of the loop over one candidate string.  (The Go variable
    [score] is set to 0 before each use and is local to [scan_step].) *)
Record scan := mkScan {
  patternIndex : nat;
  bestScore : Z;
  matchedIndex : Z;
  currAdjacentMatchBonus : Z;
  last : rune;
  lastIndex : Z;
  matched : list Z;      (* match.MatchedIndexes *)
  total : Z              (* match.Score *)
}.

Definition scan_init : scan :=
  {| patternIndex := 0; bestScore := -1; matchedIndex := -1;
     currAdjacentMatchBonus := 0; last := 0; lastIndex := 0;
     matched := []; total := 0 |}.

Definition last_elem (l : list Z) : option Z :=
  match rev l with [] => None | x :: _ => Some x end.

(** The first half of the loop body: the candidate rune against
    [runes[patternIndex]], whose value is [p]. *)
Definition score_candidate (j : Z) (candidate p : rune) (st : scan) : scan :=
  if equalFold candidate p then
    let score := 0 in
    let score :=
      if j =? 0 then add64 score firstCharMatchBonus else score in
    let score :=
      if unicode_IsLower (last st) && unicode_IsUpper candidate
      then add64 score camelCaseMatchBonus else score in
    let score :=
      if negb (j =? 0) && isSeparator (last st)
      then add64 score matchFollowingSeparatorBonus else score in
    let '(score, curr) :=
      match last_elem (matched st) with
      | Some lastMatch =>
          let bonus :=
            adjacentCharBonus (lastIndex st) lastMatch
              (currAdjacentMatchBonus st) in
          (add64 score bonus, add64 (currAdjacentMatchBonus st) bonus)
      | None => (score, currAdjacentMatchBonus st)
      end in
    if bestScore st <? score then
      {| patternIndex := patternIndex st; bestScore := score;
         matchedIndex := j; currAdjacentMatchBonus := curr;
         last := last st; lastIndex := lastIndex st;
         matched := matched st; total := total st |}
    else
      {| patternIndex := patternIndex st; bestScore := bestScore st;
         matchedIndex := matchedIndex st; currAdjacentMatchBonus := curr;
         last := last st; lastIndex := lastIndex st;
         matched := matched st; total := total st |}
  else st.

(** The second half: look one rune ahead in the string and in the pattern
    and, when they agree or the string ends, commit the best position found
    for the current pattern rune. *)
Definition commit (runes : list rune) (nextCandidate : rune) (st : scan)
  : scan :=
  let nextPattern :=
    if (S (patternIndex st) <? List.length runes)%nat
    then nth (S (patternIndex st)) runes 0 else 0 in
  if (equalFold nextPattern nextCandidate || (nextCandidate =? 0))
     && (-1 <? matchedIndex st)
  then
    let best :=
      match matched st with
      | [] =>
          let penalty := mul64 (matchedIndex st) unmatchedLeadingCharPenalty in
          add64 (bestScore st) (Z.max penalty maxUnmatchedLeadingCharPenalty)
      | _ :: _ => bestScore st
      end in
    {| patternIndex := S (patternIndex st); bestScore := -1;
       matchedIndex := matchedIndex st;
       currAdjacentMatchBonus := currAdjacentMatchBonus st;
       last := last st; lastIndex := lastIndex st;
       matched := matched st ++ [matchedIndex st];
       total := add64 (total st) best |}
  else st.

(** One iteration at byte offset [j].  [runes[patternIndex]] is read
    without a bounds check: [None] is Go's run-time panic. *)
Definition scan_step (runes : list rune) (j : Z)
    (candidate nextCandidate : rune) (st : scan) : option scan :=
  match nth_error runes (patternIndex st) with
  | None => None
  | Some p =>
      let st1 := score_candidate j candidate p st in
      let st2 := commit runes nextCandidate st1 in
      Some {| patternIndex := patternIndex st2; bestScore := bestScore st2;
              matchedIndex := matchedIndex st2;
              currAdjacentMatchBonus := currAdjacentMatchBonus st2;
              last := candidate; lastIndex := j;
              matched := matched st2; total := total st2 |}
  end.

(** The rune after the candidate: [nextCandidate] is 0 at the end of the
    string. *)
Definition next_rune (rest : gostring) : rune :=
  match rest with [] => 0 | n :: _ => n end.

(** [for j := 0; j < len(match.Str); j += candidateSize { ... }] over the
    runes still to read. *)
Fixpoint scan_loop (runes : list rune) (j : Z) (s : gostring) (st : scan)
  : option scan :=
  match s with
  | [] => Some st
  | candidate :: rest =>
      let nextCandidate := next_rune rest in
      match scan_step runes j candidate nextCandidate st with
      | None => None
      | Some st' => scan_loop runes (j + utf8_RuneLen candidate) rest st'
      end
  end.

(** The body of the loop over the data: the match for [data.String(i)],
    if all the pattern was matched. *)
Definition match_one (runes : list rune) (i : nat) (s : gostring)
  : option (option Match) :=
  match scan_loop runes 0 s scan_init with
  | None => None
  | Some st =>
      let penalty := sub64 (Z.of_nat (List.length (matched st))) (len s) in
      if (List.length (matched st) =? List.length runes)%nat then
        Some (Some {| Str := s; Index := i; MatchedIndexes := matched st;
                      Score := add64 (total st) penalty |})
      else Some None
  end.

Fixpoint find_loop (runes : list rune) (i : nat) (data : list gostring)
  : option (list Match) :=
  match data with
  | [] => Some []
  | s :: data' =>
      match match_one runes i s with
      | None => None
      | Some m =>
          match find_loop runes (S i) data' with
          | None => None
          | Some ms =>
              Some (match m with Some x => x :: ms | None => ms end)
          end
      end
  end.

(** [fuzzy.FindFromNoSort] (reached through [FindNoSort]). *)
Definition FindNoSort (pattern : gostring) (data : list gostring)
  : option (list Match) :=
  match pattern with
  | [] => Some []
  | _ :: _ => find_loop pattern 0 data
  end.

(** [fuzzy.Find]: [FindFromNoSort], then [sort.Stable(matches)]. *)
Definition Find (pattern : gostring) (data : list gostring)
  : option (list Match) :=
  match FindNoSort pattern data with
  | None => None
  | Some matches => Some (GoSort.Stable less matches)
  end.

End Find.
End Fuzzy.

(* ------------------------------------------------------------------ *)
(** ** The cache store *)
(* ------------------------------------------------------------------ *)

(** [type Movie struct { Title, Href string }]. *)
Record Movie := mkMovie { Title : gostring; Href : gostring }.

(** A row of the table [movies] of [init.sql] (the serial [id] is not
    read by the program and left out). *)
Record Row := mkRow {
  row_city : gostring;
  row_title : gostring;
  row_href : gostring;
  scraped_at : Z
}.

(** The table, in heap order: an [INSERT] appends. *)
Definition Table := list Row.

(** A Go [error] value: its message. *)
Definition error := gostring.

(** [INTERVAL '24 hours'], in microseconds. *)
Definition window : Z := 86400000000.

(** The [WHERE] clause of [getMoviesFromDB]:
    [city = $1 AND scraped_at > NOW() - INTERVAL '24 hours']. *)
Definition where_fresh (now : Z) (city : gostring) (r : Row) : bool :=
  gostring_eqb (row_city r) city && (now - window <? scraped_at r).

(** [ORDER BY scraped_at DESC] fixes the order of rows with different time
    stamps only; rows with equal [scraped_at] (all rows of one replace
    carry the [CURRENT_TIMESTAMP] of their transaction) come in the order
    in which the executor happens to produce them.  That order is chosen
    by the outside world: [ties] names, one after the other, the position
    among the rows not yet produced of the row that is produced next (a
    position out of range, and a list that has run out, stand for
    position 0).  Every order of the rows is of this kind. *)
Fixpoint produce (k : nat) (rows : list Row) : option (Row * list Row) :=
  match rows, k with
  | [], _ => None
  | r :: rest, O => Some (r, rest)
  | r :: rest, S k' =>
      match produce k' rest with
      | Some (x, others) => Some (x, r :: others)
      | None => None
      end
  end.

Fixpoint produced (fuel : nat) (ties : list nat) (rows : list Row)
  : list Row :=
  match fuel with
  | O => rows
  | S fuel' =>
      match produce (hd 0%nat ties) rows with
      | Some (r, others) => r :: produced fuel' (tl ties) others
      | None =>
          match rows with
          | [] => []
          | r :: others => r :: produced fuel' (tl ties) others
          end
      end
  end.

Definition produced_order (ties : list nat) (rows : list Row) : list Row :=
  produced (List.length rows) ties rows.

(** The sort itself: insertion into a sorted list, a row going behind the
    rows that are at least as recent, so that rows of equal time stamp
    stay as [produced_order] has them. *)
Fixpoint order_insert (r : Row) (sorted : list Row) : list Row :=
  match sorted with
  | [] => [r]
  | r' :: rest =>
      if scraped_at r' <? scraped_at r then r :: sorted
      else r' :: order_insert r rest
  end.

Definition order_by_scraped_at_desc (ties : list nat) (rows : list Row)
  : list Row :=
  fold_left (fun acc r => order_insert r acc) (produced_order ties rows) [].

Definition movie_of_row (r : Row) : Movie :=
  {| Title := row_title r; Href := row_href r |}.

(** What can go wrong while reading: [db.Query] fails, [rows.Scan] fails
    (both return [nil, err]), or the iteration stops with [rows.Err()] set
    after [k] rows, which returns the rows read so far with the error. *)
Inductive ReadFault :=
| ReadOk
| QueryFails (e : error)
| ScanFails (e : error)
| RowsErr (k : nat) (e : error).

(** [getMoviesFromDB] (main.go, 86-109); [ties] is the order that the
    database gives to rows of equal time stamp in this read. *)
Definition getMoviesFromDB (fault : ReadFault) (ties : list nat) (now : Z)
    (city : gostring) (db : Table) : list Movie * option error :=
  let rows :=
    order_by_scraped_at_desc ties (filter (where_fresh now city) db) in
  match fault with
  | QueryFails e => ([], Some e)
  | ScanFails e => ([], Some e)
  | RowsErr k e => (map movie_of_row (firstn k rows), Some e)
  | ReadOk => (map movie_of_row rows, None)
  end.

(** What can go wrong in the transaction of [saveMoviesToDB]; the [k]-th
    [INSERT] counts from 0. *)
Inductive SaveFault :=
| NoFault
| BeginFails (e : error)
| DeleteFails (e : error)
| InsertFails (k : nat) (e : error)
| CommitFails (e : error).

(** [DELETE FROM movies WHERE city = $1]. *)
Definition delete_city (city : gostring) (tx : Table) : Table :=
  filter (fun r => negb (gostring_eqb (row_city r) city)) tx.

(** The constraint [UNIQUE(city, href)] of [init.sql]. *)
Definition violates_unique (city href : gostring) (tx : Table) : bool :=
  existsb (fun r => gostring_eqb (row_city r) city
                    && gostring_eqb (row_href r) href) tx.

Definition unique_violation : error := str "duplicate key value".

(** [INSERT INTO movies (city, title, href) VALUES ($1, $2, $3)];
    [scraped_at] defaults to [CURRENT_TIMESTAMP], the start time of the
    transaction. *)
Definition insert_movie (tx_time : Z) (city : gostring) (movie : Movie)
    (tx : Table) : Table + error :=
  if violates_unique city (Href movie) tx then inr unique_violation
  else inl (tx ++ [ {| row_city := city; row_title := Title movie;
                       row_href := Href movie; scraped_at := tx_time |} ]).

(** The error, if any, that the outside world makes a step of the
    transaction return. *)
Definition begin_error (fault : SaveFault) : option error :=
  match fault with BeginFails e => Some e | _ => None end.

Definition delete_error (fault : SaveFault) : option error :=
  match fault with DeleteFails e => Some e | _ => None end.

Definition insert_error (fault : SaveFault) (k : nat) : option error :=
  match fault with
  | InsertFails k' e => if (k' =? k)%nat then Some e else None
  | _ => None
  end.

Definition commit_error (fault : SaveFault) : option error :=
  match fault with CommitFails e => Some e | _ => None end.

(** [for _, movie := range movies { tx.Exec(insertQuery, ...) }], from the
    [k]-th movie on. *)
Fixpoint insert_all (fault : SaveFault) (tx_time : Z) (city : gostring)
    (k : nat) (movies : list Movie) (tx : Table) : Table + error :=
  match movies with
  | [] => inl tx
  | movie :: rest =>
      match insert_error fault k with
      | Some e => inr e
      | None =>
          match insert_movie tx_time city movie tx with
          | inr e => inr e
          | inl tx' => insert_all fault tx_time city (S k) rest tx'
          end
      end
  end.

(** [saveMoviesToDB] (main.go, 111-131).  The statements run on the
    transaction's view [tx] of the table; an early [return err] reaches the
    deferred [tx.Rollback], which drops that view; only [tx.Commit]
    publishes it.  A commit that fails leaves the table as it was. *)
Definition saveMoviesToDB (fault : SaveFault) (tx_time : Z)
    (city : gostring) (movies : list Movie) (db : Table)
  : Table * option error :=
  match begin_error fault with
  | Some e => (db, Some e)
  | None =>
      let tx := db in
      match delete_error fault with
      | Some e => (db, Some e)
      | None =>
          let tx := delete_city city tx in
          match insert_all fault tx_time city 0 movies tx with
          | inr e => (db, Some e)
          | inl tx =>
              match commit_error fault with
              | Some e => (db, Some e)
              | None => (tx, None)
              end
          end
      end
  end.

(* ------------------------------------------------------------------ *)
(** ** The extractor *)
(* ------------------------------------------------------------------ *)

(** One element of [links []map[string]string]: the values that
    [link["text"]] and [link["href"]] read (the empty string for a key
    that is not there). *)
Record Link := mkLink { link_text : gostring; link_href : gostring }.

(** The outcome of [chromedp.Run] within its 60 second context: an error
    (navigation failure, deadline exceeded, evaluation failure) or the
    links of the page. *)
Inductive RunOutcome :=
| RunErr (e : error)
| RunOk (links : list Link).

Section Pipeline.
Context {tables : GoTables}.

(** The loop that ends [scrapeMovies] (main.go, 182-191). *)
Fixpoint movies_of_links (links : list Link) : list Movie :=
  match links with
  | [] => []
  | link :: rest =>
      let href := link_href link in
      if negb (gostring_eqb href [])
      then {| Title := cleanQuery (link_text link); Href := href |}
           :: movies_of_links rest
      else movies_of_links rest
  end.

(** [scrapeMovies] (main.go, 133-194), given what the browser run did. *)
Definition scrapeMovies (run : RunOutcome) : list Movie * option error :=
  match run with
  | RunErr e => ([], Some e)
  | RunOk links => (movies_of_links links, None)
  end.

(* ------------------------------------------------------------------ *)
(** ** The matcher *)
(* ------------------------------------------------------------------ *)

(** [result = append(result, movies[match.Index])]; an index out of the
    slice would panic. *)
Fixpoint pick (movies : list Movie) (matches : list Fuzzy.Match)
  : option (list Movie) :=
  match matches with
  | [] => Some []
  | m :: rest =>
      match nth_error movies (Fuzzy.Index m), pick movies rest with
      | Some movie, Some result => Some (movie :: result)
      | _, _ => None
      end
  end.

(** [fuzzySearchMovies] (main.go, 237-255); [None] is a panic. *)
Definition fuzzySearchMovies (movies : list Movie) (query : gostring)
  : option (list Movie) :=
  match movies with
  | [] => Some movies
  | _ :: _ =>
      let titles := map Title movies in
      match Fuzzy.Find query titles with
      | None => None
      | Some matches => pick movies matches
      end
  end.

(** The matching stage of [getMovies] (main.go, 226-228). *)
Definition apply_query (movies : list Movie) (query : gostring)
  : option (list Movie) :=
  if negb (gostring_eqb query [])
  then fuzzySearchMovies movies (cleanQuery query)
  else Some movies.

(* ------------------------------------------------------------------ *)
(** ** The request handler *)
(* ------------------------------------------------------------------ *)

(** The query string of [GET /movies]: each parameter is there or not. *)
Record Request := mkRequest {
  req_city : option gostring;
  req_query : option gostring
}.

(** [c.DefaultQuery("city", "cuttack")] and [c.Query("query")]. *)
Definition city_of (req : Request) : gostring :=
  match req_city req with Some c => c | None => str "cuttack" end.

Definition query_of (req : Request) : gostring :=
  match req_query req with Some q => q | None => [] end.

(** What the outside world does during one request: the time at which the
    [SELECT] runs, whether it fails, the order it gives to rows of equal
    time stamp, the browser run (if one is made), the start time of the
    transaction and whether it fails (if one is made). *)
Record Env := mkEnv {
  env_now : Z;
  env_read : ReadFault;
  env_ties : list nat;
  env_run : RunOutcome;
  env_tx_time : Z;
  env_save : SaveFault
}.

(** What [c.JSON] sends: 200 with [city], [movies] and [count], or 500 with
    [error].  [Panicked] is a run-time panic of the handler, which the
    recovery middleware of [gin.Default] answers with a 500 that has no
    body. *)
Inductive Response :=
| StatusOK (city : gostring) (movies : list Movie) (count : Z)
| StatusInternalServerError (message : gostring)
| Panicked.

(** The effects of a request on the outside world, in order. *)
Inductive Effect :=
| Extraction (city : gostring)
| CacheWrite (city : gostring) (committed : bool).

Definition is_extraction (e : Effect) : bool :=
  match e with Extraction _ => true | CacheWrite _ _ => false end.

(** The end of [getMovies] (main.go, 226-234). *)
Definition respond (city : gostring) (movies : list Movie) (query : gostring)
  : Response :=
  match apply_query movies query with
  | Some movies' =>
      StatusOK city movies' (Z.of_nat (List.length movies'))
  | None => Panicked
  end.

(** [getMovies] (main.go, 196-235): the table after the request, the
    response and the effects. *)
Definition getMovies (env : Env) (req : Request) (db : Table)
  : Table * Response * list Effect :=
  let city := city_of req in
  let query := query_of req in
  let '(movies, _) :=
    getMoviesFromDB (env_read env) (env_ties env) (env_now env) city db in
  let fromCache := (0 <? List.length movies)%nat in
  if negb fromCache then
    match scrapeMovies (env_run env) with
    | (_, Some err) =>
        (db,
         StatusInternalServerError (str "Failed to scrape movies: " ++ err),
         [Extraction city])
    | (movies, None) =>
        let '(db', saved) :=
          saveMoviesToDB (env_save env) (env_tx_time env) city movies db in
        (db', respond city movies query,
         [Extraction city;
          CacheWrite city (match saved with None => true | Some _ => false end)])
    end
  else
    (db, respond city movies query, []).

(** Requests served one after the other ([r.GET("/movies", getMovies)], in
    the sequential model): the table after the last of them. *)
Definition serve (requests : list (Env * Request)) (db : Table) : Table :=
  fold_left (fun db er => fst (fst (getMovies (fst er) (snd er) db)))
    requests db.

(* ------------------------------------------------------------------ *)
(** ** The warm-up *)
(* ------------------------------------------------------------------ *)

(** One iteration of the loop of [preloadMovies] (main.go, 262-286): the
    table after it and its effects.  A city with cached entries is
    skipped; a failed extraction and a failed replace are logged and the
    loop goes on. *)
Definition preloadCity (env : Env) (city : gostring) (db : Table)
  : Table * list Effect :=
  let '(movies, _) :=
    getMoviesFromDB (env_read env) (env_ties env) (env_now env) city db in
  if (0 <? List.length movies)%nat then (db, [])
  else
    match scrapeMovies (env_run env) with
    | (_, Some err) => (db, [Extraction city])
    | (movies, None) =>
        let '(db', saved) :=
          saveMoviesToDB (env_save env) (env_tx_time env) city movies db in
        (db',
         [Extraction city;
          CacheWrite city (match saved with None => true | Some _ => false end)])
    end.

(** [for _, city := range cities { ... }]; [world city] is what the outside
    world does while [city] is processed. *)
Fixpoint preload_loop (world : gostring -> Env) (cities : list gostring)
    (db : Table) : Table * list Effect :=
  match cities with
  | [] => (db, [])
  | city :: rest =>
      let '(db1, effects1) := preloadCity (world city) city db in
      let '(db2, effects2) := preload_loop world rest db1 in
      (db2, effects1 ++ effects2)
  end.

(** [cities := []string{"cuttack", "bhubaneswar"}]. *)
Definition cities : list gostring := [str "cuttack"; str "bhubaneswar"].

(** [preloadMovies] (main.go, 257-289). *)
Definition preloadMovies (world : gostring -> Env) (db : Table)
  : Table * list Effect :=
  preload_loop world cities db.

End Pipeline.

(* ------------------------------------------------------------------ *)
(** ** The front end *)
(* ------------------------------------------------------------------ *)

(** A JavaScript value as [response.json()] builds it from the body of an
    answer of the API, and [undefined].  (Numbers: the integers, which is
    what the API sends in [count].) *)
#[local] Unset Elimination Schemes.
Inductive JsValue :=
| JsUndefined
| JsNull
| JsBoolean (b : bool)
| JsNumber (n : Z)
| JsString (s : gostring)
| JsArray (elements : list JsValue)
| JsObject (properties : list (string * JsValue)).
#[local] Set Elimination Schemes.

(** How the evaluation of a function body ends: with a value, or with an
    exception. *)
Inductive Completion :=
| Return (v : JsValue)
| Throw.

(** [!v] is [negb (truthy v)]. *)
Definition truthy (v : JsValue) : bool :=
  match v with
  | JsUndefined | JsNull => false
  | JsBoolean b => b
  | JsNumber n => negb (n =? 0)
  | JsString s => negb (gostring_eqb s [])
  | JsArray _ | JsObject _ => true
  end.

Fixpoint own_property (key : string) (properties : list (string * JsValue))
  : JsValue :=
  match properties with
  | [] => JsUndefined
  | (k, v) :: rest => if String.eqb k key then v else own_property key rest
  end.

(** [v.key] for a key that no prototype defines (such are [movies] and
    [href]): a [TypeError] on [undefined] and [null], the own property of
    an object, [undefined] on every other value. *)
Definition get (v : JsValue) (key : string) : option JsValue :=
  match v with
  | JsUndefined | JsNull => None
  | JsObject properties => Some (own_property key properties)
  | _ => Some JsUndefined
  end.

(** [validateAndExtractLink] (frontend/content.js, 72-86). *)
Definition validateAndExtractLink (data : JsValue) : Completion :=
  if negb (truthy data) then Return JsNull
  else
    match get data "movies" with
    | None => Throw
    | Some (JsArray []) => Return JsNull
    | Some (JsArray (firstMovie :: _)) =>
        match get firstMovie "href" with
        | None => Throw
        | Some href => if negb (truthy href) then Return JsNull else Return href
        end
    | Some _ => Return JsNull
    end.

(** The body that [c.JSON(http.StatusOK, gin.H{...})] sends, as the front
    end parses it.  Every empty slice of [Movie] in main.go is a nil slice
    ([var movies []Movie] and [var result []Movie] without an [append]),
    which [encoding/json] writes as [null]. *)
Definition json_of_movie (movie : Movie) : JsValue :=
  JsObject [("title"%string, JsString (Title movie));
            ("href"%string, JsString (Href movie))].

Definition json_of_movies (movies : list Movie) : JsValue :=
  match movies with
  | [] => JsNull
  | _ :: _ => JsArray (map json_of_movie movies)
  end.

Definition json_of_response (city : gostring) (movies : list Movie) (count : Z)
  : JsValue :=
  JsObject [("city"%string, JsString city);
            ("count"%string, JsNumber count);
            ("movies"%string, json_of_movies movies)].

(** [fetchMovieData] (frontend/content.js, 53-65), given the answer of the
    API: it throws unless [response.ok], that is, on every 500. *)
Definition fetchMovieData (response : Response) : Completion :=
  match response with
  | StatusOK city movies count => Return (json_of_response city movies count)
  | StatusInternalServerError _ | Panicked => Throw
  end.

(** [bookingLink] in [main] (frontend/content.js, 38-39). *)
Definition bookingLink (response : Response) : Completion :=
  match fetchMovieData response with
  | Return movieData => validateAndExtractLink movieData
  | Throw => Throw
  end.

(* ================================================================== *)
(** * The vocabulary of the properties *)
(* ================================================================== *)

(** ** The cache store and the handler *)

(** The store holds a fresh snapshot for [city] at time [now]: some row of
    the city with [now - capturedAt < window]. *)
Definition holds_fresh (now : Z) (city : gostring) (db : Table) : Prop :=
  exists r, In r db /\ row_city r = city /\ now - scraped_at r < window.

(** The store holds a snapshot for [city], whatever its age. *)
Definition holds_snapshot (city : gostring) (db : Table) : Prop :=
  exists r, In r db /\ row_city r = city.

(** The row that [saveMoviesToDB] writes for a movie. *)
Definition row_of (tx_time : Z) (city : gostring) (m : Movie) : Row :=
  {| row_city := city; row_title := Title m; row_href := Href m;
     scraped_at := tx_time |}.

(** The number of extractions among the effects of some requests. *)
Definition extractions (effects : list Effect) : nat :=
  List.length (filter is_extraction effects).

(** The steps at which an injected fault strikes a replace of [movies]. *)
Definition fault_strikes (fault : SaveFault) (movies : list Movie) : Prop :=
  match fault with
  | NoFault => False
  | InsertFails k _ => (k < List.length movies)%nat
  | _ => True
  end.

(** The read of a request found nothing to serve. *)
Definition cache_miss (env : Env) (req : Request) (db : Table) : Prop :=
  fst (getMoviesFromDB (env_read env) (env_ties env) (env_now env)
         (city_of req) db) = [].


(** A string as [cleanQuery] leaves it: no non-breaking space, no white
    space at either end. *)
Definition normalised (s : gostring) : Prop :=
  (forall r, In r s -> r <> NBSP) /\
  (forall r t, s = r :: t -> unicode_IsSpace r = false) /\
  (forall t r, s = t ++ [r] -> unicode_IsSpace r = false).

(** [s1] is [s2] with non-breaking spaces in the place of some of its
    plain spaces. *)
Definition nbsp_for_space (s1 s2 : gostring) : Prop :=
  Forall2 (fun a b => a = b \/ (a = NBSP /\ b = SPACE)) s1 s2.

(** The rows of [city], in heap order. *)
Definition city_rows (city : gostring) (db : Table) : Table :=
  filter (fun r => gostring_eqb (row_city r) city) db.

(** The table satisfies [UNIQUE(city, href)]. *)
Definition unique_rows (db : Table) : Prop :=
  NoDup (map (fun r => (row_city r, row_href r)) db).

(** Every row is one that [scrapeMovies] can have produced: it has a link,
    and its title is normalised. *)
Definition scraped_rows (db : Table) : Prop :=
  Forall (fun r => row_href r <> [] /\ normalised (row_title r)) db.

(** Rows in the order of [ORDER BY scraped_at DESC]. *)
Definition newest_first (rows : list Row) : Prop :=
  StronglySorted (fun a b => scraped_at b <= scraped_at a) rows.

(** The values that the columns of [init.sql] admit: [VARCHAR(100)],
    [VARCHAR(500)] and [VARCHAR(1000)] count characters, and no text value
    of PostgreSQL holds NUL.  ([insert_movie] does not check this; the
    properties that need an [INSERT] to succeed assume it.) *)
Definition fits_columns (city : gostring) (movie : Movie) : Prop :=
  (List.length city <= 100)%nat /\ ~ In 0 city /\
  (List.length (Title movie) <= 500)%nat /\ ~ In 0 (Title movie) /\
  (List.length (Href movie) <= 1000)%nat /\ ~ In 0 (Href movie).

(** The table holds a snapshot of [city] that is not empty and was taken
    at [t] or later. *)
Definition snapshot_since (t : Z) (city : gostring) (db : Table) : Prop :=
  exists t' movies,
    t <= t' /\ movies <> [] /\ city_rows city db = map (row_of t' city) movies.

Section HandlerVocabulary.
Context {tables : GoTables}.

(** An environment in which the cache of a city stays in use: the read
    works, the transaction starts after the read, and the page of the city
    lists at least one entry with a link. *)
Definition steady (env : Env) : Prop :=
  env_read env = ReadOk /\
  env_now env <= env_tx_time env /\
  forall links, env_run env = RunOk links -> movies_of_links links <> [].

End HandlerVocabulary.

(** ** The matcher *)

(** No rune of the string is NUL. *)
Definition nul_free (s : gostring) : Prop := ~ In 0 s.

Definition nul_free_titles (movies : list Movie) : Prop :=
  Forall (fun movie => nul_free (Title movie)) movies.

Section MatcherVocabulary.
Context {tables : GoTables}.

(** The runes of [pattern] occur in [s], in order, up to case. *)
Inductive fold_subseq : list rune -> gostring -> Prop :=
| fold_subseq_nil : forall s, fold_subseq [] s
| fold_subseq_skip : forall pattern c s,
    fold_subseq pattern s -> fold_subseq pattern (c :: s)
| fold_subseq_take : forall p pattern c s,
    Fuzzy.equalFold c p = true ->
    fold_subseq pattern s -> fold_subseq (p :: pattern) (c :: s).

(** The runes that the pattern rune at [k] may still be matched by:
    one read since the last commit, or the very next one. *)
Definition pending (runes : list rune) (k : nat) (B s : gostring) : Prop :=
  exists p, nth_error runes k = Some p /\
    ((exists c, In c B /\ Fuzzy.equalFold c p = true) \/
     (exists c s', s = c :: s' /\ Fuzzy.equalFold c p = true)).

(** The invariant of the loop over the runes of a title: [pre] has been
    read, [s] is still to read. *)
Definition scan_inv (runes : list rune) (pre s : gostring) (st : Fuzzy.scan)
  : Prop :=
  List.length (Fuzzy.matched st) = Fuzzy.patternIndex st /\
  (s <> [] -> (Fuzzy.patternIndex st < List.length runes)%nat) /\
  exists A B,
    pre = A ++ B /\
    fold_subseq (firstn (Fuzzy.patternIndex st) runes) A /\
    (-1 < Fuzzy.matchedIndex st -> s <> [] ->
     pending runes (Fuzzy.patternIndex st) B s).

(** The invariant of the same loop that makes it find every occurrence:
    before a rune of the title is read, either nothing has matched yet and
    the whole pattern occurs in what is still to read, or a position is
    recorded and the pattern after the current rune occurs in what follows
    the rune to read; at the end every pattern rune is committed. *)
Definition scan_complete (runes : list rune) (s : gostring) (st : Fuzzy.scan)
  : Prop :=
  match s with
  | [] => Fuzzy.patternIndex st = List.length runes
  | _ :: rest =>
      (Fuzzy.matchedIndex st = -1 /\ Fuzzy.bestScore st = -1 /\
       Fuzzy.matched st = [] /\ Fuzzy.patternIndex st = 0%nat /\
       fold_subseq runes s) \/
      (-1 < Fuzzy.matchedIndex st /\
       (Fuzzy.patternIndex st < List.length runes)%nat /\
       fold_subseq (skipn (S (Fuzzy.patternIndex st)) runes) rest)
  end.

(** The score that [fuzzy.Find] gives a title for a pattern, if the title
    matches. *)
Definition match_score (pattern title : gostring) : option Z :=
  match Fuzzy.match_one pattern 0 title with
  | Some (Some m) => Some (Fuzzy.Score m)
  | _ => None
  end.

(** [fuzzy.Find] returns a match for the title. *)
Definition scored (pattern title : gostring) : bool :=
  match match_score pattern title with Some _ => true | None => false end.

(** What the loop over the titles returns, from index [i] on. *)
Definition found_from (runes : list rune) (i : nat) (data : list gostring)
    (ms : list Fuzzy.Match) : Prop :=
  Forall (fun m =>
            (i <= Fuzzy.Index m)%nat /\
            nth_error data (Fuzzy.Index m - i) = Some (Fuzzy.Str m) /\
            fold_subseq runes (Fuzzy.Str m) /\
            match_score runes (Fuzzy.Str m) = Some (Fuzzy.Score m)) ms /\
  StronglySorted (fun x y => (Fuzzy.Index x < Fuzzy.Index y)%nat) ms /\
  (forall k s, nth_error data k = Some s -> match_score runes s <> None ->
               exists m, In m ms /\ Fuzzy.Index m = (i + k)%nat).

End MatcherVocabulary.

(** The order of the result of [fuzzy.Find]: the higher score first, and of
    two matches with the same score the one that stood later in the data
    first. *)
Definition ranked_before (x y : Fuzzy.Match) : Prop :=
  Fuzzy.Score x > Fuzzy.Score y \/
  (Fuzzy.Score x = Fuzzy.Score y /\ (Fuzzy.Index y < Fuzzy.Index x)%nat).

Definition no_match : Fuzzy.Match :=
  {| Fuzzy.Str := []; Fuzzy.Index := 0; Fuzzy.MatchedIndexes := [];
     Fuzzy.Score := 0 |}.

(** The order of the positions and scores of a result: descending score,
    and among equal scores descending position in the snapshot. *)
Definition rank_order (r r' : nat * Z) : Prop :=
  snd r > snd r' \/ (snd r = snd r' /\ (fst r' < fst r)%nat).

Definition rank_of (m : Fuzzy.Match) : nat * Z :=
  (Fuzzy.Index m, Fuzzy.Score m).

(** The ranked answer to a query: the positions and scores of the entries
    that have a score, all of them, in the order of [rank_order], and the
    entries at these positions. *)
Definition ranked_answer {tables : GoTables} (movies : list Movie)
    (query : gostring) (ranked : list (nat * Z)) (result : list Movie)
  : Prop :=
  Forall2 (fun r movie =>
             nth_error movies (fst r) = Some movie /\
             match_score query (Title movie) = Some (snd r)) ranked result /\
  StronglySorted rank_order ranked /\
  (forall i movie,
     nth_error movies i = Some movie ->
     match_score query (Title movie) <> None ->
     In i (map fst ranked)).

(** ** Slices under [sort.Stable] *)

Section SliceVocabulary.
Context {A : Type} (less : A -> A -> bool) (dflt : A).

(** The order that the result is sorted by. *)
Context (before : A -> A -> Prop).

Local Open Scope nat_scope.

(** [d'] differs from [d] inside [a, b) only, by moving elements around. *)
Definition within (d' d : list A) (a b : nat) : Prop :=
  List.length d' = List.length d /\
  (forall k, k < a \/ b <= k -> nth k d' dflt = nth k d dflt) /\
  (forall k, a <= k < b ->
             exists k', a <= k' < b /\ nth k d' dflt = nth k' d dflt).

(** [x] stands before [y] in the input, and [Less] (asked whether [y] goes
    before [x]) answers in agreement with the order. *)
Definition coherent (x y : A) : Prop :=
  (less y x = true -> before y x) /\ (less y x = false -> before x y).

(** [d[a:b]] is sorted. *)
Definition sorted_range (d : list A) (a b : nat) : Prop :=
  forall i j, a <= i -> i < j -> j < b -> before (nth i d dflt) (nth j d dflt).

(** Every element of [d[a:m]] is coherent with every element of
    [d[m:b]]. *)
Definition cross (d : list A) (a m b : nat) : Prop :=
  forall i j, a <= i < m -> m <= j < b ->
              coherent (nth i d dflt) (nth j d dflt).

(** The slice as it is handed to [sort.Stable], and its length. *)
Context (d0 : list A) (n : nat).

(** The elements of [d[a:b]] are elements of the input's [d0[a:b]]. *)
Definition from_input (d : list A) (a b : nat) : Prop :=
  forall k, a <= k < b ->
            exists k', a <= k' < b /\ nth k d dflt = nth k' d0 dflt.

(** From [a] on, the slice is a sequence of sorted blocks of [bs] elements
    (the last one may be shorter), each made of the input's elements at the
    block's positions. *)
Inductive Blocks (d : list A) (bs : nat) : nat -> Prop :=
| Blocks_done : forall a, n <= a -> Blocks d bs a
| Blocks_step : forall a,
    a < n ->
    sorted_range d a (Nat.min (a + bs) n) ->
    from_input d a (Nat.min (a + bs) n) ->
    Blocks d bs (a + bs) ->
    Blocks d bs a.

End SliceVocabulary.

(** ** Sample data *)

Definition cuttack : gostring := str "cuttack".
Definition hour : Z := 3600000000.
Definition timeout_error : error := str "context deadline exceeded".
Definition store_error : error := str "conn closed".

Definition movie_a : Movie :=
  {| Title := str "Sinners"; Href := str "/movies/cuttack/sinners" |}.
Definition movie_b : Movie :=
  {| Title := str "Ballerina"; Href := str "/movies/cuttack/ballerina" |}.
Definition link_a : Link :=
  {| link_text := str " Sinners ";
     link_href := str "/movies/cuttack/sinners" |}.
Definition link_b : Link :=
  {| link_text := str "Ballerina";
     link_href := str "/movies/cuttack/ballerina" |}.
Definition req_cuttack : Request :=
  {| req_city := Some cuttack; req_query := None |}.

(** A table with a snapshot of two entries taken at time 0. *)
Definition db_two : Table :=
  [row_of 0 cuttack movie_a; row_of 0 cuttack movie_b].

(** One hour after the snapshot of [db_two]: the read works. *)
Definition env_hit : Env :=
  {| env_now := hour; env_read := ReadOk; env_ties := [];
     env_run := RunErr timeout_error;
     env_tx_time := hour; env_save := NoFault |}.

(** One hour after the snapshot of [db_two]: the query fails, the page
    lists the two movies, the transaction works. *)
Definition env_read_fails : Env :=
  {| env_now := hour; env_read := QueryFails store_error; env_ties := [];
     env_run := RunOk [link_a; link_b];
     env_tx_time := hour; env_save := NoFault |}.

(** Twenty-five hours after the snapshot of [db_two]: the browser run hits
    its deadline. *)
Definition env_timeout : Env :=
  {| env_now := 25 * hour; env_read := ReadOk; env_ties := [];
     env_run := RunErr timeout_error;
     env_tx_time := 25 * hour; env_save := NoFault |}.

(** The page lists the two movies and everything works. *)
Definition env_extract (now : Z) : Env :=
  {| env_now := now; env_read := ReadOk; env_ties := [];
     env_run := RunOk [link_a; link_b];
     env_tx_time := now; env_save := NoFault |}.

(** The page of the city lists no movie. *)
Definition env_no_listing (now : Z) : Env :=
  {| env_now := now; env_read := ReadOk; env_ties := []; env_run := RunOk [];
     env_tx_time := now; env_save := NoFault |}.

(** The page lists the given links, the commit fails. *)
Definition env_commit_fails (now : Z) (links : list Link) : Env :=
  {| env_now := now; env_read := ReadOk; env_ties := [];
     env_run := RunOk links;
     env_tx_time := now; env_save := CommitFails store_error |}.

(** One hour after the snapshot of [db_two]: the read works, and the
    database produces the second of the two rows first. *)
Definition env_hit_second_first : Env :=
  {| env_now := hour; env_read := ReadOk; env_ties := [1%nat];
     env_run := RunErr timeout_error;
     env_tx_time := hour; env_save := NoFault |}.

(** The page lists one movie twice, and everything works. *)
Definition env_listed_twice (now : Z) : Env :=
  {| env_now := now; env_read := ReadOk; env_ties := [];
     env_run := RunOk [link_a; link_b; link_a];
     env_tx_time := now; env_save := NoFault |}.

(** Two titles to which the query "saw" gives the same score, and one
    title listed under two links. *)
Definition saw_x : Movie :=
  {| Title := str "Saw X"; Href := str "/movies/cuttack/saw-x" |}.
Definition saw_3 : Movie :=
  {| Title := str "Saw 3"; Href := str "/movies/cuttack/saw-3" |}.
Definition ballerina_2d : Movie :=
  {| Title := str "Ballerina"; Href := str "/movies/cuttack/ballerina-2d" |}.
Definition ballerina_3d : Movie :=
  {| Title := str "Ballerina"; Href := str "/movies/cuttack/ballerina-3d" |}.

(** A title with a NUL in it, the link it is extracted from, and a
    request with a query that the title holds. *)
Definition movie_nul : Movie :=
  {| Title := [97; 0]; Href := str "/movies/cuttack/a" |}.

(** The title of the normalisation example, written with non-breaking
    spaces, and with plain ones. *)
Definition dragon_nbsp : gostring :=
  str "How" ++ [NBSP] ++ str "to" ++ [NBSP] ++ str "Train" ++ [NBSP]
  ++ str "Your" ++ [NBSP] ++ str "Dragon".
Definition dragon : gostring := str "How to Train Your Dragon".

(** A link with the text of the comment of [cleanQuery], white space
    around it. *)
Definition link_dragon : Link :=
  {| link_text := str " How to Train Your&nbsp;Dragon ";
     link_href := str "/movies/cuttack/how-to-train-your-dragon" |}.

(** Data of the tests of the [fuzzy] package. *)
Definition meme_temps : gostring :=
  [109; 233; 109; 101; 84; 101; 109; 112; 115].

(** Data of the runs of the further properties. *)
Definition bhubaneswar : gostring := str "bhubaneswar".

Definition req_blank : Request :=
  {| req_city := Some cuttack; req_query := Some (str "  ") |}.

Definition req_balerina : Request :=
  {| req_city := Some cuttack; req_query := Some (str "balerina") |}.

(** One hour after the snapshot of [db_two]: the read breaks off after one
    row. *)
Definition env_read_breaks : Env :=
  {| env_now := hour; env_read := RowsErr 1 store_error; env_ties := [];
     env_run := RunErr timeout_error;
     env_tx_time := hour; env_save := NoFault |}.

(** [db_two] and a row of another city. *)
Definition db_three : Table := db_two ++ [row_of 0 bhubaneswar movie_a].

(** At start-up the page of every city lists the two movies. *)
Definition world_extract : gostring -> Env := fun _ => env_extract 0.

Definition req_bhubaneswar : Request :=
  {| req_city := Some bhubaneswar; req_query := None |}.

(** Closes a goal [~ In r s] for a rune [r] that the literal [s] does not
    hold. *)
Ltac absent_from_literal :=
  let H := fresh "H" in
  intros H; simpl in H; repeat (destruct H as [H|H]; [discriminate|]); exact H.

(* ================================================================== *)
(** * Strings *)
(* ================================================================== *)

Lemma gostring_eqb_eq (s t : gostring) : gostring_eqb s t = true <-> s = t.
Proof.
  revert t; induction s as [|a s IH]; intros [|b t]; simpl; split;
    try congruence; try reflexivity.
  - intros H. apply andb_true_iff in H as [Hab Hst].
    apply Z.eqb_eq in Hab. apply IH in Hst. congruence.
  - intros H. injection H as -> ->. apply andb_true_iff. split.
    + apply Z.eqb_refl.
    + apply IH. reflexivity.
Qed.

Lemma gostring_eqb_refl (s : gostring) : gostring_eqb s s = true.
Proof. apply gostring_eqb_eq. reflexivity. Qed.

(* ================================================================== *)
(** * Properties of the cache store *)
(* ================================================================== *)

Lemma where_fresh_spec now city r :
  where_fresh now city r = true <->
  row_city r = city /\ now - scraped_at r < window.
Proof.
  unfold where_fresh. rewrite andb_true_iff, gostring_eqb_eq, Z.ltb_lt.
  intuition lia.
Qed.

Lemma order_insert_perm r acc : Permutation (r :: acc) (order_insert r acc).
Proof.
  induction acc as [|r' acc IH]; simpl.
  - apply Permutation_refl.
  - destruct (scraped_at r' <? scraped_at r).
    + apply Permutation_refl.
    + eapply perm_trans; [apply perm_swap|]. now apply perm_skip.
Qed.

Lemma order_fold_perm rows : forall acc,
  Permutation (rows ++ acc)
    (fold_left (fun acc r => order_insert r acc) rows acc).
Proof.
  induction rows as [|r rows IH]; intros acc; simpl.
  - apply Permutation_refl.
  - eapply perm_trans; [|apply IH].
    eapply perm_trans; [apply Permutation_middle|].
    apply Permutation_app_head. apply order_insert_perm.
Qed.

Lemma produce_perm : forall k rows x others,
  produce k rows = Some (x, others) -> Permutation rows (x :: others).
Proof.
  induction k as [|k IH]; intros [|r rows] x others H; simpl in H;
    try discriminate.
  - injection H as <- <-. apply Permutation_refl.
  - destruct (produce k rows) as [[y rest]|] eqn:E; [|discriminate].
    injection H as <- <-. apply IH in E.
    eapply perm_trans; [apply perm_skip; exact E|]. apply perm_swap.
Qed.

Lemma produced_perm : forall fuel ties rows,
  Permutation rows (produced fuel ties rows).
Proof.
  induction fuel as [|fuel IH]; intros ties rows; simpl.
  - apply Permutation_refl.
  - destruct (produce (hd 0%nat ties) rows) as [[r others]|] eqn:E.
    + eapply perm_trans; [apply (produce_perm _ _ _ _ E)|].
      apply perm_skip. apply IH.
    + destruct rows as [|r others]; [apply Permutation_refl|].
      apply perm_skip. apply IH.
Qed.

(** With no choice made, the rows are produced in heap order. *)
Lemma produced_heap_order : forall fuel rows, produced fuel [] rows = rows.
Proof.
  induction fuel as [|fuel IH]; intros [|r rows]; simpl; auto.
  now rewrite IH.
Qed.

Lemma produce_split (l1 l2 : list Row) (x : Row) :
  produce (List.length l1) (l1 ++ x :: l2) = Some (x, l1 ++ l2).
Proof.
  induction l1 as [|r l1 IH]; simpl; auto. now rewrite IH.
Qed.

(** Every order of the rows is produced for some choice. *)
Lemma produced_complete : forall target rows,
  Permutation target rows ->
  exists ties, produced_order ties rows = target.
Proof.
  unfold produced_order.
  induction target as [|x target IH]; intros rows Hperm.
  - apply Permutation_nil in Hperm. subst. now exists [].
  - assert (In x rows) as Hin
      by (apply (Permutation_in _ Hperm); now left).
    apply in_split in Hin as (l1 & l2 & ->).
    apply Permutation_cons_app_inv in Hperm.
    destruct (IH _ Hperm) as (ties & Hties).
    exists (List.length l1 :: ties).
    rewrite length_app. simpl List.length.
    rewrite Nat.add_succ_r. simpl.
    rewrite produce_split. rewrite <- length_app, Hties. reflexivity.
Qed.

Lemma order_by_perm ties rows :
  Permutation rows (order_by_scraped_at_desc ties rows).
Proof.
  unfold order_by_scraped_at_desc, produced_order.
  eapply perm_trans; [apply (produced_perm (List.length rows) ties)|].
  rewrite <- (app_nil_r (produced _ _ _)) at 1. apply order_fold_perm.
Qed.

(** A row that is no more recent than the rows sorted so far goes behind
    them. *)
Lemma order_insert_last r acc :
  Forall (fun x => scraped_at r <= scraped_at x) acc ->
  order_insert r acc = acc ++ [r].
Proof.
  intros Hacc. induction Hacc as [|x acc Hx _ IH]; simpl.
  - reflexivity.
  - assert ((scraped_at x <? scraped_at r) = false) as ->
      by (apply Z.ltb_ge; lia).
    now rewrite IH.
Qed.

(** The sort leaves a list alone that is sorted already. *)
Lemma order_fold_sorted rows : forall acc,
  newest_first (acc ++ rows) ->
  fold_left (fun acc r => order_insert r acc) rows acc = acc ++ rows.
Proof.
  induction rows as [|r rows IH]; intros acc Hsorted; simpl.
  - now rewrite app_nil_r.
  - rewrite order_insert_last.
    + rewrite IH; rewrite <- app_assoc; [reflexivity | exact Hsorted].
    + unfold newest_first in Hsorted. clear IH.
      induction acc as [|x acc IHacc]; [constructor|].
      simpl in Hsorted. inversion Hsorted as [|? ? Htail Hx]; subst.
      constructor; [|now apply IHacc].
      rewrite Forall_forall in Hx. apply Hx.
      apply in_or_app. right. now left.
Qed.

(** Rows that carry one time stamp come back as they are produced. *)
Lemma order_by_same t ties rows :
  Forall (fun x => scraped_at x = t) rows ->
  order_by_scraped_at_desc ties rows = produced_order ties rows.
Proof.
  intros H. unfold order_by_scraped_at_desc.
  rewrite order_fold_sorted; [reflexivity|]. simpl.
  assert (Forall (fun x => scraped_at x = t) (produced_order ties rows)) as Hp.
  { apply Forall_forall. intros x Hx. rewrite Forall_forall in H. apply H.
    unfold produced_order in Hx.
    apply (Permutation_in _ (Permutation_sym (produced_perm _ _ _)) Hx). }
  unfold newest_first. induction Hp as [|x l Hx Hl IH]; constructor; auto.
  eapply Forall_impl; [|exact Hl]. cbv beta. intros; lia.
Qed.

(** The model of [ORDER BY scraped_at DESC] is exact: the orders it
    returns for some choice of the ties are the orders of the rows with
    the most recent first. *)
Lemma order_by_admits ties rows :
  newest_first (order_by_scraped_at_desc ties rows).
Proof.
  unfold order_by_scraped_at_desc.
  assert (forall l acc, newest_first acc ->
            newest_first (fold_left (fun acc r => order_insert r acc) l acc))
    as H.
  { induction l as [|r l IH]; intros acc Hacc; simpl; auto.
    apply IH. clear IH. unfold newest_first in *.
    induction Hacc as [|r' acc Hacc IHacc Hr']; simpl.
    - repeat constructor.
    - destruct (scraped_at r' <? scraped_at r) eqn:E.
      + apply Z.ltb_lt in E. constructor; [now constructor|].
        constructor; [lia|]. eapply Forall_impl; [|exact Hr'].
        cbv beta. intros; lia.
      + apply Z.ltb_ge in E. constructor; [exact IHacc|].
        apply Forall_forall. intros x Hx.
        apply (Permutation_in _
                 (Permutation_sym (order_insert_perm r acc))) in Hx.
        destruct Hx as [<-|Hx]; [exact E|].
        rewrite Forall_forall in Hr'. now apply Hr'. }
  apply H. constructor.
Qed.

Lemma order_by_reaches target rows :
  Permutation target rows -> newest_first target ->
  exists ties, order_by_scraped_at_desc ties rows = target.
Proof.
  intros Hperm Hsorted.
  destruct (produced_complete target rows Hperm) as (ties & Hties).
  exists ties. unfold order_by_scraped_at_desc. rewrite Hties.
  now apply order_fold_sorted.
Qed.

Lemma fresh_rows_nonempty now city db :
  holds_fresh now city db <-> filter (where_fresh now city) db <> [].
Proof.
  split.
  - intros (r & Hin & Hc & Ht) Hnil.
    assert (In r (filter (where_fresh now city) db)) as Hf.
    { apply filter_In. split; auto. now apply where_fresh_spec. }
    rewrite Hnil in Hf. contradiction.
  - intros Hne. destruct (filter (where_fresh now city) db) as [|r l] eqn:E.
    + contradiction.
    + assert (In r (filter (where_fresh now city) db)) as Hf
        by (rewrite E; now left).
      apply filter_In in Hf as [Hin Hw]. apply where_fresh_spec in Hw.
      exists r. tauto.
Qed.

(** A read that succeeds returns an entry exactly when the store holds a
    fresh snapshot. *)
Lemma read_ok_nonempty ties now city db :
  holds_fresh now city db <->
  fst (getMoviesFromDB ReadOk ties now city db) <> [].
Proof.
  rewrite fresh_rows_nonempty. simpl.
  set (rows := filter (where_fresh now city) db).
  pose proof (order_by_perm ties rows) as Hp.
  split; intros H Hnil.
  - apply map_eq_nil in Hnil. rewrite Hnil in Hp.
    apply Permutation_sym, Permutation_nil in Hp. contradiction.
  - apply H. fold rows. rewrite Hnil. reflexivity.
Qed.

(** Without a fresh snapshot no read returns an entry, failing or not. *)
Lemma read_stale_empty fault ties now city db :
  ~ holds_fresh now city db ->
  fst (getMoviesFromDB fault ties now city db) = [].
Proof.
  intros Hno.
  assert (filter (where_fresh now city) db = []) as E.
  { destruct (filter (where_fresh now city) db) eqn:E; auto.
    exfalso. apply Hno. apply fresh_rows_nonempty. now rewrite E. }
  unfold getMoviesFromDB. rewrite E. destruct fault; simpl; auto.
  now rewrite firstn_nil.
Qed.

Lemma delete_city_spec city db r :
  In r (delete_city city db) <-> In r db /\ row_city r <> city.
Proof.
  unfold delete_city. rewrite filter_In, negb_true_iff.
  split; intros [H1 H2]; split; auto.
  - intros E. apply gostring_eqb_eq in E. congruence.
  - destruct (gostring_eqb (row_city r) city) eqn:E; auto.
    apply gostring_eqb_eq in E. contradiction.
Qed.

(** The loop of inserts either fails or appends the row of every movie, in
    order. *)
Lemma insert_all_ok fault tx_time city movies : forall k tx tx',
  insert_all fault tx_time city k movies tx = inl tx' ->
  tx' = tx ++ map (row_of tx_time city) movies.
Proof.
  induction movies as [|m movies IH]; intros k tx tx' H; simpl in *.
  - injection H as <-. now rewrite app_nil_r.
  - destruct (insert_error fault k); [discriminate|].
    unfold insert_movie in H.
    destruct (violates_unique city (Href m) tx); [discriminate|].
    apply IH in H. subst tx'. now rewrite <- app_assoc.
Qed.

(** An injected failure of the [k]-th insert is reached when there are
    more than [k] movies (unless an earlier statement failed already). *)
Lemma insert_all_fault tx_time city e movies : forall k0 k tx,
  (k0 <= k < k0 + List.length movies)%nat ->
  exists e', insert_all (InsertFails k e) tx_time city k0 movies tx = inr e'.
Proof.
  induction movies as [|m movies IH]; intros k0 k tx Hk; simpl in *.
  - lia.
  - destruct (k =? k0)%nat eqn:E.
    + eauto.
    + apply Nat.eqb_neq in E.
      destruct (insert_movie tx_time city m tx) as [tx'|e']; eauto.
      apply IH. lia.
Qed.

(** The outcome of [saveMoviesToDB]: the table as it was and an error, or
    the table with the rows of the city replaced by the new ones. *)
Lemma save_outcome fault tx_time city movies db :
  (exists e, saveMoviesToDB fault tx_time city movies db = (db, Some e)) \/
  saveMoviesToDB fault tx_time city movies db =
    (delete_city city db ++ map (row_of tx_time city) movies, None).
Proof.
  unfold saveMoviesToDB.
  destruct (begin_error fault); [left; eauto|].
  destruct (delete_error fault); [left; eauto|].
  destruct (insert_all fault tx_time city 0 movies (delete_city city db))
    as [tx|e] eqn:E; [|left; eauto].
  destruct (commit_error fault); [left; eauto|].
  right. apply insert_all_ok in E. now subst.
Qed.

Lemma save_fault_fails fault tx_time city movies db :
  fault_strikes fault movies ->
  exists e, saveMoviesToDB fault tx_time city movies db = (db, Some e).
Proof.
  intros Hs. unfold saveMoviesToDB.
  destruct fault as [|e|e|k e|e]; simpl in *; try contradiction; eauto.
  - destruct (insert_all_fault tx_time city e movies 0 k
                (delete_city city db)) as [e' He']; [lia|].
    rewrite He'. eauto.
  - destruct (insert_all _ _ _ _ _ _); eauto.
Qed.

Lemma insert_all_app fault tx_time city l l' : forall k tx,
  insert_all fault tx_time city k (l ++ l') tx =
  match insert_all fault tx_time city k l tx with
  | inr e => inr e
  | inl tx' => insert_all fault tx_time city (k + List.length l) l' tx'
  end.
Proof.
  induction l as [|m l IH]; intros k tx; simpl.
  - now rewrite Nat.add_0_r.
  - destruct (insert_error fault k); auto.
    destruct (insert_movie tx_time city m tx) as [tx'|e]; auto.
    rewrite IH. now rewrite Nat.add_succ_r.
Qed.

Lemma violates_unique_spec city href tx :
  violates_unique city href tx = true <->
  exists r, In r tx /\ row_city r = city /\ row_href r = href.
Proof.
  unfold violates_unique. rewrite existsb_exists.
  split; intros (r & Hr & H); exists r; split; auto.
  - apply andb_true_iff in H. now rewrite !gostring_eqb_eq in H.
  - apply andb_true_iff. now rewrite !gostring_eqb_eq.
Qed.

(** A list that holds one link twice cannot be inserted. *)
Lemma insert_all_duplicate fault tx_time city l1 m1 l2 m2 l3 k tx :
  Href m1 = Href m2 ->
  exists e, insert_all fault tx_time city k (l1 ++ m1 :: l2 ++ m2 :: l3) tx
            = inr e.
Proof.
  intros Hdup.
  replace (l1 ++ m1 :: l2 ++ m2 :: l3) with ((l1 ++ m1 :: l2) ++ m2 :: l3)
    by (rewrite <- app_assoc; reflexivity).
  rewrite insert_all_app.
  destruct (insert_all fault tx_time city k (l1 ++ m1 :: l2) tx)
    as [tx'|e] eqn:E; [|eauto].
  apply insert_all_ok in E. simpl.
  destruct (insert_error fault _); [eauto|].
  unfold insert_movie.
  assert (violates_unique city (Href m2) tx' = true) as ->; [|eauto].
  apply violates_unique_spec. exists (row_of tx_time city m1).
  split; [|split; [reflexivity | exact Hdup]].
  subst tx'. apply in_or_app. right. apply in_map.
  apply in_or_app. right. now left.
Qed.

(** Distinct links into a transaction that holds none of them, and no
    injected failure in reach: every insert goes through. *)
Lemma insert_all_unstruck fault tx_time city movies : forall k tx,
  (forall j, (k <= j < k + List.length movies)%nat ->
             insert_error fault j = None) ->
  NoDup (map Href movies) ->
  (forall r, In r tx -> row_city r = city ->
             ~ In (row_href r) (map Href movies)) ->
  insert_all fault tx_time city k movies tx
  = inl (tx ++ map (row_of tx_time city) movies).
Proof.
  induction movies as [|m movies IH]; intros k tx Hfault Hnd Htx; simpl.
  - now rewrite app_nil_r.
  - inversion Hnd as [|? ? Hm Hnd']; subst.
    rewrite Hfault by (simpl; lia).
    unfold insert_movie.
    assert (violates_unique city (Href m) tx = false) as ->.
    { apply not_true_iff_false. intros H.
      apply violates_unique_spec in H as (r & Hr & Hc & Hh).
      apply (Htx r Hr Hc). rewrite Hh. now left. }
    rewrite IH; auto.
    + rewrite <- app_assoc. reflexivity.
    + intros j Hj. apply Hfault. simpl. lia.
    + intros r Hr Hc Hin. apply in_app_or in Hr as [Hr|[<-|[]]].
      * apply (Htx r Hr Hc). now right.
      * simpl in Hin. contradiction.
Qed.

(** Inserts that all went through were of distinct links, none of them in
    the transaction before. *)
Lemma insert_all_success fault tx_time city movies : forall k tx tx',
  insert_all fault tx_time city k movies tx = inl tx' ->
  NoDup (map Href movies) /\
  forall m, In m movies -> violates_unique city (Href m) tx = false.
Proof.
  induction movies as [|m movies IH]; intros k tx tx' H; simpl in *.
  - split; [constructor | intros m []].
  - destruct (insert_error fault k); [discriminate|].
    unfold insert_movie in H.
    destruct (violates_unique city (Href m) tx) eqn:V; [discriminate|].
    apply IH in H as [Hnd Hall].
    assert (forall m', In m' movies ->
              Href m' <> Href m /\
              violates_unique city (Href m') tx = false) as Hrest.
    { intros m' Hm'. specialize (Hall m' Hm').
      unfold violates_unique in Hall. rewrite existsb_app in Hall.
      apply orb_false_iff in Hall as [Htx Hm]. split; [|exact Htx].
      intros E. simpl in Hm. rewrite orb_false_r in Hm.
      apply andb_false_iff in Hm as [Hm|Hm];
        apply not_true_iff_false in Hm; apply Hm, gostring_eqb_eq;
        [reflexivity | now symmetry]. }
    split.
    + constructor; [|exact Hnd].
      intros Hin. apply in_map_iff in Hin as (m' & Hh & Hm').
      now apply (proj1 (Hrest m' Hm')).
    + intros m' [<-|Hm']; [exact V | apply (Hrest m' Hm')].
Qed.

(** A fault that does not strike leaves every step of the transaction
    alone. *)
Lemma fault_unstruck fault movies :
  ~ fault_strikes fault movies ->
  begin_error fault = None /\ delete_error fault = None /\
  commit_error fault = None /\
  forall j, (j < List.length movies)%nat -> insert_error fault j = None.
Proof.
  intros Hs. destruct fault as [|e|e|k e|e]; simpl in *;
    try (exfalso; apply Hs; exact I); repeat split; auto.
  intros j Hj. destruct (k =? j)%nat eqn:E; auto.
  apply Nat.eqb_eq in E. lia.
Qed.

(** A replace in which no step fails and no link repeats succeeds: the rows
    of the city are replaced by the new ones. *)
Lemma save_unstruck fault tx_time city movies db :
  ~ fault_strikes fault movies ->
  NoDup (map Href movies) ->
  saveMoviesToDB fault tx_time city movies db
  = (delete_city city db ++ map (row_of tx_time city) movies, None).
Proof.
  intros Hs Hnd. destruct (fault_unstruck fault movies Hs)
    as (Hb & Hd & Hc & Hi).
  unfold saveMoviesToDB. rewrite Hb, Hd.
  rewrite insert_all_unstruck; auto.
  - now rewrite Hc.
  - intros j Hj. apply Hi. lia.
  - intros r Hr Hcity. apply delete_city_spec in Hr. tauto.
Qed.

Lemma save_distinct tx_time city movies db :
  NoDup (map Href movies) ->
  saveMoviesToDB NoFault tx_time city movies db
  = (delete_city city db ++ map (row_of tx_time city) movies, None).
Proof. apply save_unstruck. simpl. tauto. Qed.

(** A replace that succeeded was of distinct links. *)
Lemma save_success_distinct fault tx_time city movies db :
  snd (saveMoviesToDB fault tx_time city movies db) = None ->
  NoDup (map Href movies).
Proof.
  unfold saveMoviesToDB.
  destruct (begin_error fault); [discriminate|].
  destruct (delete_error fault); [discriminate|].
  destruct (insert_all fault tx_time city 0 movies (delete_city city db))
    as [tx|e] eqn:E; [|discriminate].
  intros _. now apply insert_all_success in E.
Qed.

Lemma save_duplicate fault tx_time city l1 m1 l2 m2 l3 db :
  Href m1 = Href m2 ->
  exists e, saveMoviesToDB fault tx_time city (l1 ++ m1 :: l2 ++ m2 :: l3) db
            = (db, Some e).
Proof.
  intros Hdup. unfold saveMoviesToDB.
  destruct (begin_error fault); [eauto|].
  destruct (delete_error fault); [eauto|].
  destruct (insert_all_duplicate fault tx_time city l1 m1 l2 m2 l3 0
              (delete_city city db) Hdup) as (e & ->).
  eauto.
Qed.

(** The fresh rows of a city after a replace that succeeded: the new
    rows. *)
Lemma fresh_after_save tx_time now city movies db :
  now - tx_time < window ->
  filter (where_fresh now city)
    (delete_city city db ++ map (row_of tx_time city) movies)
  = map (row_of tx_time city) movies.
Proof.
  intros Hfresh. rewrite filter_app.
  assert (filter (where_fresh now city) (delete_city city db) = []) as ->.
  { assert (Forall (fun r => where_fresh now city r = false)
              (delete_city city db)) as Hall.
    { apply Forall_forall. intros r Hr. apply delete_city_spec in Hr.
      apply not_true_iff_false. intros W. apply where_fresh_spec in W.
      tauto. }
    induction Hall as [|r l Hr _ IH]; simpl; auto. now rewrite Hr. }
  simpl.
  induction movies as [|m movies IH]; simpl; auto.
  assert (where_fresh now city (row_of tx_time city m) = true) as ->
    by (apply where_fresh_spec; simpl; split; [reflexivity|lia]).
  now rewrite IH.
Qed.

Lemma movie_of_row_of tx_time city movies :
  map movie_of_row (map (row_of tx_time city) movies) = movies.
Proof.
  rewrite map_map. induction movies as [|[t h] movies IH]; simpl; auto.
  now rewrite IH.
Qed.

(** After a replace that succeeded, a read within the window returns the
    new entries, all of them, in the order that the database gives to
    rows of one time stamp. *)
Lemma read_after_save tx_time ties now city movies db :
  now - tx_time < window ->
  exists served,
    getMoviesFromDB ReadOk ties now city
      (delete_city city db ++ map (row_of tx_time city) movies)
    = (served, None) /\
    Permutation movies served.
Proof.
  intros Hfresh. unfold getMoviesFromDB.
  rewrite (fresh_after_save tx_time now city movies db Hfresh).
  eexists. split; [reflexivity|].
  rewrite <- (movie_of_row_of tx_time city movies) at 1.
  apply Permutation_map. apply order_by_perm.
Qed.

(** When the database keeps the heap order among them, the entries come
    back in the order in which they were saved. *)
Lemma read_after_save_heap_order tx_time now city movies db :
  now - tx_time < window ->
  getMoviesFromDB ReadOk [] now city
    (delete_city city db ++ map (row_of tx_time city) movies)
  = (movies, None).
Proof.
  intros Hfresh. unfold getMoviesFromDB.
  rewrite (fresh_after_save tx_time now city movies db Hfresh).
  rewrite (order_by_same tx_time).
  - unfold produced_order. rewrite produced_heap_order.
    now rewrite movie_of_row_of.
  - apply Forall_forall. intros r Hr. apply in_map_iff in Hr as (m & <- & _).
    reflexivity.
Qed.

(* ================================================================== *)
(** * Properties of the request handler *)
(* ================================================================== *)

Section Handler.
Context {tables : GoTables}.

Lemma getMovies_hit env req db :
  ~ cache_miss env req db ->
  getMovies env req db =
    (db,
     respond (city_of req)
       (fst (getMoviesFromDB (env_read env) (env_ties env) (env_now env)
               (city_of req) db))
       (query_of req),
     []).
Proof.
  unfold cache_miss, getMovies. intros H.
  destruct (getMoviesFromDB _ _ _ _) as [movies err]. simpl in *.
  destruct movies; [contradiction|]. reflexivity.
Qed.

Lemma getMovies_miss env req db :
  cache_miss env req db ->
  getMovies env req db =
    match scrapeMovies (env_run env) with
    | (_, Some err) =>
        (db,
         StatusInternalServerError (str "Failed to scrape movies: " ++ err),
         [Extraction (city_of req)])
    | (movies, None) =>
        let out := saveMoviesToDB (env_save env) (env_tx_time env)
                     (city_of req) movies db in
        (fst out, respond (city_of req) movies (query_of req),
         [Extraction (city_of req);
          CacheWrite (city_of req)
            (match snd out with None => true | Some _ => false end)])
    end.
Proof.
  unfold cache_miss, getMovies. intros H.
  destruct (getMoviesFromDB _ _ _ _) as [movies err]. simpl in *. subst.
  simpl. destruct (scrapeMovies (env_run env)) as [ms [e|]]; auto.
  destruct (saveMoviesToDB _ _ _ _ _); reflexivity.
Qed.

Lemma cache_miss_dec env req db :
  cache_miss env req db \/ ~ cache_miss env req db.
Proof.
  unfold cache_miss. destruct (fst _); [now left | right; discriminate].
Qed.

Lemma respond_no_query city movies :
  respond city movies [] = StatusOK city movies (Z.of_nat (List.length movies)).
Proof. reflexivity. Qed.

End Handler.

Section HandlerClaims.
Context {tables : GoTables}.


(** C2.  [saveMoviesToDB] is all or nothing.  A step that fails makes the
    call return an error, and whenever it returns an error the table is the
    one before the call, so every read returns what it returned before.
    The call returns no error exactly when no step fails and no link is
    there twice; the table is then the one before the call with the rows
    of the city replaced by the rows of the new entries, in order and with
    the time stamp of the transaction, the rows of the other cities
    untouched. *)
Theorem replace_is_all_or_nothing (fault : SaveFault) (tx_time : Z)
    (city : gostring) (movies : list Movie) (db : Table) :
  let out := saveMoviesToDB fault tx_time city movies db in
  (fault_strikes fault movies -> snd out <> None) /\
  (snd out <> None ->
   fst out = db /\
   forall rf ties now c,
     getMoviesFromDB rf ties now c (fst out)
     = getMoviesFromDB rf ties now c db) /\
  (snd out = None <->
   ~ fault_strikes fault movies /\ NoDup (map Href movies)) /\
  (snd out = None ->
   fst out = delete_city city db ++ map (row_of tx_time city) movies /\
   filter (fun r => gostring_eqb (row_city r) city) (fst out)
     = map (row_of tx_time city) movies /\
   delete_city city (fst out) = delete_city city db).
Proof.
  cbv zeta. split; [|split; [|split]].
  - intros Hs. destruct (save_fault_fails fault tx_time city movies db Hs)
      as [e ->]. discriminate.
  - intros Herr.
    destruct (save_outcome fault tx_time city movies db) as [[e ->]| E].
    + split; reflexivity.
    + rewrite E in Herr. simpl in Herr. congruence.
  - split.
    + intros Hok. split.
      * intros Hs.
        destruct (save_fault_fails fault tx_time city movies db Hs)
          as [e E]. rewrite E in Hok. discriminate.
      * now apply save_success_distinct in Hok.
    + intros [Hs Hnd]. now rewrite save_unstruck.
  - intros Hok.
    destruct (save_outcome fault tx_time city movies db) as [[e E]| ->];
      [rewrite E in Hok; discriminate|]. clear Hok. simpl.
    split; [reflexivity|]. split.
    + rewrite filter_app.
      assert (forall l, filter (fun r => gostring_eqb (row_city r) city)
                          (delete_city city l) = []) as ->.
      { induction l as [|r l IH]; simpl; auto.
        destruct (gostring_eqb (row_city r) city) eqn:E; simpl; auto.
        now rewrite E. }
      simpl. induction movies as [|m movies IH]; simpl; auto.
      now rewrite gostring_eqb_refl, IH.
    + unfold delete_city at 1. rewrite filter_app.
      assert (filter (fun r => negb (gostring_eqb (row_city r) city))
                (map (row_of tx_time city) movies) = []) as ->.
      { induction movies as [|m movies IH]; simpl; auto.
        now rewrite gostring_eqb_refl. }
      rewrite app_nil_r. unfold delete_city.
      induction db as [|r db IH]; simpl; auto.
      destruct (gostring_eqb (row_city r) city) eqn:E; simpl; auto.
      now rewrite E, IH.
Qed.

(** C3.  If the read found nothing to serve (no fresh snapshot, or a read
    that failed) and the browser run fails, by a navigation error or by the
    60 second deadline, the response is 500 with the error in its body,
    whatever stale rows the table holds, and the table is the one before
    the request, so every later read returns what it would have returned. *)
Theorem extraction_failure_fails_request (env : Env) (req : Request)
    (db : Table) (e : error) :
  cache_miss env req db ->
  env_run env = RunErr e ->
  getMovies env req db =
    (db,
     StatusInternalServerError (str "Failed to scrape movies: " ++ e),
     [Extraction (city_of req)]) /\
  forall rf ties now c,
    getMoviesFromDB rf ties now c (fst (fst (getMovies env req db)))
    = getMoviesFromDB rf ties now c db.
Proof.
  intros Hmiss Hrun.
  rewrite (getMovies_miss env req db Hmiss), Hrun. simpl. auto.
Qed.

(** C10.  Two requests that differ in their query only leave the same
    table and have the same effects; and when a request extracts and the
    replace succeeds, the rows written for the city are those of all the
    extracted entries, whatever the query. *)
Theorem query_does_not_affect_cache (env : Env) (city q1 q2 : option gostring)
    (db : Table) :
  let req1 := {| req_city := city; req_query := q1 |} in
  let req2 := {| req_city := city; req_query := q2 |} in
  fst (fst (getMovies env req1 db)) = fst (fst (getMovies env req2 db)) /\
  snd (getMovies env req1 db) = snd (getMovies env req2 db) /\
  forall links,
    cache_miss env req1 db ->
    env_run env = RunOk links ->
    snd (saveMoviesToDB (env_save env) (env_tx_time env) (city_of req1)
           (movies_of_links links) db) = None ->
    fst (fst (getMovies env req1 db))
    = delete_city (city_of req1) db
      ++ map (row_of (env_tx_time env) (city_of req1)) (movies_of_links links).
Proof.
  cbv zeta.
  set (req1 := {| req_city := city; req_query := q1 |}).
  set (req2 := {| req_city := city; req_query := q2 |}).
  assert (city_of req1 = city_of req2) as Hc by reflexivity.
  assert (cache_miss env req1 db <-> cache_miss env req2 db) as Hm
    by (unfold cache_miss; now rewrite Hc).
  destruct (cache_miss_dec env req1 db) as [Hmiss|Hhit].
  - rewrite (getMovies_miss env req1 db Hmiss).
    rewrite (getMovies_miss env req2 db (proj1 Hm Hmiss)).
    rewrite <- Hc.
    destruct (scrapeMovies (env_run env)) as [ms [err|]] eqn:Hs; simpl.
    + repeat split; auto. intros links _ Hrun. rewrite Hrun in Hs.
      discriminate.
    + repeat split; auto. intros links _ Hrun Hsave.
      rewrite Hrun in Hs. simpl in Hs. injection Hs as <-.
      destruct (save_outcome (env_save env) (env_tx_time env) (city_of req1)
                  (movies_of_links links) db) as [[e E]|E];
        rewrite E in *; [discriminate | reflexivity].
  - rewrite (getMovies_hit env req1 db Hhit).
    rewrite (getMovies_hit env req2 db (fun H => Hhit (proj2 Hm H))).
    simpl. repeat split; auto. intros; contradiction.
Qed.

(** C5 (as amended).  Two calls for the same city with no query, the second
    not earlier than the first, both with a cache read that succeeds and
    both within the freshness window: when the first call finds a fresh
    snapshot, its rows are still fresh at the second call; when it finds
    none, its extraction yields at least one entry and no link twice, its
    replace meets no failure, and the second call comes less than 24 hours
    after the start of that transaction.  Then at most one extraction ran
    (none in a first call that found a fresh snapshot, one followed by a
    cache write that succeeded otherwise), the second call ran none and
    left the table to itself, and both responses are 200 with the same
    entries and the same count; the order of the entries can differ, since
    the database chooses the order of rows of equal time stamp in each
    read. *)
Theorem repeated_call_served_from_cache (env1 env2 : Env) (req : Request)
    (db : Table) :
  let city := city_of req in
  let out1 := getMovies env1 req db in
  let out2 := getMovies env2 req (fst (fst out1)) in
  query_of req = [] ->
  env_read env1 = ReadOk ->
  env_read env2 = ReadOk ->
  env_now env1 <= env_now env2 ->
  (holds_fresh (env_now env1) city db ->
   forall r, In r db -> row_city r = city ->
             env_now env1 - scraped_at r < window ->
             env_now env2 - scraped_at r < window) ->
  (~ holds_fresh (env_now env1) city db ->
   exists links,
     env_run env1 = RunOk links /\
     movies_of_links links <> [] /\
     NoDup (map Href (movies_of_links links)) /\
     ~ fault_strikes (env_save env1) (movies_of_links links) /\
     env_now env2 - env_tx_time env1 < window) ->
  (extractions (snd out1 ++ snd out2) <= 1)%nat /\
  (holds_fresh (env_now env1) city db ->
   snd out1 = [] /\ fst (fst out1) = db) /\
  (~ holds_fresh (env_now env1) city db ->
   snd out1 = [Extraction city; CacheWrite city true]) /\
  snd out2 = [] /\
  fst (fst out2) = fst (fst out1) /\
  exists movies1 movies2,
    snd (fst out1) = StatusOK city movies1 (Z.of_nat (List.length movies1)) /\
    snd (fst out2) = StatusOK city movies2 (Z.of_nat (List.length movies2)) /\
    Permutation movies1 movies2.
Proof.
  cbv zeta. intros Hq Hr1 Hr2 Hnow Hstill Hfirst.
  set (city := city_of req) in *.
  destruct (cache_miss_dec env1 req db) as [Hmiss|Hhit].
  - (* the first call extracts *)
    assert (~ holds_fresh (env_now env1) city db) as Hstale.
    { intros Hf. apply (read_ok_nonempty (env_ties env1)) in Hf.
      unfold cache_miss in Hmiss. rewrite Hr1 in Hmiss. contradiction. }
    destruct (Hfirst Hstale) as (links & Hrun & Hne & Hnd & Hsave & Hfresh).
    rewrite (getMovies_miss env1 req db Hmiss), Hrun. simpl.
    fold city. rewrite (save_unstruck _ _ _ _ _ Hsave Hnd). simpl.
    destruct (read_after_save (env_tx_time env1) (env_ties env2)
                (env_now env2) city (movies_of_links links) db Hfresh)
      as (served & Hread & Hperm).
    assert (~ cache_miss env2 req
              (delete_city city db
               ++ map (row_of (env_tx_time env1) city)
                    (movies_of_links links))) as Hhit2.
    { unfold cache_miss. rewrite Hr2. fold city. rewrite Hread. simpl.
      intros ->. apply Permutation_sym, Permutation_nil in Hperm.
      contradiction. }
    rewrite (getMovies_hit env2 req _ Hhit2). simpl.
    rewrite Hr2. fold city. rewrite Hread. simpl.
    repeat split; auto; try contradiction.
    exists (movies_of_links links), served.
    rewrite Hq. repeat split; auto.
  - (* the first call is served from the cache *)
    assert (holds_fresh (env_now env1) city db) as Hfresh.
    { apply (read_ok_nonempty (env_ties env1)). unfold cache_miss in Hhit.
      now rewrite Hr1 in Hhit. }
    rewrite (getMovies_hit env1 req db Hhit). simpl.
    assert (filter (where_fresh (env_now env2) city) db
            = filter (where_fresh (env_now env1) city) db) as Hsame.
    { apply filter_ext_in. intros r Hin.
      destruct (where_fresh (env_now env1) city r) eqn:E1.
      - apply where_fresh_spec in E1 as [Hc Hw].
        apply where_fresh_spec.
        split; [exact Hc | now apply (Hstill Hfresh r Hin Hc)].
      - apply not_true_iff_false. intros E2.
        apply where_fresh_spec in E2 as [Hc Hw].
        apply not_true_iff_false in E1. apply E1.
        apply where_fresh_spec. split; auto. lia. }
    assert (~ cache_miss env2 req db) as Hhit2.
    { unfold cache_miss. rewrite Hr2. fold city.
      apply read_ok_nonempty. destruct Hfresh as (r & Hin & Hc & Hw).
      exists r. repeat split; auto. now apply (Hstill
        (ex_intro _ r (conj Hin (conj Hc Hw))) r Hin Hc). }
    rewrite (getMovies_hit env2 req db Hhit2). simpl.
    repeat split; auto; try contradiction.
    rewrite Hr1, Hr2, Hq. fold city.
    do 2 eexists. split; [reflexivity|]. split; [reflexivity|].
    unfold getMoviesFromDB. simpl. rewrite Hsame.
    apply Permutation_map.
    eapply perm_trans; [apply Permutation_sym, order_by_perm|].
    apply order_by_perm.
Qed.

End HandlerClaims.

(* ------------------------------------------------------------------ *)
(** ** Concrete runs of the handler *)
(* ------------------------------------------------------------------ *)

Lemma db_two_fresh_after_an_hour : holds_fresh hour cuttack db_two.
Proof.
  exists (row_of 0 cuttack movie_a).
  split; [now left|]. split; reflexivity.
Defined.



(** C2 on [db_two]: a replace whose second insert fails, and a replace
    in which no step fails. *)
Lemma replace_is_all_or_nothing_witness :
  (fault_strikes (InsertFails 1 store_error) [movie_b; movie_a] /\
   fst (saveMoviesToDB (InsertFails 1 store_error) hour cuttack
          [movie_b; movie_a] db_two) = db_two) /\
  (~ fault_strikes NoFault [movie_b; movie_a] /\
   NoDup (map Href [movie_b; movie_a]) /\
   fst (saveMoviesToDB NoFault hour cuttack [movie_b; movie_a] db_two)
   = [row_of hour cuttack movie_b; row_of hour cuttack movie_a]).
Proof.
  split.
  - split; [exact (le_n 2)|].
    destruct (replace_is_all_or_nothing (InsertFails 1 store_error) hour
                cuttack [movie_b; movie_a] db_two) as [Hfails [Hkept _]].
    exact (proj1 (Hkept (Hfails (le_n 2)))).
  - assert (NoDup (map Href [movie_b; movie_a])) as Hnd.
    { constructor; [intros [H|[]]; discriminate|].
      constructor; [intros []|constructor]. }
    split; [intros []|]. split; [exact Hnd|].
    destruct (replace_is_all_or_nothing NoFault hour cuttack
                [movie_b; movie_a] db_two) as (_ & _ & Hiff & Hnew).
    exact (proj1 (Hnew (proj2 Hiff (conj (fun H : False => H) Hnd)))).
Defined.

(** C3 on [db_two], stale by an hour, with a browser run that times out. *)
Lemma extraction_failure_fails_request_witness :
  holds_snapshot cuttack db_two /\
  cache_miss env_timeout req_cuttack db_two /\
  getMovies (tables := ascii_tables) env_timeout req_cuttack db_two
  = (db_two,
     StatusInternalServerError
       (str "Failed to scrape movies: context deadline exceeded"),
     [Extraction cuttack]).
Proof.
  split; [exists (row_of 0 cuttack movie_a); split; [now left|reflexivity]|].
  split; [reflexivity|].
  exact (proj1 (@extraction_failure_fails_request ascii_tables env_timeout
                  req_cuttack db_two timeout_error eq_refl eq_refl)).
Defined.

(** C10 on an empty table: what is written with the query "sinners". *)
Lemma query_does_not_affect_cache_witness :
  fst (fst (getMovies (tables := ascii_tables) (env_extract 0)
              {| req_city := None; req_query := Some (str "sinners") |} []))
  = [row_of 0 cuttack movie_a; row_of 0 cuttack movie_b].
Proof.
  exact (proj2 (proj2 (@query_does_not_affect_cache ascii_tables
                         (env_extract 0) None (Some (str "sinners")) None []))
           [link_a; link_b] eq_refl eq_refl eq_refl).
Defined.

Lemma samples_distinct : NoDup (map Href [movie_a; movie_b]).
Proof.
  constructor; [intros [H|[]]; discriminate|].
  constructor; [intros []|constructor].
Defined.

(** C5 (as amended): an extraction into an empty table, then a call an hour
    later; and two calls an hour after the snapshot of [db_two]. *)
Lemma repeated_call_served_from_cache_witness :
  (~ holds_fresh 0 cuttack [] /\
   snd (getMovies (tables := ascii_tables) (env_extract 0) req_cuttack [])
   = [Extraction cuttack; CacheWrite cuttack true] /\
   snd (getMovies (tables := ascii_tables) env_hit req_cuttack db_two) = []) /\
  (holds_fresh hour cuttack db_two /\
   snd (getMovies (tables := ascii_tables) env_hit req_cuttack db_two) = [] /\
   snd (getMovies (tables := ascii_tables) env_hit_second_first req_cuttack
          db_two) = []).
Proof.
  assert (~ holds_fresh 0 cuttack []) as Hempty
    by (intros (r & [] & _)).
  split.
  - split; [exact Hempty|].
    assert (exists links,
              env_run (env_extract 0) = RunOk links /\
              movies_of_links (tables := ascii_tables) links <> [] /\
              NoDup (map Href (movies_of_links (tables := ascii_tables)
                                 links)) /\
              ~ fault_strikes (env_save (env_extract 0))
                  (movies_of_links (tables := ascii_tables) links) /\
              env_now env_hit - env_tx_time (env_extract 0) < window) as Hrun.
    { exists [link_a; link_b]. split; [reflexivity|].
      split; [discriminate|]. split; [exact samples_distinct|].
      split; [intros []|reflexivity]. }
    destruct (@repeated_call_served_from_cache ascii_tables (env_extract 0)
                env_hit req_cuttack [] eq_refl eq_refl eq_refl
                ltac:(discriminate)
                (fun H => False_ind _ (Hempty H)) (fun _ => Hrun))
      as (_ & _ & Hfirst & Hsecond & _).
    split; [exact (Hfirst Hempty) | exact Hsecond].
  - split; [exact db_two_fresh_after_an_hour|].
    assert (forall r, In r db_two -> row_city r = cuttack ->
              hour - scraped_at r < window ->
              hour - scraped_at r < window) as Hstill by auto.
    destruct (@repeated_call_served_from_cache ascii_tables env_hit
                env_hit_second_first req_cuttack db_two eq_refl eq_refl
                eq_refl ltac:(discriminate)
                (fun _ => Hstill)
                (fun H => False_ind _ (H db_two_fresh_after_an_hour)))
      as (_ & Hfirst & _ & Hsecond & _).
    split; [exact (proj1 (Hfirst db_two_fresh_after_an_hour)) | exact Hsecond].
Defined.

(** C5 as stated fails.  A city whose page lists no movie is extracted at
    every call, however close the calls; when the commit of the first call
    fails, the second call, a microsecond later, extracts again and answers
    with what the page lists by then; so it does when the page lists one
    link twice, which makes the replace fail, and when the read of the
    second call fails; and after a first call that extracted and saved two
    entries, the second call serves them in the order in which the
    database produces the two rows of one time stamp, which need not be
    the order of the first response. *)
Lemma extraction_repeated_within_window :
  extractions
    (snd (getMovies (tables := ascii_tables) (env_no_listing 0) req_cuttack [])
     ++ snd (getMovies (tables := ascii_tables) (env_no_listing 1) req_cuttack
               (fst (fst (getMovies (tables := ascii_tables)
                            (env_no_listing 0) req_cuttack [])))))
  = 2%nat /\
  extractions
    (snd (getMovies (tables := ascii_tables)
            (env_commit_fails 0 [link_a; link_b]) req_cuttack [])
     ++ snd (getMovies (tables := ascii_tables)
               (env_commit_fails 1 [link_b]) req_cuttack
               (fst (fst (getMovies (tables := ascii_tables)
                            (env_commit_fails 0 [link_a; link_b])
                            req_cuttack [])))))
  = 2%nat /\
  snd (fst (getMovies (tables := ascii_tables)
              (env_commit_fails 0 [link_a; link_b]) req_cuttack []))
  = StatusOK cuttack [movie_a; movie_b] 2 /\
  snd (fst (getMovies (tables := ascii_tables)
              (env_commit_fails 1 [link_b]) req_cuttack
              (fst (fst (getMovies (tables := ascii_tables)
                           (env_commit_fails 0 [link_a; link_b])
                           req_cuttack [])))))
  = StatusOK cuttack [movie_b] 1 /\
  extractions
    (snd (getMovies (tables := ascii_tables) (env_listed_twice 0) req_cuttack
            [])
     ++ snd (getMovies (tables := ascii_tables) (env_listed_twice 1)
               req_cuttack
               (fst (fst (getMovies (tables := ascii_tables)
                            (env_listed_twice 0) req_cuttack [])))))
  = 2%nat /\
  extractions
    (snd (getMovies (tables := ascii_tables) (env_extract 0) req_cuttack [])
     ++ snd (getMovies (tables := ascii_tables) env_read_fails req_cuttack
               (fst (fst (getMovies (tables := ascii_tables) (env_extract 0)
                            req_cuttack [])))))
  = 2%nat /\
  getMovies (tables := ascii_tables) (env_extract 0) req_cuttack []
  = (db_two, StatusOK cuttack [movie_a; movie_b] 2,
     [Extraction cuttack; CacheWrite cuttack true]) /\
  getMovies (tables := ascii_tables) env_hit_second_first req_cuttack db_two
  = (db_two, StatusOK cuttack [movie_b; movie_a] 2, []).
Proof. vm_compute. repeat split. Qed.

(* ================================================================== *)
(** * Properties of the matcher: the scan of one title *)
(* ================================================================== *)

Section ScanFacts.
Context {tables : GoTables}.

Lemma equalFold_sym a b : Fuzzy.equalFold a b = Fuzzy.equalFold b a.
Proof.
  unfold Fuzzy.equalFold. rewrite (Z.eqb_sym b a).
  destruct (a =? b) eqn:E; auto. apply Z.eqb_neq in E.
  destruct (a <? b) eqn:Eab; destruct (b <? a) eqn:Eba; auto;
    apply Z.ltb_lt in Eab || apply Z.ltb_ge in Eab;
    apply Z.ltb_lt in Eba || apply Z.ltb_ge in Eba; lia.
Qed.

Lemma equalFold_nul c : c <> 0 -> Fuzzy.equalFold 0 c = false.
Proof.
  intros Hc. unfold Fuzzy.equalFold.
  destruct (0 =? c) eqn:E; [apply Z.eqb_eq in E; lia|].
  destruct (0 <? c) eqn:E0.
  - destruct (c <? 128); auto. apply unicode_foldOrbit_nul.
  - simpl. apply Z.ltb_ge in E0.
    destruct (65 <=? c) eqn:E1; auto. apply Z.leb_le in E1. lia.
Qed.

Lemma fold_subseq_app_r pattern s t :
  fold_subseq pattern s -> fold_subseq pattern (s ++ t).
Proof.
  induction 1; simpl; [constructor | now constructor | now constructor].
Qed.

Lemma fold_subseq_app_l pattern s t :
  fold_subseq pattern t -> fold_subseq pattern (s ++ t).
Proof. induction s; simpl; auto. intros. constructor. auto. Qed.

(** A subsequence is extended by a later rune that matches. *)
Lemma fold_subseq_snoc pattern p s t c :
  fold_subseq pattern s -> In c t -> Fuzzy.equalFold c p = true ->
  fold_subseq (pattern ++ [p]) (s ++ t).
Proof.
  intros Hsub Hin Hc. induction Hsub; simpl.
  - induction s as [|x s IH]; simpl.
    + induction t as [|y t IH]; [contradiction|].
      destruct Hin as [->|Hin].
      * constructor; [assumption|constructor].
      * constructor. auto.
    + constructor. assumption.
  - constructor. assumption.
  - constructor; assumption.
Qed.

Lemma firstn_succ_nth {A} (l : list A) k x :
  nth_error l k = Some x -> firstn (S k) l = firstn k l ++ [x].
Proof.
  revert k. induction l as [|y l IH]; intros [|k] H; simpl in *;
    try discriminate.
  - now injection H as ->.
  - f_equal. now apply IH.
Qed.

(** What [score_candidate] leaves alone, and when it records a position. *)
Lemma score_candidate_facts j c p st :
  let st1 := Fuzzy.score_candidate j c p st in
  Fuzzy.patternIndex st1 = Fuzzy.patternIndex st /\
  Fuzzy.matched st1 = Fuzzy.matched st /\
  Fuzzy.total st1 = Fuzzy.total st /\
  (-1 < Fuzzy.matchedIndex st1 ->
   -1 < Fuzzy.matchedIndex st \/ Fuzzy.equalFold c p = true).
Proof.
  unfold Fuzzy.score_candidate.
  destruct (Fuzzy.equalFold c p); [|simpl; auto].
  destruct (Fuzzy.last_elem (Fuzzy.matched st)); simpl;
    match goal with |- context [if ?b then _ else _] => destruct b end;
    simpl; auto.
Qed.

Lemma scan_step_inv runes pre c rest st j :
  nul_free (c :: rest) ->
  scan_inv runes pre (c :: rest) st ->
  exists st',
    Fuzzy.scan_step runes j c (Fuzzy.next_rune rest) st = Some st' /\
    scan_inv runes (pre ++ [c]) rest st'.
Proof.
  set (nc := Fuzzy.next_rune rest).
  intros Hnul (Hlen & Hbound & A & B & Hpre & Hsub & Hpend).
  assert (Fuzzy.patternIndex st < List.length runes)%nat as Hk
    by (apply Hbound; discriminate).
  destruct (nth_error runes (Fuzzy.patternIndex st)) as [p|] eqn:Hp;
    [|apply nth_error_None in Hp; lia].
  unfold Fuzzy.scan_step. rewrite Hp.
  destruct (score_candidate_facts j c p st) as (Hk1 & Hm1 & _ & Hmi1).
  set (st1 := Fuzzy.score_candidate j c p st) in *.
  (* a rune read since the last commit matches the current pattern rune *)
  assert (-1 < Fuzzy.matchedIndex st1 ->
          exists x, In x (B ++ [c]) /\ Fuzzy.equalFold x p = true) as Hfound.
  { intros Hmi. destruct (Hmi1 Hmi) as [Hold|Hnow].
    - destruct (Hpend Hold ltac:(discriminate)) as (p' & Hp' & [H|H]).
      + destruct H as (x & Hx & Hxp). exists x. split.
        * apply in_or_app. now left.
        * congruence.
      + destruct H as (x & s' & Hs & Hxp). injection Hs as <- <-.
        exists c. split; [apply in_or_app; right; now left | congruence].
    - exists c. split; [apply in_or_app; right; now left | assumption]. }
  unfold Fuzzy.commit. rewrite Hk1.
  set (nextPattern :=
         if (S (Fuzzy.patternIndex st) <? List.length runes)%nat
         then nth (S (Fuzzy.patternIndex st)) runes 0 else 0).
  destruct ((Fuzzy.equalFold nextPattern nc || (nc =? 0))
            && (-1 <? Fuzzy.matchedIndex st1)) eqn:Hcommit; simpl;
    (eexists; split; [reflexivity|]); unfold scan_inv;
    cbn [Fuzzy.matched Fuzzy.patternIndex Fuzzy.matchedIndex].
  - (* commit *)
    apply andb_true_iff in Hcommit as [Hlook Hmi].
    apply Z.ltb_lt in Hmi.
    destruct (Hfound Hmi) as (x & Hx & Hxp).
    assert (rest <> [] ->
            (S (Fuzzy.patternIndex st) < List.length runes)%nat /\
            Fuzzy.equalFold nextPattern nc = true) as Hnext.
    { intros Hrest. destruct rest as [|n rest']; [contradiction|].
      assert (n <> 0) as Hn
        by (intros ->; apply Hnul; right; now left).
      subst nc. simpl in Hlook. apply orb_true_iff in Hlook as [Hlook|Hz];
        [|apply Z.eqb_eq in Hz; contradiction].
      split; auto. subst nextPattern.
      destruct (S (Fuzzy.patternIndex st) <? List.length runes)%nat eqn:E.
      - now apply Nat.ltb_lt in E.
      - rewrite equalFold_nul in Hlook by assumption. discriminate. }
    split; [|split].
    + rewrite Hm1, length_app, Hlen. simpl. lia.
    + intros Hrest. apply Hnext. assumption.
    + exists (A ++ B ++ [c]), []. split; [|split].
      * rewrite Hpre, app_nil_r, <- app_assoc. reflexivity.
      * rewrite (firstn_succ_nth runes _ p Hp).
        now apply fold_subseq_snoc with (c := x).
      * intros _ Hrest. destruct (Hnext Hrest) as [Hlt Heq].
        exists nextPattern. split.
        -- subst nextPattern. apply Nat.ltb_lt in Hlt as Hlt'. rewrite Hlt'.
           now apply nth_error_nth'.
        -- right. destruct rest as [|n rest']; [contradiction|].
           exists n, rest'. split; auto. now rewrite equalFold_sym.
  - (* no commit *)
    split; [|split].
    + rewrite Hm1, Hk1. exact Hlen.
    + intros _. rewrite Hk1. exact Hk.
    + exists A, (B ++ [c]). split; [|split].
      * rewrite Hpre, <- app_assoc. reflexivity.
      * now rewrite Hk1.
      * intros Hmi _. rewrite Hk1. exists p. split; auto.
Qed.

Lemma scan_loop_inv runes : forall s pre st j,
  nul_free s ->
  scan_inv runes pre s st ->
  exists st',
    Fuzzy.scan_loop runes j s st = Some st' /\
    scan_inv runes (pre ++ s) [] st'.
Proof.
  induction s as [|c rest IH]; intros pre st j Hnul Hinv; simpl.
  - exists st. rewrite app_nil_r. auto.
  - destruct (scan_step_inv runes pre c rest st j Hnul Hinv)
      as (st1 & Hstep & Hinv1).
    rewrite Hstep.
    destruct (IH (pre ++ [c]) st1 (j + utf8_RuneLen c)) as (st' & Hloop & Hinv');
      auto.
    + intros H. apply Hnul. now right.
    + exists st'. split; auto. now rewrite <- app_assoc in Hinv'.
Qed.

(** The scan of a title without NUL returns, and when it has matched as
    many positions as the pattern has runes, the pattern occurs in the
    title. *)
Lemma scan_loop_sound runes s :
  runes <> [] -> nul_free s ->
  exists st,
    Fuzzy.scan_loop runes 0 s Fuzzy.scan_init = Some st /\
    (List.length (Fuzzy.matched st) = List.length runes ->
     fold_subseq runes s).
Proof.
  intros Hne Hnul.
  destruct (scan_loop_inv runes s [] Fuzzy.scan_init 0 Hnul) as (st & H & Hinv).
  - split; [reflexivity|]. split.
    + intros _. destruct runes; [contradiction|simpl; lia].
    + exists [], []. repeat split; [constructor|].
      simpl. intros; lia.
  - exists st. split; auto. intros Hall.
    destruct Hinv as (Hlen & _ & A & B & Hpre & Hsub & _).
    rewrite <- Hlen, Hall, firstn_all in Hsub. simpl in Hpre.
    rewrite Hpre. now apply fold_subseq_app_r.
Qed.

End ScanFacts.

(* ================================================================== *)
(** * Properties of the matcher: the loop over the titles *)
(* ================================================================== *)

Section FindFacts.
Context {tables : GoTables}.

Lemma match_one_spec runes i s :
  runes <> [] -> nul_free s ->
  (exists m,
     Fuzzy.match_one runes i s = Some (Some m) /\
     Fuzzy.Index m = i /\ Fuzzy.Str m = s /\
     fold_subseq runes s /\
     match_score runes s = Some (Fuzzy.Score m)) \/
  (Fuzzy.match_one runes i s = Some None /\ match_score runes s = None).
Proof.
  intros Hne Hnul. unfold match_score, Fuzzy.match_one.
  destruct (scan_loop_sound runes s Hne Hnul) as (st & -> & Hsound).
  destruct (List.length (Fuzzy.matched st) =? List.length runes)%nat eqn:E.
  - left. eexists. split; [reflexivity|]. simpl.
    apply Nat.eqb_eq in E. auto.
  - right. auto.
Qed.

Lemma find_loop_spec runes : runes <> [] -> forall data i,
  Forall nul_free data ->
  exists ms, Fuzzy.find_loop runes i data = Some ms /\
             found_from runes i data ms.
Proof.
  intros Hne. induction data as [|s data IH]; intros i Hnul; simpl.
  - exists []. split; auto. repeat split; try constructor.
    intros [|k] s H; discriminate.
  - inversion Hnul as [|? ? Hs Hdata]; subst.
    destruct (IH (S i) Hdata) as (ms & -> & Hall & Hsorted & Hcomplete).
    assert (Forall (fun m =>
              (i <= Fuzzy.Index m)%nat /\
              nth_error (s :: data) (Fuzzy.Index m - i) = Some (Fuzzy.Str m) /\
              fold_subseq runes (Fuzzy.Str m) /\
              match_score runes (Fuzzy.Str m) = Some (Fuzzy.Score m)) ms)
      as Hall'.
    { eapply Forall_impl; [|exact Hall]. intros m (Hi & Hnth & Hrest).
      split; [lia|]. split; auto.
      replace (Fuzzy.Index m - i)%nat with (S (Fuzzy.Index m - S i)) by lia.
      exact Hnth. }
    destruct (match_one_spec runes i s Hne Hs)
      as [(m & -> & Hi & Hstr & Hsub & Hscore) | [-> Hnone]].
    + exists (m :: ms). split; auto. split; [|split].
      * constructor; auto. rewrite Hi, Nat.sub_diag, Hstr. simpl. auto.
      * constructor; auto. eapply Forall_impl; [|exact Hall].
        intros x (Hx & _). simpl in Hx. lia.
      * intros [|k] s' Hk Hm; simpl in Hk.
        -- exists m. split; [now left | lia].
        -- destruct (Hcomplete k s' Hk Hm) as (x & Hx & Hxi).
           exists x. split; [now right | lia].
    + exists ms. split; auto. split; [|split]; auto.
      intros [|k] s' Hk Hm; simpl in Hk.
      * injection Hk as <-. contradiction.
      * destruct (Hcomplete k s' Hk Hm) as (x & Hx & Hxi).
        exists x. split; [assumption | lia].
Qed.

End FindFacts.

(* ================================================================== *)
(** * Properties of [sort.Stable] *)
(* ================================================================== *)

(** ** Slices: updates, swaps and what they leave in place *)

Section SliceFacts.
Context {A : Type} (less : A -> A -> bool) (dflt : A).

Local Open Scope nat_scope.

Local Notation "'get' d i" := (nth i d dflt)
  (at level 10, d at level 9, i at level 9).

Lemma upd_length i (x : A) d : List.length (GoSort.upd i x d) = List.length d.
Proof.
  revert i. induction d as [|y d IH]; intros [|i]; simpl; auto.
Qed.

Lemma get_upd i (x : A) d k :
  i < List.length d ->
  get (GoSort.upd i x d) k = if k =? i then x else get d k.
Proof.
  revert i k. induction d as [|y d IH]; intros i k Hi; simpl in *; [lia|].
  destruct i as [|i], k as [|k]; simpl; auto.
  apply IH. lia.
Qed.

Lemma upd_app_r (l1 l : list A) k x :
  GoSort.upd (List.length l1 + k) x (l1 ++ l) = l1 ++ GoSort.upd k x l.
Proof.
  induction l1 as [|y l1 IH]; simpl; auto.
  destruct l; simpl in *; now rewrite IH.
Qed.

Lemma nth_error_get d i : i < List.length d -> nth_error d i = Some (get d i).
Proof. intros. now apply nth_error_nth'. Qed.

Lemma Swap_length (d : list A) i j :
  List.length (GoSort.Swap d i j) = List.length d.
Proof.
  unfold GoSort.Swap.
  destruct (nth_error d i), (nth_error d j); auto.
  now rewrite !upd_length.
Qed.

Lemma get_Swap d i j k :
  i < List.length d -> j < List.length d ->
  get (GoSort.Swap d i j) k =
    if k =? j then get d i else if k =? i then get d j else get d k.
Proof.
  intros Hi Hj. unfold GoSort.Swap.
  rewrite (nth_error_get d i Hi), (nth_error_get d j Hj).
  rewrite get_upd by (now rewrite upd_length).
  destruct (k =? j); auto. now apply get_upd.
Qed.

Lemma Less_get d i j :
  i < List.length d -> j < List.length d ->
  GoSort.Less less d i j = less (get d i) (get d j).
Proof.
  intros Hi Hj. unfold GoSort.Less.
  now rewrite (nth_error_get d i Hi), (nth_error_get d j Hj).
Qed.

Lemma Swap_split (l1 l2 l3 : list A) x y :
  GoSort.Swap (l1 ++ x :: l2 ++ y :: l3) (List.length l1)
    (List.length l1 + S (List.length l2))
  = l1 ++ y :: l2 ++ x :: l3 /\
  GoSort.Swap (l1 ++ x :: l2 ++ y :: l3)
    (List.length l1 + S (List.length l2)) (List.length l1)
  = l1 ++ y :: l2 ++ x :: l3.
Proof.
  assert (nth_error (l1 ++ x :: l2 ++ y :: l3) (List.length l1) = Some x)
    as Hx by (now rewrite nth_error_app2, Nat.sub_diag by lia).
  assert (nth_error (l1 ++ x :: l2 ++ y :: l3)
            (List.length l1 + S (List.length l2)) = Some y) as Hy.
  { rewrite nth_error_app2 by lia.
    replace (List.length l1 + S (List.length l2) - List.length l1)
      with (S (List.length l2)) by lia.
    simpl. now rewrite nth_error_app2, Nat.sub_diag by lia. }
  assert (forall (l : list A) a b c,
            GoSort.upd (S (List.length l)) a (b :: l ++ c :: l3)
            = b :: l ++ a :: l3) as Hup.
  { intros l a b c. simpl. f_equal.
    rewrite <- (Nat.add_0_r (List.length l)). now rewrite upd_app_r. }
  unfold GoSort.Swap. rewrite Hx, Hy. split.
  - rewrite <- (Nat.add_0_r (List.length l1)) at 2. rewrite upd_app_r. simpl.
    rewrite upd_app_r. now rewrite Hup.
  - rewrite upd_app_r, Hup.
    rewrite <- (Nat.add_0_r (List.length l1)) at 1. now rewrite upd_app_r.
Qed.

Lemma Swap_same (d : list A) i : GoSort.Swap d i i = d.
Proof.
  unfold GoSort.Swap. destruct (nth_error d i) as [x|] eqn:E; auto.
  apply nth_error_split in E as (l1 & l2 & -> & <-).
  rewrite <- (Nat.add_0_r (List.length l1)). now rewrite !upd_app_r.
Qed.

(** A swap permutes the slice, whatever the indices. *)
Lemma Swap_perm (d : list A) i j : Permutation (GoSort.Swap d i j) d.
Proof.
  assert (forall i j, i < j -> Permutation (GoSort.Swap d i j) d /\
                               Permutation (GoSort.Swap d j i) d) as H.
  { clear i j. intros i j Hij.
    destruct (nth_error d j) as [y|] eqn:Ej.
    - assert (i < List.length d) as Hi
        by (assert (nth_error d j <> None) as Hj by congruence;
            apply nth_error_Some in Hj; lia).
      destruct (nth_error d i) as [x|] eqn:Ei;
        [|apply nth_error_None in Ei; lia].
      apply nth_error_split in Ei as (l1 & l' & -> & <-).
      rewrite nth_error_app2 in Ej by lia.
      destruct (j - List.length l1) as [|k] eqn:Ek; [lia|]. simpl in Ej.
      apply nth_error_split in Ej as (l2 & l3 & -> & Hk).
      replace j with (List.length l1 + S (List.length l2)) by lia.
      destruct (Swap_split l1 l2 l3 x y) as [-> ->].
      assert (Permutation (l1 ++ y :: l2 ++ x :: l3)
                (l1 ++ x :: l2 ++ y :: l3)) as Hp.
      { apply Permutation_app_head.
        change (Permutation ((y :: l2) ++ x :: l3) ((x :: l2) ++ y :: l3)).
        eapply perm_trans; [apply Permutation_sym, Permutation_middle|].
        eapply perm_trans; [|apply Permutation_middle]. simpl.
        eapply perm_trans; [apply perm_swap|]. do 2 apply perm_skip.
        apply Permutation_refl. }
      split; exact Hp.
    - unfold GoSort.Swap. rewrite Ej.
      destruct (nth_error d i); split; apply Permutation_refl. }
  destruct (Nat.lt_trichotomy i j) as [Hlt|[->|Hgt]].
  - exact (proj1 (H i j Hlt)).
  - rewrite Swap_same. apply Permutation_refl.
  - exact (proj2 (H j i Hgt)).
Qed.

Lemma within_refl d a b : within dflt d d a b.
Proof. repeat split; auto. intros k Hk. exists k. auto. Qed.

Lemma within_trans d1 d2 d3 a b :
  within dflt d3 d2 a b -> within dflt d2 d1 a b -> within dflt d3 d1 a b.
Proof.
  intros (L32 & F32 & M32) (L21 & F21 & M21). split; [congruence|]. split.
  - intros k Hk. rewrite F32, F21; auto.
  - intros k Hk. destruct (M32 k Hk) as (k' & Hk' & ->).
    destruct (M21 k' Hk') as (k'' & Hk'' & ->). eauto.
Qed.

Lemma within_weaken d' d a b a' b' :
  a' <= a -> b <= b' -> within dflt d' d a b -> within dflt d' d a' b'.
Proof.
  intros Ha Hb (L & F & M). split; [exact L|]. split.
  - intros k Hk. apply F. lia.
  - intros k Hk. destruct (Nat.lt_ge_cases k a) as [H1|H1].
    + exists k. split; [lia | apply F; lia].
    + destruct (Nat.lt_ge_cases k b) as [H2|H2].
      * destruct (M k (conj H1 H2)) as (k' & Hk' & E). exists k'.
        split; [lia | exact E].
      * exists k. split; [lia | apply F; lia].
Qed.

Lemma within_Swap d a b i j :
  a <= i < b -> a <= j < b -> b <= List.length d ->
  within dflt (GoSort.Swap d i j) d a b.
Proof.
  intros Hi Hj Hb. split; [apply Swap_length|]. split.
  - intros k Hk. rewrite get_Swap by lia.
    destruct (k =? j) eqn:E1; [apply Nat.eqb_eq in E1; lia|].
    destruct (k =? i) eqn:E2; [apply Nat.eqb_eq in E2; lia|]. reflexivity.
  - intros k Hk. rewrite get_Swap by lia.
    destruct (k =? j); [eauto|]. destruct (k =? i); eauto.
Qed.

End SliceFacts.

(** ** What [sort.Stable] needs of the comparison, and insertion sort *)

Section SortedFacts.
Context {A : Type} (less : A -> A -> bool) (dflt : A).

(** The order that the result is sorted by: a strict order. *)
Context (before : A -> A -> Prop).
Hypothesis before_trans : forall x y z, before x y -> before y z -> before x z.
Hypothesis before_irrefl : forall x, ~ before x x.

Local Open Scope nat_scope.

Local Notation "'get' d i" := (nth i d dflt)
  (at level 10, d at level 9, i at level 9).

Lemma sorted_range_ext d d' a b :
  (forall k, a <= k < b -> get d' k = get d k) ->
  sorted_range dflt before d a b -> sorted_range dflt before d' a b.
Proof.
  intros E H i j Hi Hij Hj. rewrite !E by lia. now apply H.
Qed.

Lemma sorted_range_sub d a b a' b' :
  a <= a' -> b' <= b -> sorted_range dflt before d a b -> sorted_range dflt before d a' b'.
Proof. intros Ha Hb H i j Hi Hij Hj. apply H; lia. Qed.

Lemma before_asym x y : before x y -> before y x -> False.
Proof. intros H1 H2. apply (before_irrefl x). eauto. Qed.

(** The inner loop of insertion sort puts [d[j]] in its place. *)
Lemma insert_down_spec a : forall j d,
  a <= j < List.length d ->
  sorted_range dflt before d a j ->
  (forall i, a <= i < j -> coherent less before (get d i) (get d j)) ->
  sorted_range dflt before (GoSort.insert_down less d a j) a (S j) /\
  within dflt (GoSort.insert_down less d a j) d a (S j).
Proof.
  induction j as [|j IH]; intros d Hj Hsorted Hcoh; simpl.
  - split; [|apply within_refl]. intros i k Hi Hik Hk. lia.
  - destruct ((a <? S j) && GoSort.Less less d (S j) j) eqn:Hcond.
    + apply andb_true_iff in Hcond as [Ha Hless].
      apply Nat.ltb_lt in Ha. rewrite (Less_get less dflt) in Hless by lia.
      assert (before (get d (S j)) (get d j)) as Hbefore
        by (apply (Hcoh j); [lia | assumption]).
      set (d1 := GoSort.Swap d (S j) j).
      assert (forall k, get d1 k =
                if k =? j then get d (S j)
                else if k =? S j then get d j else get d k) as Hd1
        by (intros k; apply get_Swap; lia).
      assert (List.length d1 = List.length d) as Hlen
        by apply Swap_length.
      destruct (IH d1) as [Hs1 Hw1].
      * lia.
      * intros i k Hi Hik Hk. rewrite !Hd1.
        destruct (i =? j) eqn:E1; [apply Nat.eqb_eq in E1; lia|].
        destruct (k =? j) eqn:E2; [apply Nat.eqb_eq in E2; lia|].
        destruct (i =? S j) eqn:E3; [apply Nat.eqb_eq in E3; lia|].
        destruct (k =? S j) eqn:E4; [apply Nat.eqb_eq in E4; lia|].
        apply Hsorted; lia.
      * intros i Hi. rewrite !Hd1, Nat.eqb_refl.
        destruct (i =? j) eqn:E1; [apply Nat.eqb_eq in E1; lia|].
        destruct (i =? S j) eqn:E3; [apply Nat.eqb_eq in E3; lia|].
        apply Hcoh. lia.
      * split.
        -- intros i k Hi Hik Hk.
           destruct (Nat.eq_dec k (S j)) as [->|Hne];
             [|apply Hs1; lia].
           destruct Hw1 as (_ & Hframe & Hmoved).
           rewrite (Hframe (S j)) by lia.
           destruct (Hmoved i ltac:(lia)) as (i' & Hi' & ->).
           rewrite !Hd1, Nat.eqb_refl.
           replace (S j =? j) with false by (symmetry; apply Nat.eqb_neq; lia).
           destruct (i' =? j) eqn:E1; [assumption|].
           apply Nat.eqb_neq in E1.
           destruct (i' =? S j) eqn:E3; [apply Nat.eqb_eq in E3; lia|].
           apply Hsorted; lia.
        -- eapply within_trans.
           ++ eapply within_weaken; [| |exact Hw1]; lia.
           ++ apply within_Swap; lia.
    + split; [|apply within_refl].
      intros i k Hi Hik Hk.
      destruct (Nat.eq_dec k (S j)) as [->|Hne]; [|apply Hsorted; lia].
      apply andb_false_iff in Hcond as [Ha|Hless].
      * apply Nat.ltb_ge in Ha. lia.
      * rewrite (Less_get less dflt) in Hless by lia.
        assert (before (get d j) (get d (S j))) as Hlast
          by (apply (Hcoh j); [lia | assumption]).
        destruct (Nat.eq_dec i j) as [->|Hij]; [assumption|].
        apply before_trans with (get d j); [apply Hsorted; lia | assumption].
Qed.

(** Insertion sort of [d[a:b]], given that its elements are coherent in
    the order in which they stand. *)
Lemma insertionSort_spec d a b :
  b <= List.length d ->
  (forall i j, a <= i -> i < j -> j < b -> coherent less before (get d i) (get d j)) ->
  sorted_range dflt before (GoSort.insertionSort less d a b) a b /\
  within dflt (GoSort.insertionSort less d a b) d a b.
Proof.
  intros Hb Hcoh. unfold GoSort.insertionSort.
  assert (forall n i d1,
            a < i -> i + n <= Nat.max b (a + 1) ->
            sorted_range dflt before d1 a i -> within dflt d1 d a i ->
            let d' := fold_left (fun d i => GoSort.insert_down less d a i)
                        (seq i n) d1 in
            sorted_range dflt before d' a (i + n) /\ within dflt d' d a (i + n)) as Hloop.
  { induction n as [|n IH]; intros i d1 Hi Hin Hs Hw; simpl.
    - rewrite Nat.add_0_r. auto.
    - destruct Hw as (Hlen & Hframe & Hmoved).
      destruct (insert_down_spec a i d1) as [Hs2 Hw2].
      + lia.
      + assumption.
      + intros k Hk. destruct (Hmoved k Hk) as (k' & Hk' & ->).
        rewrite (Hframe i) by lia. apply Hcoh; lia.
      + replace (i + S n) with (S i + n) by lia. apply IH; auto; try lia.
        eapply within_trans; [exact Hw2|].
        apply within_weaken with (a := a) (b := i); try lia.
        repeat split; assumption. }
  destruct (Nat.le_gt_cases b (a + 1)) as [Hsmall|Hbig].
  - replace (b - (a + 1)) with 0 by lia. simpl.
    split; [|apply within_refl]. intros i j Hi Hij Hj. lia.
  - specialize (Hloop (b - (a + 1)) (a + 1) d).
    replace (a + 1 + (b - (a + 1))) with b in Hloop by lia.
    apply Hloop; try lia.
    + intros i j Hi Hij Hj. lia.
    + apply within_refl.
Qed.

End SortedFacts.

(** ** The loops of [symMerge]: binary search, shifts, block exchange *)

Section MoveFacts.
Context {A : Type} (dflt : A).

Local Open Scope nat_scope.

Local Notation "'get' d i" := (nth i d dflt)
  (at level 10, d at level 9, i at level 9).

(** On a predicate that holds on a prefix of [i, j) and fails after it, the
    binary search returns where it starts to fail. *)
Lemma bsearch_spec (P : nat -> bool) : forall fuel i j,
  i <= j -> j - i <= fuel ->
  (forall h k, i <= h -> h <= k -> k < j -> P k = true -> P h = true) ->
  i <= GoSort.bsearch fuel P i j <= j /\
  (forall h, i <= h < GoSort.bsearch fuel P i j -> P h = true) /\
  (forall h, GoSort.bsearch fuel P i j <= h < j -> P h = false).
Proof.
  induction fuel as [|fuel IH]; intros i j Hij Hfuel Hmono;
    cbn [GoSort.bsearch].
  - split; [lia|]. split; intros h Hh; lia.
  - destruct (i <? j) eqn:E.
    + apply Nat.ltb_lt in E.
      assert (i <= (i + j) / 2 < j) as Hh.
      { split; [apply Nat.div_le_lower_bound | apply Nat.Div0.div_lt_upper_bound];
          lia. }
      destruct (P ((i + j) / 2)) eqn:EP.
      * destruct (IH ((i + j) / 2 + 1) j) as (Hr & Ht & Hf); try lia.
        { intros h k H1 H2 H3. apply Hmono; lia. }
        split; [lia|]. split; [|intros h Hh'; apply Hf; lia].
        intros h Hh'. destruct (Nat.le_gt_cases h ((i + j) / 2)) as [H1|H1].
        -- apply (Hmono h ((i + j) / 2)); auto; lia.
        -- apply Ht. lia.
      * destruct (IH i ((i + j) / 2)) as (Hr & Ht & Hf); try lia.
        { intros h k H1 H2 H3. apply Hmono; lia. }
        split; [lia|]. split; [intros h Hh'; apply Ht; lia|].
        intros h Hh'. destruct (Nat.le_gt_cases ((i + j) / 2) h) as [H1|H1].
        -- destruct (P h) eqn:EPh; auto.
           rewrite (Hmono ((i + j) / 2) h) in EP; auto; lia.
        -- apply Hf. lia.
    + apply Nat.ltb_ge in E. split; [lia|]. split; intros h Hh; lia.
Qed.

(** [shift_up] carries [d[a]] to position [i - 1]. *)
Lemma shift_up_spec : forall n a i (d : list A),
  i - 1 - a = n -> i <= List.length d ->
  List.length (GoSort.shift_up d a i) = List.length d /\
  (forall k, a <= k < i - 1 -> get (GoSort.shift_up d a i) k = get d (k + 1)) /\
  (a < i -> get (GoSort.shift_up d a i) (i - 1) = get d a) /\
  (forall k, k < a \/ i <= k -> get (GoSort.shift_up d a i) k = get d k).
Proof.
  unfold GoSort.shift_up.
  induction n as [|n IH]; intros a i d Hn Hi; rewrite Hn; simpl.
  - repeat split; auto; intros; try lia. f_equal. lia.
  - assert (forall k, get (GoSort.Swap d a (a + 1)) k =
              if k =? a + 1 then get d a
              else if k =? a then get d (a + 1) else get d k) as Hd1
      by (intros k; apply get_Swap; lia).
    specialize (IH (S a) i (GoSort.Swap d a (a + 1))).
    replace (i - 1 - S a) with n in IH by lia.
    rewrite Swap_length in IH.
    destruct IH as (Hlen & Hmove & Hlast & Hframe); try lia.
    split; [assumption|]. split; [|split].
    + intros k Hk. destruct (Nat.eq_dec k a) as [->|Hne].
      * rewrite Hframe by lia. rewrite Hd1.
        replace (a =? a + 1) with false by (symmetry; apply Nat.eqb_neq; lia).
        now rewrite Nat.eqb_refl.
      * rewrite Hmove by lia. rewrite Hd1.
        replace (k + 1 =? a + 1) with false
          by (symmetry; apply Nat.eqb_neq; lia).
        replace (k + 1 =? a) with false by (symmetry; apply Nat.eqb_neq; lia).
        reflexivity.
    + intros _. rewrite Hlast by lia. rewrite Hd1.
      replace (S a) with (a + 1) by lia. now rewrite Nat.eqb_refl.
    + intros k Hk. rewrite Hframe by lia. rewrite Hd1.
      replace (k =? a + 1) with false by (symmetry; apply Nat.eqb_neq; lia).
      replace (k =? a) with false by (symmetry; apply Nat.eqb_neq; lia).
      reflexivity.
Qed.

(** [shift_down] carries [d[m]] to position [i]. *)
Lemma shift_down_spec : forall n m i (d : list A),
  m = i + n -> m < List.length d ->
  List.length (GoSort.shift_down d m i) = List.length d /\
  get (GoSort.shift_down d m i) i = get d m /\
  (forall k, i < k <= m -> get (GoSort.shift_down d m i) k = get d (k - 1)) /\
  (forall k, k < i \/ m < k -> get (GoSort.shift_down d m i) k = get d k).
Proof.
  unfold GoSort.shift_down.
  induction n as [|n IH]; intros m i d Hm Hlen.
  - replace (m - i) with 0 by lia. simpl. subst m. rewrite Nat.add_0_r.
    repeat split; auto. intros; lia.
  - replace (m - i) with (S n) by lia.
    rewrite seq_S, rev_app_distr. simpl.
    replace (i + 1 + n) with m by lia.
    assert (forall k, get (GoSort.Swap d m (m - 1)) k =
              if k =? m - 1 then get d m
              else if k =? m then get d (m - 1) else get d k) as Hd1
      by (intros k; apply get_Swap; lia).
    specialize (IH (m - 1) i (GoSort.Swap d m (m - 1))).
    replace (m - 1 - i) with n in IH by lia.
    rewrite Swap_length in IH.
    destruct IH as (Hl & Hfirst & Hmove & Hframe); try lia.
    split; [assumption|]. split; [|split].
    + rewrite Hfirst, Hd1. now rewrite Nat.eqb_refl.
    + intros k Hk. destruct (Nat.eq_dec k m) as [->|Hne].
      * rewrite Hframe by lia. rewrite Hd1, Nat.eqb_refl.
        replace (m =? m - 1) with false by (symmetry; apply Nat.eqb_neq; lia).
        reflexivity.
      * rewrite Hmove by lia. rewrite Hd1.
        replace (k - 1 =? m - 1) with false
          by (symmetry; apply Nat.eqb_neq; lia).
        replace (k - 1 =? m) with false by (symmetry; apply Nat.eqb_neq; lia).
        reflexivity.
    + intros k Hk. rewrite Hframe by lia. rewrite Hd1.
      replace (k =? m - 1) with false by (symmetry; apply Nat.eqb_neq; lia).
      replace (k =? m) with false by (symmetry; apply Nat.eqb_neq; lia).
      reflexivity.
Qed.

(** [swapRange] exchanges two blocks of [n] elements that do not overlap. *)
Lemma swapRange_spec : forall n a b (d : list A),
  a + n <= b -> b + n <= List.length d ->
  List.length (GoSort.swapRange d a b n) = List.length d /\
  (forall k, a <= k < a + n ->
             get (GoSort.swapRange d a b n) k = get d (k + (b - a))) /\
  (forall k, b <= k < b + n ->
             get (GoSort.swapRange d a b n) k = get d (k - (b - a))) /\
  (forall k, k < a \/ a + n <= k < b \/ b + n <= k ->
             get (GoSort.swapRange d a b n) k = get d k).
Proof.
  unfold GoSort.swapRange.
  induction n as [|n IH]; intros a b d Hab Hb.
  - simpl. repeat split; auto; intros; lia.
  - rewrite seq_S, fold_left_app. simpl.
    destruct (IH a b d) as (Hlen & H1 & H2 & H3); try lia.
    set (d1 := fold_left (fun d i => GoSort.Swap d (a + i) (b + i)) (seq 0 n) d)
      in *.
    assert (forall k, get (GoSort.Swap d1 (a + n) (b + n)) k =
              if k =? b + n then get d1 (a + n)
              else if k =? a + n then get d1 (b + n) else get d1 k) as Hd2
      by (intros k; apply get_Swap; lia).
    rewrite Swap_length. split; [assumption|]. split; [|split].
    + intros k Hk. rewrite Hd2.
      replace (k =? b + n) with false by (symmetry; apply Nat.eqb_neq; lia).
      destruct (k =? a + n) eqn:E.
      * apply Nat.eqb_eq in E. subst k. rewrite H3 by lia. f_equal. lia.
      * apply Nat.eqb_neq in E. apply H1. lia.
    + intros k Hk. rewrite Hd2.
      destruct (k =? b + n) eqn:E.
      * apply Nat.eqb_eq in E. subst k. rewrite H3 by lia. f_equal. lia.
      * apply Nat.eqb_neq in E.
        replace (k =? a + n) with false by (symmetry; apply Nat.eqb_neq; lia).
        apply H2. lia.
    + intros k Hk. rewrite Hd2.
      replace (k =? b + n) with false by (symmetry; apply Nat.eqb_neq; lia).
      replace (k =? a + n) with false by (symmetry; apply Nat.eqb_neq; lia).
      apply H3. lia.
Qed.

(** The loop of [rotate] with its closing [swapRange]: the block of [i]
    elements before [m] and the block of [j] elements from [m] on change
    places. *)
Lemma rotate_loop_spec : forall fuel (d : list A) m i j,
  i + j <= fuel -> 0 < i -> 0 < j -> i <= m -> m + j <= List.length d ->
  let out := GoSort.rotate_loop fuel d m i j in
  let d' := GoSort.swapRange (fst out) (m - snd out) m (snd out) in
  List.length d' = List.length d /\
  (forall k, m - i <= k < m - i + j -> get d' k = get d (k + i)) /\
  (forall k, m - i + j <= k < m + j -> get d' k = get d (k - j)) /\
  (forall k, k < m - i \/ m + j <= k -> get d' k = get d k).
Proof.
  induction fuel as [|fuel IH]; intros d m i j Hfuel Hi Hj Him Hlen;
    [lia|]. simpl.
  destruct (i =? j) eqn:Eij.
  - apply Nat.eqb_eq in Eij. subst j. simpl.
    destruct (swapRange_spec i (m - i) m d) as (HL & H1 & H2 & H3); try lia.
    split; [assumption|]. split; [|split].
    + intros k Hk. rewrite H1 by lia. f_equal. lia.
    + intros k Hk. rewrite H2 by lia. f_equal. lia.
    + intros k Hk. apply H3. lia.
  - apply Nat.eqb_neq in Eij. destruct (j <? i) eqn:Eji.
    + apply Nat.ltb_lt in Eji.
      destruct (swapRange_spec j (m - i) m d) as (HL & H1 & H2 & H3);
        try lia.
      set (d1 := GoSort.swapRange d (m - i) m j) in *.
      destruct (IH d1 m (i - j) j) as (HL' & R1 & R2 & R3); try lia.
      cbv zeta in *.
      split; [congruence|]. split; [|split].
      * intros k Hk. rewrite R3 by lia. rewrite H1 by lia. f_equal. lia.
      * intros k Hk.
        destruct (Nat.lt_ge_cases k (m - (i - j) + j)) as [Hlo|Hhi].
        -- rewrite R1 by lia. rewrite H2 by lia. f_equal. lia.
        -- rewrite R2 by lia. rewrite H3 by lia. reflexivity.
      * intros k Hk. rewrite R3 by lia. apply H3. lia.
    + apply Nat.ltb_ge in Eji.
      destruct (swapRange_spec i (m - i) (m + j - i) d)
        as (HL & H1 & H2 & H3); try lia.
      set (d1 := GoSort.swapRange d (m - i) (m + j - i) i) in *.
      destruct (IH d1 m i (j - i)) as (HL' & R1 & R2 & R3); try lia.
      cbv zeta in *.
      split; [congruence|]. split; [|split].
      * intros k Hk.
        destruct (Nat.lt_ge_cases k (m - i + (j - i))) as [Hlo|Hhi].
        -- rewrite R1 by lia. rewrite H3 by lia. reflexivity.
        -- rewrite R2 by lia. rewrite H1 by lia. f_equal. lia.
      * intros k Hk. rewrite R3 by lia. rewrite H2 by lia. f_equal. lia.
      * intros k Hk. rewrite R3 by lia. apply H3. lia.
Qed.

(** [rotate(data, a, m, b)]. *)
Lemma rotate_spec (d : list A) a m b :
  a < m -> m < b -> b <= List.length d ->
  List.length (GoSort.rotate d a m b) = List.length d /\
  (forall k, a <= k < a + (b - m) ->
             get (GoSort.rotate d a m b) k = get d (k + (m - a))) /\
  (forall k, a + (b - m) <= k < b ->
             get (GoSort.rotate d a m b) k = get d (k - (b - m))) /\
  (forall k, k < a \/ b <= k -> get (GoSort.rotate d a m b) k = get d k).
Proof.
  intros Ham Hmb Hb. unfold GoSort.rotate.
  destruct (rotate_loop_spec (m - a + (b - m)) d m (m - a) (b - m))
    as (HL & H1 & H2 & H3); try lia.
  cbv zeta in *.
  destruct (GoSort.rotate_loop (m - a + (b - m)) d m (m - a) (b - m))
    as [d1 i1]. simpl in *.
  split; [assumption|]. split; [|split].
  - intros k Hk. apply H1. lia.
  - intros k Hk. apply H2. lia.
  - intros k Hk. apply H3. lia.
Qed.

End MoveFacts.

(** ** [symMerge] merges two sorted runs *)

Section MergeFacts.
Context {A : Type} (less : A -> A -> bool) (dflt : A).
Context (before : A -> A -> Prop).
Hypothesis before_trans : forall x y z, before x y -> before y z -> before x z.
Hypothesis before_irrefl : forall x, ~ before x x.

Local Open Scope nat_scope.

Local Notation "'get' d i" := (nth i d dflt)
  (at level 10, d at level 9, i at level 9).
Local Abbreviation sorted := (sorted_range dflt before).
Local Abbreviation crossed := (cross less dflt before).

Lemma sorted_le_l d a b i j z :
  sorted d a b -> a <= i -> i <= j -> j < b ->
  before (get d j) z -> before (get d i) z.
Proof.
  intros Hs Ha Hij Hj Hz. destruct (Nat.eq_dec i j) as [->|Hne]; auto.
  apply before_trans with (get d j); auto. apply Hs; lia.
Qed.

Lemma sorted_le_r d a b i j z :
  sorted d a b -> a <= i -> i <= j -> j < b ->
  before z (get d i) -> before z (get d j).
Proof.
  intros Hs Ha Hij Hj Hz. destruct (Nat.eq_dec i j) as [->|Hne]; auto.
  apply before_trans with (get d i); auto. apply Hs; lia.
Qed.

(** The first special case of [symMerge]: the left run is [d[a]] alone. *)
Lemma symMerge_single_left d a m b :
  m - a = 1 -> m < b -> b <= List.length d ->
  sorted d m b -> crossed d a m b ->
  let i := GoSort.bsearch (b - m) (fun h => GoSort.Less less d h a) m b in
  sorted (GoSort.shift_up d a i) a b /\
  within dflt (GoSort.shift_up d a i) d a b.
Proof.
  intros Ha Hmb Hb HV Hcross. cbv zeta.
  destruct (bsearch_spec (fun h => GoSort.Less less d h a) (b - m) m b)
    as (Hi & Htrue & Hfalse); try lia.
  { intros h k Hh Hhk Hk Pk. rewrite (Less_get less dflt) in * by lia.
    destruct (less (get d h) (get d a)) eqn:E; auto. exfalso.
    apply (Hcross a h) in E; try lia. apply (Hcross a k) in Pk; try lia.
    apply (before_asym before before_trans before_irrefl _ _ E).
    apply (sorted_le_l d m b h k); auto. }
  set (i := GoSort.bsearch (b - m) (fun h => GoSort.Less less d h a) m b) in *.
  assert (forall h, m <= h < i -> before (get d h) (get d a)) as Hleft.
  { intros h Hh. specialize (Htrue h Hh). cbv beta in Htrue.
    rewrite (Less_get less dflt) in Htrue by lia.
    apply (Hcross a h); auto; lia. }
  assert (forall h, i <= h < b -> before (get d a) (get d h)) as Hright.
  { intros h Hh. specialize (Hfalse h Hh). cbv beta in Hfalse.
    rewrite (Less_get less dflt) in Hfalse by lia.
    apply (Hcross a h); auto; lia. }
  destruct (shift_up_spec dflt (i - 1 - a) a i d) as (HL & Hmove & Hlast & Hframe);
    try lia.
  specialize (Hlast ltac:(lia)).
  split.
  - intros x y Hx Hxy Hy.
    destruct (Nat.lt_trichotomy y (i - 1)) as [Hlt|[->|Hgt]].
    + rewrite !Hmove by lia. apply HV; lia.
    + rewrite Hlast, Hmove by lia. apply Hleft. lia.
    + rewrite (Hframe y) by lia.
      destruct (Nat.lt_trichotomy x (i - 1)) as [Hlt'|[->|Hgt']].
      * rewrite Hmove by lia. apply HV; lia.
      * rewrite Hlast. apply Hright. lia.
      * rewrite Hframe by lia. apply HV; lia.
  - split; [assumption|]. split.
    + intros k Hk. apply Hframe. lia.
    + intros k Hk. destruct (Nat.lt_trichotomy k (i - 1)) as [Hlt|[->|Hgt]].
      * exists (k + 1). split; [lia | apply Hmove; lia].
      * exists a. split; [lia | assumption].
      * exists k. split; [lia | apply Hframe; lia].
Qed.

(** The second special case: the right run is [d[m]] alone. *)
Lemma symMerge_single_right d a m b :
  a < m -> b - m = 1 -> b <= List.length d ->
  sorted d a m -> crossed d a m b ->
  let i := GoSort.bsearch (m - a)
             (fun h => negb (GoSort.Less less d m h)) a m in
  sorted (GoSort.shift_down d m i) a b /\
  within dflt (GoSort.shift_down d m i) d a b.
Proof.
  intros Ham Hmb Hb HU Hcross. cbv zeta.
  destruct (bsearch_spec (fun h => negb (GoSort.Less less d m h)) (m - a) a m)
    as (Hi & Htrue & Hfalse); try lia.
  { intros h k Hh Hhk Hk Pk. rewrite (Less_get less dflt) in * by lia.
    apply negb_true_iff in Pk. apply negb_true_iff.
    destruct (less (get d m) (get d h)) eqn:E; auto. exfalso.
    apply (Hcross h m) in E; try lia. apply (Hcross k m) in Pk; try lia.
    apply (before_asym before before_trans before_irrefl _ _ E).
    apply (sorted_le_l d a m h k); auto. }
  set (i := GoSort.bsearch (m - a)
              (fun h => negb (GoSort.Less less d m h)) a m) in *.
  assert (forall h, a <= h < i -> before (get d h) (get d m)) as Hleft.
  { intros h Hh. specialize (Htrue h Hh). cbv beta in Htrue.
    rewrite (Less_get less dflt) in Htrue by lia.
    apply negb_true_iff in Htrue. apply (Hcross h m); auto; lia. }
  assert (forall h, i <= h < m -> before (get d m) (get d h)) as Hright.
  { intros h Hh. specialize (Hfalse h Hh). cbv beta in Hfalse.
    rewrite (Less_get less dflt) in Hfalse by lia.
    apply negb_false_iff in Hfalse. apply (Hcross h m); auto; lia. }
  destruct (shift_down_spec dflt (m - i) m i d) as (HL & Hfirst & Hmove & Hframe);
    try lia.
  split.
  - intros x y Hx Hxy Hy.
    destruct (Nat.lt_trichotomy y i) as [Hlt|[->|Hgt]].
    + rewrite !Hframe by lia. apply HU; lia.
    + rewrite Hfirst, Hframe by lia. apply Hleft. lia.
    + rewrite (Hmove y) by lia.
      destruct (Nat.lt_trichotomy x i) as [Hlt'|[->|Hgt']].
      * rewrite Hframe by lia. apply HU; lia.
      * rewrite Hfirst. apply Hright. lia.
      * rewrite Hmove by lia. apply HU; lia.
  - split; [assumption|]. split.
    + intros k Hk. apply Hframe. lia.
    + intros k Hk. destruct (Nat.lt_trichotomy k i) as [Hlt|[->|Hgt]].
      * exists k. split; [lia | apply Hframe; lia].
      * exists m. split; [lia | assumption].
      * exists (k - 1). split; [lia | apply Hmove; lia].
Qed.

(** The general case, after the split point [start] has been found and the
    inner blocks exchanged ([d1]), the left halves merged ([d2]) and the
    right halves merged ([d3]). *)
Lemma symMerge_assemble d d1 d2 d3 a m b mid start end_ :
  a <= start -> start <= m -> start <= mid -> m <= end_ -> end_ <= b ->
  mid <= end_ -> start + end_ = mid + m -> b <= List.length d ->
  sorted d a m -> sorted d m b ->
  (a < start -> end_ < b -> before (get d (start - 1)) (get d end_)) ->
  (start < m -> m < end_ -> before (get d (end_ - 1)) (get d start)) ->
  List.length d1 = List.length d ->
  (forall k, k < start \/ end_ <= k -> get d1 k = get d k) ->
  (forall k, start <= k < mid -> get d1 k = get d (k + (m - start))) ->
  (forall k, mid <= k < end_ -> get d1 k = get d (k - (end_ - m))) ->
  sorted d2 a mid -> within dflt d2 d1 a mid ->
  sorted d3 mid b -> within dflt d3 d2 mid b ->
  sorted d3 a b /\ within dflt d3 d a b.
Proof.
  intros H1 H2 H3 H4 H5 H6 Hsum Hb HU HV Hsplit1 Hsplit2 HL1 Hsame Hfromv
    Hfromu Hs2 Hw2 Hs3 Hw3.
  assert (within dflt d1 d a b) as Hw1.
  { split; [assumption|]. split.
    - intros k Hk. apply Hsame. lia.
    - intros k Hk.
      destruct (Nat.lt_ge_cases k start) as [Hk1|Hk1];
        [exists k; split; [lia | apply Hsame; lia]|].
      destruct (Nat.lt_ge_cases k mid) as [Hk2|Hk2];
        [exists (k + (m - start)); split; [lia | apply Hfromv; lia]|].
      destruct (Nat.lt_ge_cases k end_) as [Hk3|Hk3];
        [exists (k - (end_ - m)); split; [lia | apply Hfromu; lia]|].
      exists k. split; [lia | apply Hsame; lia]. }
  (* every element left of [mid] goes before every element right of it *)
  assert (forall x y, a <= x < mid -> mid <= y < b ->
                      before (get d1 x) (get d1 y)) as Hsep.
  { intros x y Hx Hy.
    destruct (Nat.lt_ge_cases x start) as [Hx1|Hx1];
      destruct (Nat.lt_ge_cases y end_) as [Hy1|Hy1].
    - rewrite Hsame, Hfromu by lia. apply HU; lia.
    - rewrite !Hsame by lia.
      apply (sorted_le_l d a m x (start - 1)); auto; try lia.
      apply (sorted_le_r d m b end_ y); auto; try lia.
      apply Hsplit1; lia.
    - rewrite Hfromv, Hfromu by lia.
      apply (sorted_le_l d m b (x + (m - start)) (end_ - 1)); auto; try lia.
      apply (sorted_le_r d a m start (y - (end_ - m))); auto; try lia.
      apply Hsplit2; lia.
    - rewrite Hfromv, Hsame by lia. apply HV; lia. }
  split.
  - intros x y Hx Hxy Hy.
    destruct Hw2 as (HL2 & Hframe2 & Hmoved2).
    destruct Hw3 as (HL3 & Hframe3 & Hmoved3).
    destruct (Nat.lt_ge_cases y mid) as [Hy1|Hy1].
    + rewrite !Hframe3 by lia. apply Hs2; lia.
    + destruct (Nat.lt_ge_cases x mid) as [Hx1|Hx1]; [|apply Hs3; lia].
      rewrite (Hframe3 x) by lia.
      destruct (Hmoved2 x ltac:(lia)) as (x' & Hx' & ->).
      destruct (Hmoved3 y ltac:(lia)) as (y' & Hy' & ->).
      rewrite (Hframe2 y') by lia. apply Hsep; lia.
  - eapply within_trans; [|exact Hw1].
    eapply within_trans.
    + eapply within_weaken; [| |exact Hw3]; lia.
    + eapply within_weaken; [| |exact Hw2]; lia.
Qed.

(** [symMerge(data, a, m, b)] on two sorted runs whose elements are
    coherent across the runs: the range comes out sorted, and nothing
    enters or leaves it. *)
Lemma symMerge_spec : forall fuel d a m b,
  b - a <= fuel -> a < m -> m < b -> b <= List.length d ->
  sorted d a m -> sorted d m b -> crossed d a m b ->
  sorted (GoSort.symMerge less fuel d a m b) a b /\
  within dflt (GoSort.symMerge less fuel d a m b) d a b.
Proof.
  induction fuel as [|fuel IH]; intros d a m b Hfuel Ham Hmb Hb HU HV Hcross;
    [lia|]. cbn [GoSort.symMerge].
  destruct (m - a =? 1) eqn:E1.
  { apply Nat.eqb_eq in E1. apply symMerge_single_left; auto. }
  destruct (b - m =? 1) eqn:E2.
  { apply Nat.eqb_eq in E2. apply symMerge_single_right; auto. }
  apply Nat.eqb_neq in E1, E2.
  assert (2 * ((a + b) / 2) <= a + b < 2 * ((a + b) / 2) + 2) as Hmid.
  { pose proof (Nat.div_mod_eq (a + b) 2) as H.
    pose proof (Nat.mod_upper_bound (a + b) 2 ltac:(lia)) as H'. lia. }
  remember ((a + b) / 2) as mid eqn:Emid. clear Emid.
  set (n := mid + m).
  set (sr := if mid <? m then (n - b, mid) else (a, m)).
  assert (a <= fst sr /\ fst sr <= snd sr /\ snd sr <= m /\ snd sr <= mid /\
          n - b <= fst sr /\
          (fst sr = a \/ fst sr = n - b) /\ (snd sr = m \/ snd sr = mid))
    as Hsr.
  { subst sr n. destruct (mid <? m) eqn:E; simpl;
      [apply Nat.ltb_lt in E | apply Nat.ltb_ge in E]; lia. }
  destruct sr as [start0 r0]. simpl in Hsr.
  destruct Hsr as (Hs0a & Hs0r & Hr0m & Hr0mid & Hs0n & Hs0 & Hr0).
  set (P := fun c => negb (GoSort.Less less d (n - 1 - c) c)).
  destruct (bsearch_spec P (r0 - start0) start0 r0)
    as (Hstart & Htrue & Hfalse); try lia.
  { intros h k Hh Hhk Hk Pk. subst P. cbv beta in *.
    rewrite (Less_get less dflt) in * by lia.
    apply negb_true_iff in Pk. apply negb_true_iff.
    destruct (less (get d (n - 1 - h)) (get d h)) eqn:E; auto. exfalso.
    apply (Hcross h (n - 1 - h)) in E; try lia.
    apply (Hcross k (n - 1 - k)) in Pk; try lia.
    apply (before_asym before before_trans before_irrefl _ _ E).
    apply (sorted_le_l d a m h k); auto; try lia.
    apply (sorted_le_r d m b (n - 1 - k) (n - 1 - h)); auto; lia. }
  set (start := GoSort.bsearch (r0 - start0) P start0 r0) in *.
  set (end_ := n - start).
  assert (a < start -> end_ < b ->
          before (get d (start - 1)) (get d end_)) as Hsplit1.
  { intros Hst Hen.
    assert (start0 <= start - 1 < start) as Hc by (subst end_ n; lia).
    specialize (Htrue _ Hc). subst P. cbv beta in Htrue.
    rewrite (Less_get less dflt) in Htrue by (subst end_ n; lia).
    apply negb_true_iff in Htrue.
    replace (n - 1 - (start - 1)) with end_ in Htrue by (subst end_ n; lia).
    apply (Hcross (start - 1) end_); auto; subst end_ n; lia. }
  assert (start < m -> m < end_ ->
          before (get d (end_ - 1)) (get d start)) as Hsplit2.
  { intros Hst Hen.
    assert (start <= start < r0) as Hc by (subst end_ n; lia).
    specialize (Hfalse _ Hc). subst P. cbv beta in Hfalse.
    rewrite (Less_get less dflt) in Hfalse by (subst end_ n; lia).
    apply negb_false_iff in Hfalse.
    replace (n - 1 - start) with (end_ - 1) in Hfalse by (subst end_ n; lia).
    apply (Hcross start (end_ - 1)); auto; subst end_ n; lia. }
  assert (a <= start /\ start <= m /\ start <= mid /\ m <= end_ /\
          end_ <= b /\ mid <= end_ /\ start + end_ = mid + m) as Harith
    by (subst end_ n; lia).
  destruct Harith as (A1 & A2 & A3 & A4 & A5 & A6 & A7).
  clearbody start end_. clear Htrue Hfalse Hstart P.
  (* the exchange of the inner blocks *)
  set (d1 := if (start <? m) && (m <? end_)
             then GoSort.rotate d start m end_ else d).
  assert (List.length d1 = List.length d /\
          (forall k, k < start \/ end_ <= k -> get d1 k = get d k) /\
          (forall k, start <= k < mid -> get d1 k = get d (k + (m - start))) /\
          (forall k, mid <= k < end_ -> get d1 k = get d (k - (end_ - m))))
    as (HL1 & Hsame & Hfromv & Hfromu).
  { subst d1. destruct ((start <? m) && (m <? end_)) eqn:E.
    - apply andb_true_iff in E as [Ea Eb].
      apply Nat.ltb_lt in Ea, Eb.
      destruct (rotate_spec dflt d start m end_) as (HL & R1 & R2 & R3);
        try lia.
      split; [assumption|]. split; [|split].
      + intros k Hk. apply R3. lia.
      + intros k Hk. apply R1. lia.
      + intros k Hk. apply R2. lia.
    - split; [reflexivity|].
      apply andb_false_iff in E as [E|E]; apply Nat.ltb_ge in E;
        (split; [reflexivity|]); split; intros k Hk; f_equal; lia. }
  clearbody d1.
  (* the merge of the left halves *)
  set (d2 := if (a <? start) && (start <? mid)
             then GoSort.symMerge less fuel d1 a start mid else d1).
  assert (sorted d1 a start) as HU1
    by (intros x y Hx Hxy Hy; rewrite !Hsame by lia; apply HU; lia).
  assert (sorted d1 start mid) as HV1
    by (intros x y Hx Hxy Hy; rewrite !Hfromv by lia; apply HV; lia).
  assert (sorted d1 mid end_) as HU2
    by (intros x y Hx Hxy Hy; rewrite !Hfromu by lia; apply HU; lia).
  assert (sorted d1 end_ b) as HV2
    by (intros x y Hx Hxy Hy; rewrite !Hsame by lia; apply HV; lia).
  assert (sorted d2 a mid /\ within dflt d2 d1 a mid) as [Hs2 Hw2].
  { subst d2. destruct ((a <? start) && (start <? mid)) eqn:E.
    - apply andb_true_iff in E as [Ea Eb]. apply Nat.ltb_lt in Ea, Eb.
      apply IH; auto; try lia.
      intros i j Hi Hj. rewrite Hsame, Hfromv by lia. apply Hcross; lia.
    - split; [|apply within_refl].
      apply andb_false_iff in E as [E|E]; apply Nat.ltb_ge in E.
      + eapply sorted_range_sub; [| |exact HV1]; lia.
      + eapply sorted_range_sub; [| |exact HU1]; lia. }
  clearbody d2.
  (* the merge of the right halves *)
  set (d3 := if (mid <? end_) && (end_ <? b)
             then GoSort.symMerge less fuel d2 mid end_ b else d2).
  assert (forall k, mid <= k -> get d2 k = get d1 k) as Hd2
    by (intros k Hk; apply Hw2; lia).
  assert (List.length d2 = List.length d1) as HL2 by apply Hw2.
  assert (sorted d3 mid b /\ within dflt d3 d2 mid b) as [Hs3 Hw3].
  { subst d3. destruct ((mid <? end_) && (end_ <? b)) eqn:E.
    - apply andb_true_iff in E as [Ea Eb]. apply Nat.ltb_lt in Ea, Eb.
      apply IH; auto; try lia.
      + eapply sorted_range_ext; [|exact HU2]. intros k Hk. apply Hd2. lia.
      + eapply sorted_range_ext; [|exact HV2]. intros k Hk. apply Hd2. lia.
      + intros i j Hi Hj. rewrite !Hd2 by lia.
        rewrite Hfromu, Hsame by lia. apply Hcross; lia.
    - split; [|apply within_refl].
      apply andb_false_iff in E as [E|E]; apply Nat.ltb_ge in E.
      + eapply sorted_range_ext; [intros k Hk; apply Hd2; lia|].
        eapply sorted_range_sub; [| |exact HV2]; lia.
      + eapply sorted_range_ext; [intros k Hk; apply Hd2; lia|].
        eapply sorted_range_sub; [| |exact HU2]; lia. }
  clearbody d3.
  eapply (symMerge_assemble d d1 d2 d3 a m b mid start end_); eauto.
Qed.

End MergeFacts.

(** ** Every step of [sort.Stable] permutes the slice *)

Section PermFacts.
Context {A : Type} (less : A -> A -> bool).

Lemma fold_swaps_perm (f : list A -> nat -> list A) (l : list nat) :
  (forall d i, Permutation (f d i) d) ->
  forall d, Permutation (fold_left f l d) d.
Proof.
  intros Hf. induction l as [|i l IH]; intros d; simpl.
  - apply Permutation_refl.
  - eapply perm_trans; [apply IH | apply Hf].
Qed.

Lemma insert_down_perm a : forall j (d : list A),
  Permutation (GoSort.insert_down less d a j) d.
Proof.
  induction j as [|j IH]; intros d; simpl; [apply Permutation_refl|].
  destruct ((a <? S j)%nat && GoSort.Less less d (S j) j).
  - eapply perm_trans; [apply IH | apply Swap_perm].
  - apply Permutation_refl.
Qed.

Lemma insertionSort_perm (d : list A) a b :
  Permutation (GoSort.insertionSort less d a b) d.
Proof.
  apply fold_swaps_perm. intros. apply insert_down_perm.
Qed.

Lemma swapRange_perm (d : list A) a b n :
  Permutation (GoSort.swapRange d a b n) d.
Proof. apply fold_swaps_perm. intros. apply Swap_perm. Qed.

Lemma rotate_loop_perm : forall fuel (d : list A) m i j,
  Permutation (fst (GoSort.rotate_loop fuel d m i j)) d.
Proof.
  induction fuel as [|fuel IH]; intros d m i j; simpl;
    [apply Permutation_refl|].
  destruct (i =? j)%nat; [apply Permutation_refl|].
  destruct (j <? i)%nat;
    (eapply perm_trans; [apply IH | apply swapRange_perm]).
Qed.

Lemma rotate_perm (d : list A) a m b :
  Permutation (GoSort.rotate d a m b) d.
Proof.
  unfold GoSort.rotate.
  pose proof (rotate_loop_perm (m - a + (b - m)) d m (m - a) (b - m)) as H.
  destruct (GoSort.rotate_loop _ _ _ _ _) as [d1 i1]. simpl in H.
  eapply perm_trans; [apply swapRange_perm | exact H].
Qed.

Lemma symMerge_perm : forall fuel (d : list A) a m b,
  Permutation (GoSort.symMerge less fuel d a m b) d.
Proof.
  induction fuel as [|fuel IH]; intros d a m b; cbn [GoSort.symMerge];
    [apply Permutation_refl|].
  destruct (m - a =? 1)%nat.
  { apply fold_swaps_perm. intros. apply Swap_perm. }
  destruct (b - m =? 1)%nat.
  { apply fold_swaps_perm. intros. apply Swap_perm. }
  destruct (if ((a + b) / 2 <? m)%nat
            then (((a + b) / 2 + m - b)%nat, ((a + b) / 2)%nat)
            else (a, m)) as [start0 r0].
  match goal with
  | |- context [GoSort.bsearch ?f ?P ?i ?j] =>
      generalize (GoSort.bsearch f P i j)
  end.
  intros start.
  assert (forall (c : bool) (x y : list A),
            Permutation x d -> Permutation y d ->
            Permutation (if c then x else y) d) as Hif
    by (intros [] x y; auto).
  assert (Permutation
            (if ((start <? m)%nat && (m <? (a + b) / 2 + m - start)%nat)%bool
             then GoSort.rotate d start m ((a + b) / 2 + m - start) else d) d)
    as H1 by (apply Hif; [apply rotate_perm | apply Permutation_refl]).
  match type of H1 with Permutation ?x _ => set (d1 := x) in * end.
  assert (Permutation
            (if ((a <? start)%nat && (start <? (a + b) / 2)%nat)%bool
             then GoSort.symMerge less fuel d1 a start ((a + b) / 2) else d1) d)
    as H2.
  { apply Hif; [|exact H1]. eapply perm_trans; [apply IH | exact H1]. }
  match type of H2 with Permutation ?x _ => set (d2 := x) in * end.
  apply Hif; [|exact H2]. eapply perm_trans; [apply IH | exact H2].
Qed.

Lemma stable_blocks_perm : forall fuel (d : list A) a b n blockSize,
  Permutation (fst (GoSort.stable_blocks less fuel d a b n blockSize)) d.
Proof.
  induction fuel as [|fuel IH]; intros d a b n blockSize; simpl;
    [apply Permutation_refl|].
  destruct (b <=? n)%nat; [|apply Permutation_refl].
  eapply perm_trans; [apply IH | apply insertionSort_perm].
Qed.

Lemma stable_pass_perm : forall fuel (d : list A) a b n blockSize,
  Permutation (fst (GoSort.stable_pass less fuel d a b n blockSize)) d.
Proof.
  induction fuel as [|fuel IH]; intros d a b n blockSize;
    cbn [GoSort.stable_pass]; [apply Permutation_refl|].
  destruct (b <=? n)%nat; [|apply Permutation_refl].
  eapply perm_trans; [apply IH | apply symMerge_perm].
Qed.

Lemma stable_merge_perm : forall fuel (d : list A) n blockSize,
  Permutation (GoSort.stable_merge less fuel d n blockSize) d.
Proof.
  induction fuel as [|fuel IH]; intros d n blockSize;
    cbn [GoSort.stable_merge]; [apply Permutation_refl|].
  destruct (blockSize <? n)%nat; [|apply Permutation_refl].
  pose proof (stable_pass_perm n d 0 (2 * blockSize) n blockSize) as H.
  destruct (GoSort.stable_pass less n d 0 (2 * blockSize) n blockSize)
    as [d1 a]. simpl in H.
  eapply perm_trans; [apply IH|].
  destruct (a + blockSize <? n)%nat; [|exact H].
  eapply perm_trans; [apply symMerge_perm | exact H].
Qed.

(** [sort.Stable] returns a permutation of its input. *)
Lemma Stable_perm (d : list A) : Permutation (GoSort.Stable less d) d.
Proof.
  unfold GoSort.Stable, GoSort.stable.
  pose proof (stable_blocks_perm (List.length d) d 0 20 (List.length d) 20)
    as H.
  destruct (GoSort.stable_blocks less (List.length d) d 0 20 (List.length d) 20)
    as [d1 a]. simpl in H.
  eapply perm_trans; [apply stable_merge_perm|].
  eapply perm_trans; [apply insertionSort_perm | exact H].
Qed.

End PermFacts.

(** ** [sort.Stable] sorts *)

Section StableFacts.
Context {A : Type} (less : A -> A -> bool) (dflt : A).
Context (before : A -> A -> Prop).
Hypothesis before_trans : forall x y z, before x y -> before y z -> before x z.
Hypothesis before_irrefl : forall x, ~ before x x.

(** The slice as it is handed to [sort.Stable]: [n] elements, coherent in
    the order in which they stand. *)
Context (d0 : list A) (n : nat).
Hypothesis d0_length : List.length d0 = n.
Hypothesis d0_coherent : forall i j,
  (i < j)%nat -> (j < n)%nat ->
  coherent less before (nth i d0 dflt) (nth j d0 dflt).

Local Open Scope nat_scope.

Local Notation "'get' d i" := (nth i d dflt)
  (at level 10, d at level 9, i at level 9).
Local Abbreviation sorted := (sorted_range dflt before).
Local Abbreviation from_d0 := (from_input dflt d0).
Local Abbreviation blocks := (Blocks dflt before d0 n).

Lemma from_input_ext d d' a b :
  (forall k, a <= k < b -> get d' k = get d k) ->
  from_d0 d a b -> from_d0 d' a b.
Proof.
  intros E H k Hk. destruct (H k Hk) as (k' & Hk' & Ek).
  exists k'. split; auto. now rewrite E.
Qed.

Lemma from_input_within d d' a b :
  within dflt d' d a b -> from_d0 d a b -> from_d0 d' a b.
Proof.
  intros (_ & _ & Hm) H k Hk. destruct (Hm k Hk) as (k1 & Hk1 & ->).
  apply H. assumption.
Qed.

Lemma from_input_join d a m b :
  a <= m -> m <= b ->
  from_d0 d a m -> from_d0 d m b -> from_d0 d a b.
Proof.
  intros Ham Hmb H1 H2 k Hk. destruct (Nat.lt_ge_cases k m) as [Hlt|Hge].
  - destruct (H1 k ltac:(lia)) as (k' & Hk' & E). exists k'. split; [lia|auto].
  - destruct (H2 k ltac:(lia)) as (k' & Hk' & E). exists k'. split; [lia|auto].
Qed.

Lemma blocks_inv d bs a :
  blocks d bs a -> a < n ->
  sorted d a (Nat.min (a + bs) n) /\
  from_d0 d a (Nat.min (a + bs) n) /\
  blocks d bs (a + bs).
Proof.
  intros H Ha. destruct H as [a Hge | a _ Hs Hf Hrest]; [lia | auto].
Qed.

Lemma Blocks_ext d d' bs a :
  0 < bs ->
  (forall k, a <= k -> get d' k = get d k) ->
  blocks d bs a -> blocks d' bs a.
Proof.
  intros Hbs E H. induction H as [a Ha | a Ha Hs Hf Hrest IH].
  - now apply Blocks_done.
  - apply Blocks_step; auto.
    + eapply sorted_range_ext; [|exact Hs]. intros k Hk. apply E. lia.
    + eapply from_input_ext; [|exact Hf]. intros k Hk. apply E. lia.
    + apply IH. intros k Hk. apply E. lia.
Qed.

(** Two runs made of the input's elements at their positions are coherent
    across. *)
Lemma cross_from_input d a m b :
  b <= n -> from_d0 d a m -> from_d0 d m b -> cross less dflt before d a m b.
Proof.
  intros Hb H1 H2 i j Hi Hj.
  destruct (H1 i Hi) as (i' & Hi' & ->).
  destruct (H2 j Hj) as (j' & Hj' & ->).
  apply d0_coherent; lia.
Qed.

(** The first phase: insertion sort of each block. *)
Lemma stable_blocks_spec bs : 0 < bs -> forall fuel d a,
  n - a <= fuel -> List.length d = n ->
  (forall k, a <= k -> get d k = get d0 k) ->
  let out := GoSort.stable_blocks less fuel d a (a + bs) n bs in
  let d2 := GoSort.insertionSort less (fst out) (snd out) n in
  blocks d2 bs a /\ List.length d2 = n /\
  (forall k, k < a -> get d2 k = get d k).
Proof.
  intros Hbs. induction fuel as [|fuel IH]; intros d a Hfuel Hlen Hd;
    cbn [GoSort.stable_blocks]; cbv zeta.
  - simpl. unfold GoSort.insertionSort.
    replace (n - (a + 1)) with 0 by lia. simpl.
    split; [apply Blocks_done; lia | auto].
  - destruct (a + bs <=? n) eqn:E.
    + apply Nat.leb_le in E.
      destruct (insertionSort_spec less dflt before before_trans d a (a + bs))
        as [Hs Hw]; try lia.
      { intros i j Hi Hij Hj. rewrite !Hd by lia. apply d0_coherent; lia. }
      set (d1 := GoSort.insertionSort less d a (a + bs)) in *.
      destruct (IH d1 (a + bs)) as (HB & HL & Hframe).
      * lia.
      * destruct Hw as (HL & _). lia.
      * intros k Hk. destruct Hw as (_ & Hf & _). rewrite Hf by lia.
        apply Hd. lia.
      * cbv zeta in *.
        split; [|split; [assumption|]].
        -- apply Blocks_step; auto; try lia;
             rewrite Nat.min_l by lia.
           ++ eapply sorted_range_ext; [|exact Hs]. intros k Hk.
              apply Hframe. lia.
           ++ eapply from_input_ext; [intros k Hk; apply Hframe; lia|].
              eapply from_input_within; [exact Hw|].
              intros k Hk. exists k. split; [lia | apply Hd; lia].
        -- intros k Hk. rewrite Hframe by lia. apply Hw. lia.
    + apply Nat.leb_gt in E. simpl.
      destruct (insertionSort_spec less dflt before before_trans d a n)
        as [Hs Hw]; try lia.
      { intros i j Hi Hij Hj. rewrite !Hd by lia. apply d0_coherent; lia. }
      split; [|split].
      * destruct (Nat.lt_ge_cases a n) as [Han|Han];
          [|apply Blocks_done; lia].
        apply Blocks_step; auto; try rewrite Nat.min_r by lia; auto.
        -- eapply from_input_within; [exact Hw|].
           intros k Hk. exists k. split; [lia | apply Hd; lia].
        -- apply Blocks_done. lia.
      * destruct Hw as (HL & _). lia.
      * intros k Hk. apply Hw. lia.
Qed.

(** One pass of the second phase: neighbouring blocks of [bs] elements are
    merged into blocks of [2 * bs]. *)
Lemma stable_pass_spec bs : 0 < bs -> forall fuel d a,
  n - a <= fuel -> List.length d = n ->
  blocks d bs a ->
  let out := GoSort.stable_pass less fuel d a (a + 2 * bs) n bs in
  let d2 := if snd out + bs <? n
            then GoSort.symMerge less (n - snd out) (fst out) (snd out)
                   (snd out + bs) n
            else fst out in
  blocks d2 (2 * bs) a /\ List.length d2 = n /\
  (forall k, k < a -> get d2 k = get d k).
Proof.
  intros Hbs. induction fuel as [|fuel IH]; intros d a Hfuel Hlen HB;
    cbn [GoSort.stable_pass]; cbv zeta.
  - simpl. replace (a + bs <? n) with false
      by (symmetry; apply Nat.ltb_ge; lia).
    split; [apply Blocks_done; lia | auto].
  - destruct (a + 2 * bs <=? n) eqn:E.
    + apply Nat.leb_le in E.
      assert (a < n) as Ha by lia.
      destruct (blocks_inv d bs a HB Ha) as (Hs1 & Hf1 & HB1).
      destruct (blocks_inv d bs (a + bs) HB1 ltac:(lia)) as (Hs2 & Hf2 & HB2).
      rewrite Nat.min_l in Hs1, Hf1 by lia.
      rewrite Nat.min_l in Hs2, Hf2 by lia.
      replace (a + bs + bs) with (a + 2 * bs) in * by lia.
      destruct (symMerge_spec less dflt before before_trans before_irrefl
                  (a + 2 * bs - a) d a (a + bs) (a + 2 * bs))
        as [Hs Hw]; auto; try lia.
      { apply cross_from_input; auto. }
      set (d1 := GoSort.symMerge less (a + 2 * bs - a) d a (a + bs)
                   (a + 2 * bs)) in *.
      destruct (IH d1 (a + 2 * bs)) as (HB' & HL & Hframe).
      * lia.
      * destruct Hw as (HL & _). lia.
      * apply Blocks_ext with (d := d); auto.
        intros k Hk. apply Hw. lia.
      * cbv zeta in *.
        split; [|split; [assumption|]].
        -- apply Blocks_step; auto;
             replace (a + 2 * bs) with (a + (bs + (bs + 0))) in * by lia;
             rewrite ?Nat.min_l by lia; auto.
           ++ eapply sorted_range_ext; [|exact Hs]. intros k Hk.
              apply Hframe. lia.
           ++ eapply from_input_ext; [intros k Hk; apply Hframe; lia|].
              eapply from_input_within; [exact Hw|].
              apply from_input_join with (m := a + bs); auto; lia.
        -- intros k Hk. rewrite Hframe by lia. apply Hw. lia.
    + apply Nat.leb_gt in E. cbn [fst snd].
      destruct (a + bs <? n) eqn:E2.
      * apply Nat.ltb_lt in E2.
        assert (a < n) as Ha by lia.
        destruct (blocks_inv d bs a HB Ha) as (Hs1 & Hf1 & HB1).
        destruct (blocks_inv d bs (a + bs) HB1 ltac:(lia))
          as (Hs2 & Hf2 & HB2).
        rewrite Nat.min_l in Hs1, Hf1 by lia.
        rewrite Nat.min_r in Hs2, Hf2 by lia.
        destruct (symMerge_spec less dflt before before_trans before_irrefl
                    (n - a) d a (a + bs) n) as [Hs Hw]; auto; try lia.
        { apply cross_from_input; auto. }
        split; [|split].
        -- apply Blocks_step; auto; rewrite ?Nat.min_r by lia; auto.
           ++ eapply from_input_within; [exact Hw|].
              apply from_input_join with (m := a + bs); auto; lia.
           ++ apply Blocks_done. lia.
        -- destruct Hw as (HL & _). lia.
        -- intros k Hk. apply Hw. lia.
      * apply Nat.ltb_ge in E2. split; [|auto].
        destruct (Nat.lt_ge_cases a n) as [Ha|Ha]; [|apply Blocks_done; lia].
        destruct (blocks_inv d bs a HB Ha) as (Hs1 & Hf1 & HB1).
        rewrite Nat.min_r in Hs1, Hf1 by lia.
        apply Blocks_step; auto; rewrite ?Nat.min_r by lia; auto.
        apply Blocks_done. lia.
Qed.

(** The second phase. *)
Lemma stable_merge_spec : forall fuel bs d,
  0 < bs -> n - bs <= fuel -> List.length d = n ->
  blocks d bs 0 ->
  sorted (GoSort.stable_merge less fuel d n bs) 0 n.
Proof.
  assert (forall bs d, n <= bs -> blocks d bs 0 -> sorted d 0 n) as Hend.
  { intros bs d Hn HB. destruct (Nat.lt_ge_cases 0 n) as [Hn0|Hn0].
    - destruct (blocks_inv d bs 0 HB Hn0) as (Hs & _).
      rewrite Nat.min_r in Hs by lia. exact Hs.
    - intros i j Hi Hij Hj. lia. }
  induction fuel as [|fuel IH]; intros bs d Hbs Hfuel Hlen HB;
    cbn [GoSort.stable_merge].
  - apply (Hend bs); auto. lia.
  - destruct (bs <? n) eqn:E.
    + apply Nat.ltb_lt in E.
      pose proof (stable_pass_spec bs Hbs n d 0) as Hpass.
      cbv zeta in Hpass. change (0 + 2 * bs) with (2 * bs) in Hpass.
      destruct (GoSort.stable_pass less n d 0 (2 * bs) n bs) as [d1 a].
      cbn [fst snd] in Hpass.
      destruct Hpass as (HB' & HL & _); auto; try lia.
      replace (bs * 2) with (2 * bs) by lia.
      apply IH; auto; lia.
    + apply Nat.ltb_ge in E. apply (Hend bs); auto.
Qed.

(** [sort.Stable] returns the slice sorted. *)
Lemma Stable_sorted : sorted (GoSort.Stable less d0) 0 n.
Proof.
  unfold GoSort.Stable, GoSort.stable. rewrite d0_length.
  pose proof (stable_blocks_spec 20 ltac:(lia) n d0 0) as Hblocks.
  cbv zeta in Hblocks. change (0 + 20) with 20 in Hblocks.
  destruct (GoSort.stable_blocks less n d0 0 20 n 20) as [d1 a].
  cbn [fst snd] in Hblocks.
  destruct Hblocks as (HB & HL & _); auto; try lia.
  apply stable_merge_spec; auto; lia.
Qed.

End StableFacts.

(* ================================================================== *)
(** * Properties of the matcher: ranking *)
(* ================================================================== *)

Lemma ranked_before_trans x y z :
  ranked_before x y -> ranked_before y z -> ranked_before x z.
Proof. unfold ranked_before. intros [H1|[H1 H1']] [H2|[H2 H2']]; lia. Qed.

Lemma ranked_before_irrefl x : ~ ranked_before x x.
Proof. unfold ranked_before. intros [H|[_ H]]; lia. Qed.

Lemma StronglySorted_nth {A} (R : A -> A -> Prop) (dflt : A) (l : list A) :
  StronglySorted R l ->
  forall i j, (i < j)%nat -> (j < List.length l)%nat ->
              R (nth i l dflt) (nth j l dflt).
Proof.
  induction 1 as [|x l Hl IH Hx]; intros i j Hij Hj; simpl in *; [lia|].
  destruct j as [|j]; [lia|]. destruct i as [|i].
  - rewrite Forall_forall in Hx. apply Hx. apply nth_In. lia.
  - apply IH; lia.
Qed.

Lemma sorted_range_StronglySorted {A} (R : A -> A -> Prop) (dflt : A) :
  forall l : list A,
  sorted_range dflt R l 0 (List.length l) -> StronglySorted R l.
Proof.
  induction l as [|x l IH]; intros H; constructor.
  - apply IH. intros i j Hi Hij Hj.
    apply (H (S i) (S j)); simpl; lia.
  - apply Forall_forall. intros y Hy.
    destruct (In_nth l y dflt Hy) as (k & Hk & <-).
    apply (H 0%nat (S k)); simpl; lia.
Qed.

(** [sort.Stable] with [Matches.Less] on matches in the order of the data:
    a permutation, ranked. *)
Lemma Stable_ranks (ms : list Fuzzy.Match) :
  StronglySorted (fun x y => (Fuzzy.Index x < Fuzzy.Index y)%nat) ms ->
  Permutation (GoSort.Stable Fuzzy.less ms) ms /\
  StronglySorted ranked_before (GoSort.Stable Fuzzy.less ms).
Proof.
  intros Hms. split; [apply Stable_perm|].
  apply (sorted_range_StronglySorted ranked_before no_match).
  rewrite (Permutation_length (Stable_perm Fuzzy.less ms)).
  apply (Stable_sorted Fuzzy.less no_match ranked_before
           ranked_before_trans ranked_before_irrefl ms (List.length ms)
           eq_refl).
  intros i j Hij Hj.
  pose proof (StronglySorted_nth _ no_match ms Hms i j Hij Hj) as Hlt.
  cbv beta in Hlt. unfold coherent, Fuzzy.less, ranked_before. split.
  - intros H. apply Z.leb_le in H. lia.
  - intros H. apply Z.leb_gt in H. lia.
Qed.

Section RankFacts.
Context {tables : GoTables}.

(** What [fuzzy.Find] returns for a pattern that is not empty and titles
    without NUL. *)
Lemma Find_spec (pattern : gostring) (data : list gostring) :
  pattern <> [] -> Forall nul_free data ->
  exists ms,
    Fuzzy.Find pattern data = Some ms /\
    StronglySorted ranked_before ms /\
    Forall (fun m =>
              nth_error data (Fuzzy.Index m) = Some (Fuzzy.Str m) /\
              fold_subseq pattern (Fuzzy.Str m) /\
              match_score pattern (Fuzzy.Str m) = Some (Fuzzy.Score m)) ms /\
    (forall k s, nth_error data k = Some s ->
                 match_score pattern s <> None ->
                 exists m, In m ms /\ Fuzzy.Index m = k).
Proof.
  intros Hne Hnul.
  destruct (find_loop_spec pattern Hne data 0%nat Hnul)
    as (ms & Hfind & Hall & Hsorted & Hcomplete).
  unfold Fuzzy.Find, Fuzzy.FindNoSort.
  destruct pattern as [|p pattern]; [contradiction|]. rewrite Hfind.
  destruct (Stable_ranks ms Hsorted) as [Hperm Hranked].
  eexists. split; [reflexivity|]. split; [assumption|]. split.
  - apply Forall_forall. intros m Hm.
    apply (Permutation_in _ Hperm) in Hm.
    rewrite Forall_forall in Hall. destruct (Hall m Hm) as (_ & Hnth & Hrest).
    rewrite Nat.sub_0_r in Hnth. auto.
  - intros k s Hk Hs. destruct (Hcomplete k s Hk Hs) as (m & Hm & Hi).
    exists m. split; [|exact Hi].
    apply (Permutation_in _ (Permutation_sym Hperm)). assumption.
Qed.

Lemma pick_spec (movies : list Movie) : forall ms,
  Forall (fun m => (Fuzzy.Index m < List.length movies)%nat) ms ->
  exists result,
    pick movies ms = Some result /\
    Forall2 (fun m movie => nth_error movies (Fuzzy.Index m) = Some movie)
      ms result.
Proof.
  induction ms as [|m ms IH]; intros Hall; simpl.
  - exists []. split; [reflexivity | constructor].
  - inversion Hall as [|? ? Hm Hms]; subst.
    destruct (IH Hms) as (result & -> & Hres).
    destruct (nth_error movies (Fuzzy.Index m)) as [movie|] eqn:E;
      [|apply nth_error_None in E; lia].
    exists (movie :: result). split; [reflexivity|]. constructor; auto.
Qed.

(** [fuzzySearchMovies] returns the entries at the indices of the matches
    of [fuzzy.Find], in their order. *)
Lemma fuzzySearchMovies_found (movies : list Movie) (query : gostring) :
  query <> [] ->
  nul_free_titles movies ->
  exists ms result,
    fuzzySearchMovies movies query = Some result /\
    Forall2 (fun m movie =>
               nth_error movies (Fuzzy.Index m) = Some movie /\
               match_score query (Title movie) = Some (Fuzzy.Score m) /\
               fold_subseq query (Title movie)) ms result /\
    StronglySorted ranked_before ms /\
    (forall i movie,
       nth_error movies i = Some movie ->
       match_score query (Title movie) <> None ->
       exists m, In m ms /\ Fuzzy.Index m = i).
Proof.
  intros Hq Hnul. unfold fuzzySearchMovies.
  destruct movies as [|movie0 movies'] eqn:Emovies.
  { exists [], []. repeat split; try constructor.
    intros [|i] movie H; discriminate. }
  rewrite <- Emovies in *. clear Emovies movie0 movies'.
  assert (Forall nul_free (map Title movies)) as Hnul'.
  { apply Forall_forall. intros t Ht. apply in_map_iff in Ht as (m & <- & Hm).
    unfold nul_free_titles in Hnul. rewrite Forall_forall in Hnul. auto. }
  destruct (Find_spec query (map Title movies) Hq Hnul')
    as (ms & -> & Hranked & Hall & Hcomplete).
  assert (Forall (fun m => (Fuzzy.Index m < List.length movies)%nat) ms)
    as Hbound.
  { eapply Forall_impl; [|exact Hall]. intros m (Hnth & _).
    assert (nth_error (map Title movies) (Fuzzy.Index m) <> None) as H
      by congruence.
    apply nth_error_Some in H. now rewrite length_map in H. }
  destruct (pick_spec movies ms Hbound) as (result & -> & Hpick).
  exists ms, result. split; [reflexivity|]. split; [|split; [assumption|]].
  - clear Hranked Hcomplete Hbound.
    induction Hpick as [|m movie ms result Hm Hrest IH]; constructor.
    + inversion Hall as [|? ? (Hnth & Hsub & Hscore) _]; subst.
      rewrite nth_error_map, Hm in Hnth. simpl in Hnth.
      injection Hnth as Htitle. rewrite Htitle. auto.
    + apply IH. now inversion Hall.
  - intros i movie Hi Hscore.
    apply (Hcomplete i (Title movie)); auto.
    rewrite nth_error_map, Hi. reflexivity.
Qed.

(** The matching stage returns for titles without NUL. *)
Lemma apply_query_total (movies : list Movie) (query : gostring) :
  nul_free_titles movies ->
  exists result, apply_query movies query = Some result.
Proof.
  intros Hnul. unfold apply_query.
  destruct (negb (gostring_eqb query [])); [|eauto].
  destruct (cleanQuery query) as [|r q] eqn:E.
  - destruct movies; simpl; eauto.
  - destruct (fuzzySearchMovies_found movies (r :: q))
      as (ms & result & H & _); auto; [discriminate | eauto].
Qed.

End RankFacts.

(** ** The tests of the [fuzzy] package *)

(** The expected matches of [TestFind] in the package's [fuzzy_test.go],
    run on the embedding (no rune of these data needs a table beyond
    ASCII): first rune, camel case and separator bonuses, the penalty for
    unmatched runes, byte offsets after a two-byte rune, adjacency, and the
    ranking of two matches. *)
Example fuzzy_test_camel_case :
  Fuzzy.Find (tables := ascii_tables) (str "mnr") [str "moduleNameResolver.ts"]
  = Some [ {| Fuzzy.Str := str "moduleNameResolver.ts"; Fuzzy.Index := 0;
              Fuzzy.MatchedIndexes := [0; 6; 10]; Fuzzy.Score := 32 |} ].
Proof. vm_compute. reflexivity. Qed.

Example fuzzy_test_unicode :
  Fuzzy.Find (tables := ascii_tables) (str "mmt") [meme_temps]
  = Some [ {| Fuzzy.Str := meme_temps; Fuzzy.Index := 0;
              Fuzzy.MatchedIndexes := [0; 3; 5]; Fuzzy.Score := 23 |} ].
Proof. vm_compute. reflexivity. Qed.

Example fuzzy_test_ranking :
  Fuzzy.Find (tables := ascii_tables) (str "mnr")
    [str "moduleNameResolver.ts"; str "my name is_Ramsey"]
  = Some [ {| Fuzzy.Str := str "my name is_Ramsey"; Fuzzy.Index := 1;
              Fuzzy.MatchedIndexes := [0; 3; 11]; Fuzzy.Score := 36 |};
           {| Fuzzy.Str := str "moduleNameResolver.ts"; Fuzzy.Index := 0;
              Fuzzy.MatchedIndexes := [0; 6; 10]; Fuzzy.Score := 32 |} ].
Proof. vm_compute. reflexivity. Qed.

Example fuzzy_test_adjacent :
  Fuzzy.Find (tables := ascii_tables) (str "aaa") [str "aaa"; str "bbb"]
  = Some [ {| Fuzzy.Str := str "aaa"; Fuzzy.Index := 0;
              Fuzzy.MatchedIndexes := [0; 1; 2]; Fuzzy.Score := 30 |} ].
Proof. vm_compute. reflexivity. Qed.

Example fuzzy_test_separator :
  Fuzzy.Find (tables := ascii_tables) (str "tk") [str "The Black Knight"]
  = Some [ {| Fuzzy.Str := str "The Black Knight"; Fuzzy.Index := 0;
              Fuzzy.MatchedIndexes := [0; 10]; Fuzzy.Score := 16 |} ].
Proof. vm_compute. reflexivity. Qed.

(* ================================================================== *)
(** * The claims about the matcher *)
(* ================================================================== *)

(** Two lists with the same elements, both sorted by a relation that no
    two elements satisfy in both directions, are one list. *)
Lemma sorted_unique {A : Type} (R : A -> A -> Prop) :
  (forall x y, R x y -> R y x -> False) ->
  forall l1 l2,
    StronglySorted R l1 -> StronglySorted R l2 ->
    (forall x, In x l1 <-> In x l2) -> l1 = l2.
Proof.
  intros Hasym.
  induction l1 as [|x l1 IH]; intros l2 H1 H2 Hsame.
  - destruct l2 as [|y l2]; auto.
    exfalso. apply (proj2 (Hsame y)). now left.
  - destruct l2 as [|y l2]; [exfalso; apply (proj1 (Hsame x)); now left|].
    inversion H1 as [|? ? H1' Hx]; subst.
    inversion H2 as [|? ? H2' Hy]; subst.
    rewrite Forall_forall in Hx, Hy.
    assert (x = y) as ->.
    { destruct (proj1 (Hsame x) (or_introl eq_refl)) as [E|Hxin]; auto.
      destruct (proj2 (Hsame y) (or_introl eq_refl)) as [E|Hyin]; auto.
      exfalso. exact (Hasym x y (Hx y Hyin) (Hy x Hxin)). }
    f_equal. apply IH; auto.
    intros z. split; intros Hz.
    + destruct (proj1 (Hsame z) (or_intror Hz)) as [<-|Hin]; auto.
      exfalso. exact (Hasym y y (Hx y Hz) (Hx y Hz)).
    + destruct (proj2 (Hsame z) (or_intror Hz)) as [<-|Hin]; auto.
      exfalso. exact (Hasym y y (Hy y Hz) (Hy y Hz)).
Qed.

Lemma rank_order_asym (r r' : nat * Z) :
  rank_order r r' -> rank_order r' r -> False.
Proof. unfold rank_order. lia. Qed.

Section MatcherClaims.
Context {tables : GoTables}.

(** X21.  What [fuzzySearchMovies] returns.  For every entry list whose
    titles hold no NUL and every normalized query that is not empty, it
    returns a list in which every entry has a title that holds the runes
    of the query in order, up to case (so an entry without such an
    occurrence is left out), every entry that [fuzzy.Find] gives a score
    is listed, and the entries stand in descending score, those with equal
    scores in the reverse of their order in the snapshot. *)
Theorem fuzzy_search_excludes_and_ranks (movies : list Movie)
    (query : gostring) :
  query <> [] ->
  nul_free_titles movies ->
  exists (result : list Movie) (ranked : list (nat * Z)),
    fuzzySearchMovies movies query = Some result /\
    Forall2 (fun r movie =>
               nth_error movies (fst r) = Some movie /\
               match_score query (Title movie) = Some (snd r) /\
               fold_subseq query (Title movie)) ranked result /\
    StronglySorted rank_order ranked /\
    (forall i movie,
       nth_error movies i = Some movie ->
       match_score query (Title movie) <> None ->
       In i (map fst ranked)).
Proof.
  intros Hq Hnul.
  destruct (fuzzySearchMovies_found movies query Hq Hnul)
    as (ms & result & Hresult & Hpick & Hranked & Hcomplete).
  exists result, (map rank_of ms). split; [assumption|]. split; [|split].
  - clear Hresult Hranked Hcomplete.
    induction Hpick as [|m movie ms result Hm Hrest IH]; simpl;
      constructor; [exact Hm | exact IH].
  - clear Hresult Hpick Hcomplete.
    induction Hranked as [|m ms Hms IH Hm]; simpl; constructor; auto.
    apply Forall_forall. intros r Hr.
    apply in_map_iff in Hr as (m' & <- & Hm').
    rewrite Forall_forall in Hm. apply (Hm m' Hm').
  - intros i movie Hi Hscore.
    destruct (Hcomplete i movie Hi Hscore) as (m & Hm & Hidx).
    rewrite map_map. apply in_map_iff. exists m. auto.
Qed.

(** C7.  With the entries titled "Ballerina", "Sinners" and "The
    Conjuring" and the query "balerina", the first entry of the answer is
    "Ballerina" (it is the only one). *)
Theorem balerina_finds_Ballerina (h1 h2 h3 : gostring) :
  apply_query
    [ {| Title := str "Ballerina"; Href := h1 |};
      {| Title := str "Sinners"; Href := h2 |};
      {| Title := str "The Conjuring"; Href := h3 |} ]
    (str "balerina")
  = Some [ {| Title := str "Ballerina"; Href := h1 |} ].
Proof. vm_compute. reflexivity. Qed.

Lemma ranked_answer_elements movies query ranked result :
  ranked_answer movies query ranked result ->
  forall r, In r ranked <->
            exists movie, nth_error movies (fst r) = Some movie /\
                          match_score query (Title movie) = Some (snd r).
Proof.
  intros (Hpick & _ & Hcomplete) r. split.
  - intros Hin. clear Hcomplete.
    induction Hpick as [|r' movie ranked result Hr _ IH]; [contradiction|].
    destruct Hin as [->|Hin]; eauto.
  - intros (movie & Hnth & Hscore).
    assert (In (fst r) (map fst ranked)) as Hin
      by (apply (Hcomplete _ movie Hnth); congruence).
    apply in_map_iff in Hin as (r' & Hfst & Hin).
    assert (r' = r); [|now subst].
    clear Hcomplete.
    induction Hpick as [|r'' movie' ranked result (Hn & Hs) _ IH];
      [contradiction|].
    destruct Hin as [->|Hin]; auto.
    rewrite Hfst, Hnth in Hn. injection Hn as <-.
    destruct r, r'. simpl in *. congruence.
Qed.

(** There is one ranked answer. *)
Lemma ranked_answer_unique movies query ranked1 result1 ranked2 result2 :
  ranked_answer movies query ranked1 result1 ->
  ranked_answer movies query ranked2 result2 ->
  ranked1 = ranked2 /\ result1 = result2.
Proof.
  intros H1 H2.
  assert (ranked1 = ranked2) as <-.
  { apply (sorted_unique rank_order rank_order_asym).
    - apply H1.
    - apply H2.
    - intros r. rewrite (ranked_answer_elements _ _ _ _ H1).
      now rewrite (ranked_answer_elements _ _ _ _ H2). }
  split; [reflexivity|].
  destruct H1 as (Hp1 & _). destruct H2 as (Hp2 & _).
  revert result2 Hp2.
  induction Hp1 as [|r m1 ranked result1 (Hn1 & _) _ IH];
    intros result2 Hp2; inversion Hp2 as [|? m2 ? result2' (Hn2 & _) Hrest];
    subst; auto.
  f_equal; [congruence | now apply IH].
Qed.

(** C9.  The matching stage is deterministic.  Two calls on the same
    entries and query have the same outcome.  More than that: for a query
    with a normal form that is not empty and titles without NUL, the
    ordered output is the one ranked answer there is, the entries that
    have a score, all of them, by descending score and, among equal
    scores, by descending position in the snapshot; this order is total,
    so that nothing of how [sort.Stable] proceeds (its blocks, its merges)
    shows in the output.  And with the empty query the stage returns the
    entries as they are, so that the response lists them unchanged, in
    their order. *)
Theorem matcher_deterministic_and_identity (E : list Movie) (q : gostring) :
  (forall out1 out2,
     apply_query E q = out1 -> apply_query E q = out2 -> out1 = out2) /\
  (cleanQuery q <> [] ->
   nul_free_titles E ->
   exists result ranked,
     apply_query E q = Some result /\
     ranked_answer E (cleanQuery q) ranked result /\
     forall result' ranked',
       ranked_answer E (cleanQuery q) ranked' result' ->
       ranked' = ranked /\ result' = result) /\
  apply_query E [] = Some E /\
  (forall city,
     respond city E [] = StatusOK city E (Z.of_nat (List.length E))).
Proof.
  split; [|split; [|split]].
  - intros out1 out2 <- <-. reflexivity.
  - intros Hne Hnul.
    assert (apply_query E q = fuzzySearchMovies E (cleanQuery q)) as ->.
    { unfold apply_query. destruct (gostring_eqb q []) eqn:Eq; auto.
      apply gostring_eqb_eq in Eq. subst q. now contradiction Hne. }
    destruct (fuzzySearchMovies_found E (cleanQuery q) Hne Hnul)
      as (ms & result & Hresult & Hpick & Hranked & Hcomplete).
    assert (ranked_answer E (cleanQuery q) (map rank_of ms) result) as Hanswer.
    { split; [|split].
      - clear Hresult Hranked Hcomplete.
        induction Hpick as [|m movie ms result (Hn & Hs & _) _ IH]; simpl;
          constructor; auto.
      - clear Hresult Hpick Hcomplete.
        induction Hranked as [|m ms Hms IH Hm]; simpl; constructor; auto.
        apply Forall_forall. intros r Hr.
        apply in_map_iff in Hr as (m' & <- & Hm').
        rewrite Forall_forall in Hm. apply (Hm m' Hm').
      - intros i movie Hi Hscore.
        destruct (Hcomplete i movie Hi Hscore) as (m & Hm & Hidx).
        rewrite map_map. apply in_map_iff. exists m. auto. }
    exists result, (map rank_of ms). split; [exact Hresult|].
    split; [exact Hanswer|].
    intros result' ranked' Hother.
    exact (ranked_answer_unique _ _ _ _ _ _ Hother Hanswer).
  - reflexivity.
  - reflexivity.
Qed.


End MatcherClaims.

(* ------------------------------------------------------------------ *)
(** ** Concrete runs of the matcher *)
(* ------------------------------------------------------------------ *)

Lemma ascii_literal_nul_free_saw : nul_free_titles [saw_x; saw_3].
Proof.
  repeat constructor; intros H; simpl in H;
    repeat (destruct H as [H|H]; [discriminate|]); exact H.
Defined.

(** C6.  The code at the inputs on which it departs from the claim.
    Entries with the same score come out in the reverse of their snapshot
    order, not in that order: [Less] of [fuzzy.Matches] compares with
    [>=], so that [sort.Stable] takes equal scores for out of order.  It
    is so for two titles of equal score and for two entries with the same
    title.  And a title with a NUL after an "a" is returned for the query
    "ab", which it does not hold: the scan of [fuzzy.Find] takes the NUL
    that it reads behind the end of the pattern's runes for a match. *)
Lemma equal_scores_come_out_reversed :
  match_score (tables := ascii_tables) (str "saw") (Title saw_x)
  = match_score (tables := ascii_tables) (str "saw") (Title saw_3) /\
  fuzzySearchMovies (tables := ascii_tables) [saw_x; saw_3] (str "saw")
  = Some [saw_3; saw_x] /\
  fuzzySearchMovies (tables := ascii_tables) [ballerina_2d; ballerina_3d]
    (str "balerina")
  = Some [ballerina_3d; ballerina_2d] /\
  fuzzySearchMovies (tables := ascii_tables) [movie_nul] (str "ab")
  = Some [movie_nul].
Proof. vm_compute. repeat split. Qed.

(** X21 on two titles of equal score. *)
Lemma fuzzy_search_excludes_and_ranks_witness :
  exists (result : list Movie) (ranked : list (nat * Z)),
    fuzzySearchMovies (tables := ascii_tables) [saw_x; saw_3] (str "saw")
    = Some result /\
    Forall2 (fun r movie =>
               nth_error [saw_x; saw_3] (fst r) = Some movie /\
               match_score (tables := ascii_tables) (str "saw") (Title movie)
               = Some (snd r) /\
               fold_subseq (tables := ascii_tables) (str "saw") (Title movie))
      ranked result /\
    StronglySorted rank_order ranked /\
    (forall i movie,
       nth_error [saw_x; saw_3] i = Some movie ->
       match_score (tables := ascii_tables) (str "saw") (Title movie) <> None ->
       In i (map fst ranked)).
Proof.
  apply (@fuzzy_search_excludes_and_ranks ascii_tables [saw_x; saw_3]
           (str "saw")).
  - discriminate.
  - exact ascii_literal_nul_free_saw.
Defined.

(** C9 on two entries of equal score, with the query "saw". *)
Lemma matcher_deterministic_and_identity_witness :
  cleanQuery (tables := ascii_tables) (str "saw") <> [] /\
  nul_free_titles [saw_x; saw_3] /\
  exists result ranked,
    apply_query (tables := ascii_tables) [saw_x; saw_3] (str "saw")
    = Some result /\
    ranked_answer (tables := ascii_tables) [saw_x; saw_3]
      (cleanQuery (tables := ascii_tables) (str "saw")) ranked result /\
    forall result' ranked',
      ranked_answer (tables := ascii_tables) [saw_x; saw_3]
        (cleanQuery (tables := ascii_tables) (str "saw")) ranked' result' ->
      ranked' = ranked /\ result' = result.
Proof.
  assert (cleanQuery (tables := ascii_tables) (str "saw") <> []) as Hne
    by discriminate.
  split; [exact Hne|]. split; [exact ascii_literal_nul_free_saw|].
  exact (proj1 (proj2 (@matcher_deterministic_and_identity ascii_tables
                         [saw_x; saw_3] (str "saw")))
           Hne ascii_literal_nul_free_saw).
Defined.



(* ================================================================== *)
(** * Further properties: normalisation *)
(* ================================================================== *)

Lemma trim_left_spec (s : gostring) :
  exists pre, s = pre ++ trim_left s /\
    Forall (fun r => unicode_IsSpace r = true) pre /\
    (forall r t, trim_left s = r :: t -> unicode_IsSpace r = false).
Proof.
  induction s as [|c s (pre & Hs & Hpre & Hhead)]; simpl.
  - exists []. repeat split; [constructor | discriminate].
  - destruct (unicode_IsSpace c) eqn:E.
    + exists (c :: pre). split; [simpl; congruence|]. split; auto.
    + exists []. split; [reflexivity|]. split; [constructor|].
      intros r t H. injection H as <- _. exact E.
Qed.

Lemma trim_left_fixed (r : rune) (t : gostring) :
  unicode_IsSpace r = false -> trim_left (r :: t) = r :: t.
Proof. intros H. simpl. now rewrite H. Qed.

Lemma trim_right_spec (s : gostring) :
  exists suf, s = trim_right s ++ suf /\
    Forall (fun r => unicode_IsSpace r = true) suf /\
    (forall t r, trim_right s = t ++ [r] -> unicode_IsSpace r = false).
Proof.
  unfold trim_right.
  destruct (trim_left_spec (rev s)) as (pre & Hs & Hpre & Hhead).
  exists (rev pre). split; [|split].
  - rewrite <- rev_app_distr, <- Hs. now rewrite rev_involutive.
  - apply Forall_rev. exact Hpre.
  - intros t r H. apply (Hhead r (rev t)).
    rewrite <- (rev_involutive (trim_left (rev s))), H, rev_app_distr.
    reflexivity.
Qed.

Lemma trim_right_fixed (t : gostring) (r : rune) :
  unicode_IsSpace r = false -> trim_right (t ++ [r]) = t ++ [r].
Proof.
  intros H. unfold trim_right. rewrite rev_app_distr. simpl rev at 2.
  simpl app. rewrite trim_left_fixed by exact H.
  simpl. now rewrite rev_involutive.
Qed.

(** [strings.TrimSpace] returns a string that neither starts nor ends with
    white space, and leaves such a string as it is. *)
Lemma TrimSpace_trimmed (s : gostring) :
  (forall r t, strings_TrimSpace s = r :: t -> unicode_IsSpace r = false) /\
  (forall t r, strings_TrimSpace s = t ++ [r] -> unicode_IsSpace r = false).
Proof.
  unfold strings_TrimSpace.
  destruct (trim_left_spec s) as (pre & _ & _ & Hhead).
  destruct (trim_right_spec (trim_left s)) as (suf & Hs & _ & Hlast).
  split; [|exact Hlast].
  intros r t H. rewrite H in Hs. apply (Hhead r ((t ++ suf))). exact Hs.
Qed.

Lemma TrimSpace_fixed (s : gostring) :
  (forall r t, s = r :: t -> unicode_IsSpace r = false) ->
  (forall t r, s = t ++ [r] -> unicode_IsSpace r = false) ->
  strings_TrimSpace s = s.
Proof.
  intros Hhead Hlast. unfold strings_TrimSpace.
  destruct s as [|r t]; [reflexivity|].
  rewrite trim_left_fixed by (eapply Hhead; reflexivity).
  destruct (exists_last (l := r :: t)) as (t' & r' & E); [discriminate|].
  rewrite E. apply trim_right_fixed. eapply Hlast. exact E.
Qed.

Lemma TrimSpace_incl (s : gostring) (r : rune) :
  In r (strings_TrimSpace s) -> In r s.
Proof.
  unfold strings_TrimSpace. intros H.
  destruct (trim_left_spec s) as (pre & Hs & _).
  destruct (trim_right_spec (trim_left s)) as (suf & Ht & _).
  rewrite Hs, Ht. apply in_or_app. right. apply in_or_app. now left.
Qed.

Lemma TrimSpace_blank (s : gostring) :
  Forall (fun r => unicode_IsSpace r = true) s -> strings_TrimSpace s = [].
Proof.
  intros H. unfold strings_TrimSpace.
  assert (trim_left s = []) as ->.
  { induction H as [|r s Hr _ IH]; simpl; auto. now rewrite Hr. }
  reflexivity.
Qed.

Lemma ReplaceAll1_gone (s : gostring) (old new : rune) :
  old <> new -> ~ In old (strings_ReplaceAll1 s old new).
Proof.
  intros Hne H. unfold strings_ReplaceAll1 in H.
  apply in_map_iff in H as (r & Hr & _).
  unfold rune_eqb in Hr. destruct (Z.eqb_spec r old); congruence.
Qed.

Lemma ReplaceAll1_absent (s : gostring) (old new : rune) :
  ~ In old s -> strings_ReplaceAll1 s old new = s.
Proof.
  unfold strings_ReplaceAll1. induction s as [|r s IH]; simpl; intros H; auto.
  unfold rune_eqb at 1. destruct (Z.eqb_spec r old) as [->|_]; [tauto|].
  rewrite IH; tauto.
Qed.

Section NormalisationFacts.
Context {tables : GoTables}.

Lemma UnescapeString_no_amp (s : gostring) :
  ~ In AMP s -> html_UnescapeString s = s.
Proof.
  intros H. unfold html_UnescapeString.
  destruct (existsb (rune_eqb AMP) s) eqn:E; auto.
  apply existsb_exists in E as (r & Hr & Heq).
  unfold rune_eqb in Heq. apply Z.eqb_eq in Heq. subst r. contradiction.
Qed.

Lemma cleanQuery_normalised (query : gostring) : normalised (cleanQuery query).
Proof.
  unfold normalised, cleanQuery. cbv zeta. split; [|apply TrimSpace_trimmed].
  intros r Hr ->. apply TrimSpace_incl in Hr.
  revert Hr. apply ReplaceAll1_gone. discriminate.
Qed.

Lemma cleanQuery_blank (query : gostring) :
  Forall (fun r => unicode_IsSpace r = true) query -> cleanQuery query = [].
Proof.
  intros H. unfold cleanQuery. cbv zeta.
  rewrite UnescapeString_no_amp.
  - apply TrimSpace_blank. unfold strings_ReplaceAll1.
    induction H as [|r s Hr _ IH]; simpl; constructor; auto.
    destruct (rune_eqb r NBSP); auto.
  - intros Hin. rewrite Forall_forall in H. apply H in Hin. discriminate.
Qed.

Lemma cleanQuery_nil : cleanQuery [] = [].
Proof. reflexivity. Qed.

Lemma fuzzySearchMovies_empty_query (movies : list Movie) :
  fuzzySearchMovies movies [] = Some [].
Proof. destruct movies; reflexivity. Qed.

(** X1.  Whatever the input and whatever the entity decoder does, the
    string that [cleanQuery] returns holds no non-breaking space (U+00A0)
    and neither starts nor ends with a white-space rune. *)
Theorem cleanQuery_returns_a_normalised_string (query : gostring) :
  (forall r, In r (cleanQuery query) -> r <> NBSP) /\
  (forall r t, cleanQuery query = r :: t -> unicode_IsSpace r = false) /\
  (forall t r, cleanQuery query = t ++ [r] -> unicode_IsSpace r = false).
Proof.
  unfold cleanQuery. cbv zeta. split.
  - (* the replacement leaves no U+00A0, and trimming adds none *)
    intros r Hr ->. apply TrimSpace_incl in Hr.
    revert Hr. apply ReplaceAll1_gone. discriminate.
  - (* the last step is the trimming *)
    apply TrimSpace_trimmed.
Qed.

(** X2.  Normalising twice is normalising once, as long as the normalised
    string holds no ampersand (with one, [html.UnescapeString] may decode
    a second time, as in "&amp;amp;"). *)
Theorem cleanQuery_idempotent (query : gostring) :
  ~ In AMP (cleanQuery query) ->
  cleanQuery (cleanQuery query) = cleanQuery query.
Proof.
  intros Hamp.
  destruct (cleanQuery_normalised query) as (Hnbsp & Hhead & Hlast).
  set (q := cleanQuery query) in *.
  unfold cleanQuery. cbv zeta.
  rewrite UnescapeString_no_amp by exact Hamp.
  rewrite ReplaceAll1_absent by (intros H; now apply (Hnbsp NBSP H)).
  apply TrimSpace_fixed; intros; subst; eauto.
Qed.

(** X3.  A query that is not empty but is white space only is not the
    empty query for the guard of [getMovies]: it is normalised to the
    empty pattern, for which [fuzzy.Find] returns no match.  Unless the
    request fails on its extraction, the answer is 200 with no entry and
    count 0, whatever the snapshot holds. *)
Theorem blank_query_selects_nothing (env : Env) (req : Request) (db : Table) :
  query_of req <> [] ->
  Forall (fun r => unicode_IsSpace r = true) (query_of req) ->
  snd (fst (getMovies env req db)) = StatusOK (city_of req) [] 0 \/
  (cache_miss env req db /\ exists e, env_run env = RunErr e).
Proof.
  intros Hne Hblank.
  assert (forall movies, respond (city_of req) movies (query_of req)
                         = StatusOK (city_of req) [] 0) as Hrespond.
  { intros movies. unfold respond, apply_query.
    destruct (gostring_eqb (query_of req) []) eqn:E.
    - apply gostring_eqb_eq in E. contradiction.
    - simpl. rewrite (cleanQuery_blank _ Hblank).
      now rewrite fuzzySearchMovies_empty_query. }
  destruct (cache_miss_dec env req db) as [Hmiss|Hhit].
  - rewrite (getMovies_miss env req db Hmiss).
    destruct (env_run env) as [e|links] eqn:Erun; simpl.
    + right. eauto.
    + left. apply Hrespond.
  - rewrite (getMovies_hit env req db Hhit). simpl. left. apply Hrespond.
Qed.

End NormalisationFacts.

(* ================================================================== *)
(** * Further properties: the cache store *)
(* ================================================================== *)

(** X4.  What a read returns.  The rows that the query selects are the
    rows of the city that are younger than 24 hours, all of them and no
    other row, the most recent first (the order among rows of one time
    stamp is the one the database gives them in this read).  A read that
    succeeds returns the entries of all these rows and no error; when the
    query or a scan fails it returns nothing and the error; when the
    iteration breaks off after [k] rows it returns the entries of the
    first [k] rows and the error. *)
Theorem read_returns_fresh_rows_newest_first (fault : ReadFault)
    (ties : list nat) (now : Z) (city : gostring) (db : Table) :
  exists rows,
    Permutation rows (filter (where_fresh now city) db) /\
    Forall (fun r => In r db /\ row_city r = city /\
                     now - scraped_at r < window) rows /\
    newest_first rows /\
    getMoviesFromDB fault ties now city db
    = match fault with
      | ReadOk => (map movie_of_row rows, None)
      | QueryFails e => ([], Some e)
      | ScanFails e => ([], Some e)
      | RowsErr k e => (map movie_of_row (firstn k rows), Some e)
      end.
Proof.
  exists (order_by_scraped_at_desc ties (filter (where_fresh now city) db)).
  split; [apply Permutation_sym, order_by_perm|].
  split; [|split; [apply order_by_admits|]].
  - apply Forall_forall. intros r Hr.
    apply (Permutation_in _ (Permutation_sym (order_by_perm _ _))) in Hr.
    apply filter_In in Hr as [Hin Hw]. apply where_fresh_spec in Hw. tauto.
  - destruct fault; reflexivity.
Qed.

(** Every order of the fresh rows that has the most recent first is the
    order of some read. *)
Lemma read_order_is_the_databases now city db target :
  Permutation target (filter (where_fresh now city) db) ->
  newest_first target ->
  exists ties,
    getMoviesFromDB ReadOk ties now city db = (map movie_of_row target, None).
Proof.
  intros Hperm Hsorted.
  destruct (order_by_reaches target _ Hperm Hsorted) as (ties & E).
  exists ties. unfold getMoviesFromDB. now rewrite E.
Qed.

Lemma read_expired rf ties tx_time now city movies db :
  window <= now - tx_time ->
  fst (getMoviesFromDB rf ties now city
         (delete_city city db ++ map (row_of tx_time city) movies)) = [].
Proof.
  intros Hold. apply read_stale_empty. intros (r & Hr & Hc & Ht).
  apply in_app_or in Hr as [Hr|Hr].
  - apply delete_city_spec in Hr. tauto.
  - apply in_map_iff in Hr as (m & <- & _). simpl in Ht. lia.
Qed.

(** X7.  Save, then read.  Entries with pairwise distinct links that fit
    the columns are saved when no statement of the transaction fails;
    from then on, and for 24 hours, a read that succeeds returns exactly
    these entries, each as often as it was saved, in an order chosen by
    the database (the rows of one transaction carry one time stamp, so
    [ORDER BY scraped_at DESC] leaves their order open); after 24 hours
    every read returns nothing. *)
Theorem save_then_read_round_trip (tx_time : Z) (city : gostring)
    (movies : list Movie) (db : Table) :
  NoDup (map Href movies) ->
  Forall (fits_columns city) movies ->
  exists db',
    saveMoviesToDB NoFault tx_time city movies db = (db', None) /\
    forall ties now,
      (now - tx_time < window ->
       exists served,
         getMoviesFromDB ReadOk ties now city db' = (served, None) /\
         Permutation movies served) /\
      (window <= now - tx_time ->
       forall fault, fst (getMoviesFromDB fault ties now city db') = []).
Proof.
  intros Hnd _. eexists. split; [apply save_distinct; exact Hnd|].
  intros ties now. split.
  - apply read_after_save.
  - intros Hold fault. now apply read_expired.
Qed.

Lemma unique_rows_delete city db :
  unique_rows db -> unique_rows (delete_city city db).
Proof.
  unfold unique_rows, delete_city. induction db as [|r db IH]; simpl; auto.
  intros H. inversion H as [|? ? Hr Hdb]; subst.
  destruct (negb _); simpl; auto. constructor; auto.
  intros Hin. apply Hr. apply in_map_iff in Hin as (r' & E & Hr').
  apply filter_In in Hr' as [Hr' _]. apply in_map_iff. eauto.
Qed.

Lemma unique_rows_insert tx_time city movie tx tx' :
  unique_rows tx -> insert_movie tx_time city movie tx = inl tx' ->
  unique_rows tx'.
Proof.
  unfold insert_movie, unique_rows. intros Htx H.
  destruct (violates_unique city (Href movie) tx) eqn:E; [discriminate|].
  injection H as <-. rewrite map_app. simpl.
  eapply Permutation_NoDup; [apply Permutation_cons_append|].
  constructor; auto.
  intros Hin. apply in_map_iff in Hin as (r & Er & Hr).
  injection Er as Ec Eh.
  assert (violates_unique city (Href movie) tx = true); [|congruence].
  apply violates_unique_spec. eauto.
Qed.

Lemma unique_rows_insert_all fault tx_time city movies : forall k tx tx',
  unique_rows tx -> insert_all fault tx_time city k movies tx = inl tx' ->
  unique_rows tx'.
Proof.
  induction movies as [|m movies IH]; intros k tx tx' Htx H; simpl in H.
  - now injection H as <-.
  - destruct (insert_error fault k); [discriminate|].
    destruct (insert_movie tx_time city m tx) as [tx1|e] eqn:E; [|discriminate].
    eapply IH; [|exact H]. eapply unique_rows_insert; eauto.
Qed.

Lemma save_keeps_unique fault tx_time city movies db :
  unique_rows db ->
  unique_rows (fst (saveMoviesToDB fault tx_time city movies db)).
Proof.
  intros Hdb. unfold saveMoviesToDB.
  destruct (begin_error fault); [exact Hdb|].
  destruct (delete_error fault); [exact Hdb|].
  destruct (insert_all fault tx_time city 0 movies (delete_city city db))
    as [tx|e] eqn:E; [|exact Hdb].
  destruct (commit_error fault); [exact Hdb|]. simpl.
  eapply unique_rows_insert_all; [|exact E]. now apply unique_rows_delete.
Qed.

Lemma delete_city_idem city db :
  delete_city city (delete_city city db) = delete_city city db.
Proof.
  unfold delete_city. induction db as [|r db IH]; simpl; auto.
  destruct (negb _) eqn:E; simpl; [rewrite E|]; now rewrite IH.
Qed.

Lemma delete_city_own_rows tx_time city movies :
  delete_city city (map (row_of tx_time city) movies) = [].
Proof.
  unfold delete_city. induction movies as [|m movies IH]; simpl; auto.
  now rewrite gostring_eqb_refl.
Qed.

Lemma delete_city_comm c c' db :
  delete_city c (delete_city c' db) = delete_city c' (delete_city c db).
Proof.
  unfold delete_city. induction db as [|r db IH]; simpl; auto.
  destruct (gostring_eqb (row_city r) c) eqn:E;
    destruct (gostring_eqb (row_city r) c') eqn:E'; simpl;
    rewrite ?E, ?E'; simpl; rewrite IH; reflexivity.
Qed.

(** A replace leaves the rows of the other cities alone, whatever its
    outcome. *)
Lemma save_frame fault tx_time city movies db :
  delete_city city (fst (saveMoviesToDB fault tx_time city movies db))
  = delete_city city db.
Proof.
  destruct (save_outcome fault tx_time city movies db) as [[e ->]| ->]; auto.
  simpl. unfold delete_city at 1. rewrite filter_app.
  fold (delete_city city (delete_city city db)).
  fold (delete_city city (map (row_of tx_time city) movies)).
  now rewrite delete_city_idem, delete_city_own_rows, app_nil_r.
Qed.

Lemma where_fresh_city_rows now city db :
  filter (where_fresh now city) (city_rows city db)
  = filter (where_fresh now city) db.
Proof.
  unfold city_rows. induction db as [|r db IH]; simpl; auto.
  unfold where_fresh at 2 4.
  destruct (gostring_eqb (row_city r) city) eqn:E; simpl.
  - unfold where_fresh at 1. rewrite E. simpl. now rewrite IH.
  - exact IH.
Qed.

(** A read sees the rows of its city only. *)
Lemma read_city_rows fault ties now city db :
  getMoviesFromDB fault ties now city (city_rows city db)
  = getMoviesFromDB fault ties now city db.
Proof. unfold getMoviesFromDB. now rewrite where_fresh_city_rows. Qed.

Lemma city_rows_delete city db : city_rows city (delete_city city db) = [].
Proof.
  unfold city_rows, delete_city. induction db as [|r db IH]; simpl; auto.
  destruct (gostring_eqb (row_city r) city) eqn:E; simpl; auto.
  now rewrite E.
Qed.

Lemma city_rows_delete_other c c' db :
  c <> c' -> city_rows c (delete_city c' db) = city_rows c db.
Proof.
  intros Hne. unfold city_rows, delete_city.
  induction db as [|r db IH]; simpl; auto.
  destruct (gostring_eqb (row_city r) c') eqn:E'; simpl.
  - apply gostring_eqb_eq in E'.
    destruct (gostring_eqb (row_city r) c) eqn:E; auto.
    apply gostring_eqb_eq in E. congruence.
  - now rewrite IH.
Qed.

Lemma city_rows_own tx_time city movies :
  city_rows city (map (row_of tx_time city) movies)
  = map (row_of tx_time city) movies.
Proof.
  unfold city_rows. induction movies as [|m movies IH]; simpl; auto.
  now rewrite gostring_eqb_refl, IH.
Qed.

Lemma city_rows_app city a b :
  city_rows city (a ++ b) = city_rows city a ++ city_rows city b.
Proof. apply filter_app. Qed.

Lemma violates_unique_city_rows city href tx :
  violates_unique city href (city_rows city tx) = violates_unique city href tx.
Proof.
  unfold violates_unique, city_rows. induction tx as [|r tx IH]; simpl; auto.
  destruct (gostring_eqb (row_city r) city) eqn:E; simpl.
  - now rewrite E, IH.
  - exact IH.
Qed.

(** The inserts see only the rows of the city. *)
Lemma insert_all_city_rows fault tx_time city movies : forall k tx1 tx2,
  city_rows city tx1 = city_rows city tx2 ->
  match insert_all fault tx_time city k movies tx1,
        insert_all fault tx_time city k movies tx2 with
  | inl tx1', inl tx2' => city_rows city tx1' = city_rows city tx2'
  | inr e1, inr e2 => e1 = e2
  | _, _ => False
  end.
Proof.
  induction movies as [|m movies IH]; intros k tx1 tx2 H; simpl; auto.
  destruct (insert_error fault k); auto.
  unfold insert_movie.
  rewrite <- (violates_unique_city_rows city (Href m) tx1).
  rewrite <- (violates_unique_city_rows city (Href m) tx2). rewrite H.
  destruct (violates_unique city (Href m) (city_rows city tx2)); auto.
  apply IH. rewrite !city_rows_app. now rewrite H.
Qed.

(** The outcome of a replace does not depend on the table it starts
    from, and the rows of the city after it are the new ones or those that
    were there. *)
Lemma save_error_any_table fault tx_time city movies db1 db2 :
  snd (saveMoviesToDB fault tx_time city movies db1)
  = snd (saveMoviesToDB fault tx_time city movies db2) /\
  city_rows city (fst (saveMoviesToDB fault tx_time city movies db1))
  = match snd (saveMoviesToDB fault tx_time city movies db1) with
    | None => map (row_of tx_time city) movies
    | Some _ => city_rows city db1
    end.
Proof.
  split.
  - unfold saveMoviesToDB.
    destruct (begin_error fault); auto. destruct (delete_error fault); auto.
    pose proof (insert_all_city_rows fault tx_time city movies 0
                  (delete_city city db1) (delete_city city db2)) as H.
    rewrite !city_rows_delete in H. specialize (H eq_refl).
    destruct (insert_all _ _ _ _ _ (delete_city city db1));
      destruct (insert_all _ _ _ _ _ (delete_city city db2));
      try contradiction; simpl; [|congruence].
    destruct (commit_error fault); auto.
  - destruct (save_outcome fault tx_time city movies db1) as [[e ->]| ->];
      simpl; auto.
    now rewrite city_rows_app, city_rows_delete, city_rows_own.
Qed.

(* ================================================================== *)
(** * Further properties: the extractor and the request handler *)
(* ================================================================== *)

Section HandlerFacts.
Context {tables : GoTables}.

Lemma movies_of_links_linked (links : list Link) :
  Forall (fun m => Href m <> [] /\ normalised (Title m)) (movies_of_links links).
Proof.
  induction links as [|link links IH]; simpl; [constructor|].
  destruct (gostring_eqb (link_href link) []) eqn:E; simpl; auto.
  constructor; auto. simpl. split.
  - intros H. rewrite H in E. discriminate.
  - apply cleanQuery_normalised.
Qed.

(** X13.  What [scrapeMovies] returns: on a failed browser run no entry,
    with the error; otherwise at most one entry per link of the page,
    each with a link that is not empty and a normalised title; and when
    every link of the page has an [href], one entry per link, in the order
    of the page. *)
Theorem extracted_entries_are_linked_and_normalised (run : RunOutcome) :
  Forall (fun m => Href m <> [] /\ normalised (Title m))
    (fst (scrapeMovies run)) /\
  (forall e, run = RunErr e -> scrapeMovies run = ([], Some e)) /\
  (forall links,
     run = RunOk links ->
     snd (scrapeMovies run) = None /\
     (List.length (fst (scrapeMovies run)) <= List.length links)%nat /\
     (Forall (fun link => link_href link <> []) links ->
      map Href (fst (scrapeMovies run)) = map link_href links)).
Proof.
  split; [|split].
  - destruct run as [e|links]; simpl; [constructor|].
    apply movies_of_links_linked.
  - intros e ->. reflexivity.
  - intros links ->. simpl. split; [reflexivity|]. split.
    + induction links as [|link links IH]; simpl; auto.
      destruct (negb _); simpl; lia.
    + induction 1 as [|link links Hlink _ IH]; simpl; auto.
      destruct (gostring_eqb (link_href link) []) eqn:E.
      * apply gostring_eqb_eq in E. contradiction.
      * simpl. now rewrite IH.
Qed.

(** X5.  A read that breaks off after [k >= 1] rows returns these rows
    with its error; [getMovies] logs the error and, the list not being
    empty, serves the [k] rows as the cached listing: no extraction, no
    write, a 200 with a truncated list. *)
Theorem broken_read_serves_what_it_read (env : Env) (req : Request)
    (db : Table) (k : nat) (e : error) :
  env_read env = RowsErr k e ->
  (0 < k)%nat ->
  holds_fresh (env_now env) (city_of req) db ->
  getMovies env req db
  = (db,
     respond (city_of req)
       (firstn k (fst (getMoviesFromDB ReadOk (env_ties env) (env_now env)
                         (city_of req) db)))
       (query_of req),
     []).
Proof.
  intros Hread Hk Hfresh.
  assert (fst (getMoviesFromDB (env_read env) (env_ties env) (env_now env)
                 (city_of req) db)
          = firstn k (fst (getMoviesFromDB ReadOk (env_ties env) (env_now env)
                             (city_of req) db)))
    as Hfst.
  { rewrite Hread. simpl. now rewrite firstn_map. }
  assert (~ cache_miss env req db) as Hhit.
  { unfold cache_miss. rewrite Hfst. intros Hnil.
    apply (read_ok_nonempty (env_ties env)) in Hfresh.
    destruct (fst (getMoviesFromDB ReadOk _ _ _ _)); [contradiction|].
    destruct k; [lia|discriminate]. }
  rewrite (getMovies_hit env req db Hhit). now rewrite Hfst.
Qed.

(** X6.  A list in which two entries have the same link is never saved:
    the second of them violates [UNIQUE(city, href)], the transaction is
    rolled back and the table is as before, whatever else happens.  A
    request that extracts such a list still answers from it, and leaves
    the table as it was. *)
Theorem repeated_link_fails_replace (l1 l2 l3 : list Movie) (m1 m2 : Movie) :
  Href m1 = Href m2 ->
  (forall fault tx_time city db,
     exists e, saveMoviesToDB fault tx_time city (l1 ++ m1 :: l2 ++ m2 :: l3) db
               = (db, Some e)) /\
  (forall env req db links,
     cache_miss env req db ->
     env_run env = RunOk links ->
     movies_of_links links = l1 ++ m1 :: l2 ++ m2 :: l3 ->
     getMovies env req db
     = (db, respond (city_of req) (movies_of_links links) (query_of req),
        [Extraction (city_of req); CacheWrite (city_of req) false])).
Proof.
  intros Hdup. split.
  - intros. now apply save_duplicate.
  - intros env req db links Hmiss Hrun Hlinks.
    rewrite (getMovies_miss env req db Hmiss), Hrun. simpl. rewrite Hlinks.
    destruct (save_duplicate (env_save env) (env_tx_time env) (city_of req)
                l1 m1 l2 m2 l3 db Hdup) as (e & ->).
    reflexivity.
Qed.

(** X8.  Two invariants of the table that every request keeps, whatever
    the outside world does: no two rows with the same city and link, and
    every row with a link that is not empty and a normalised title. *)
Theorem getMovies_keeps_store_invariants (env : Env) (req : Request)
    (db : Table) :
  (unique_rows db -> unique_rows (fst (fst (getMovies env req db)))) /\
  (scraped_rows db -> scraped_rows (fst (fst (getMovies env req db)))).
Proof.
  destruct (cache_miss_dec env req db) as [Hmiss|Hhit].
  - rewrite (getMovies_miss env req db Hmiss).
    destruct (env_run env) as [e|links]; simpl; [tauto|]. split.
    + apply save_keeps_unique.
    + intros Hdb.
      destruct (save_outcome (env_save env) (env_tx_time env) (city_of req)
                  (movies_of_links links) db) as [[e ->]| ->]; [exact Hdb|].
      simpl. apply Forall_app. split.
      * apply Forall_forall. intros r Hr.
        apply delete_city_spec in Hr as [Hr _].
        unfold scraped_rows in Hdb. rewrite Forall_forall in Hdb. auto.
      * apply Forall_forall. intros r Hr.
        apply in_map_iff in Hr as (m & <- & Hin). simpl.
        pose proof (movies_of_links_linked links) as H.
        rewrite Forall_forall in H. auto.
  - rewrite (getMovies_hit env req db Hhit). simpl. tauto.
Qed.

(** X9.  A request never touches the rows of another city: they are in
    the table after the request as they were before it, in their order. *)
Theorem request_touches_its_city_only (env : Env) (req : Request) (db : Table) :
  delete_city (city_of req) (fst (fst (getMovies env req db)))
  = delete_city (city_of req) db.
Proof.
  destruct (cache_miss_dec env req db) as [Hmiss|Hhit].
  - rewrite (getMovies_miss env req db Hmiss).
    destruct (scrapeMovies (env_run env)) as [movies [err|]]; simpl; auto.
    apply save_frame.
  - now rewrite (getMovies_hit env req db Hhit).
Qed.

(** X10.  A request is not influenced by the rows of another city: on
    two tables with the same rows for the city of the request it gives
    the same response, has the same effects and leaves the same rows for
    the city. *)
Theorem request_ignores_other_cities (env : Env) (req : Request)
    (db1 db2 : Table) :
  city_rows (city_of req) db1 = city_rows (city_of req) db2 ->
  snd (fst (getMovies env req db1)) = snd (fst (getMovies env req db2)) /\
  snd (getMovies env req db1) = snd (getMovies env req db2) /\
  city_rows (city_of req) (fst (fst (getMovies env req db1)))
  = city_rows (city_of req) (fst (fst (getMovies env req db2))).
Proof.
  intros Hrows.
  assert (forall fault ties now,
            getMoviesFromDB fault ties now (city_of req) db1
            = getMoviesFromDB fault ties now (city_of req) db2) as Hread.
  { intros fault ties now.
    rewrite <- (read_city_rows fault ties now (city_of req) db1).
    rewrite Hrows. apply read_city_rows. }
  destruct (cache_miss_dec env req db1) as [Hmiss|Hhit].
  - assert (cache_miss env req db2) as Hmiss2
      by (unfold cache_miss in *; now rewrite <- Hread).
    rewrite (getMovies_miss env req db1 Hmiss).
    rewrite (getMovies_miss env req db2 Hmiss2).
    destruct (scrapeMovies (env_run env)) as [movies [err|]]; simpl; auto.
    destruct (save_error_any_table (env_save env) (env_tx_time env)
                (city_of req) movies db1 db2) as [Herr Hrows1].
    destruct (save_error_any_table (env_save env) (env_tx_time env)
                (city_of req) movies db2 db1) as [_ Hrows2].
    rewrite Hrows1, Hrows2, <- Herr, Hrows.
    repeat split; auto.
  - assert (~ cache_miss env req db2) as Hhit2
      by (unfold cache_miss in *; now rewrite <- Hread).
    rewrite (getMovies_hit env req db1 Hhit).
    rewrite (getMovies_hit env req db2 Hhit2). simpl.
    now rewrite Hread.
Qed.

(** X11.  Refresh, then hit.  When a request finds nothing to serve,
    extracts at least one entry, the links being pairwise distinct and the
    entries fitting the columns, and no statement of the replace fails,
    then every request for the same city whose read succeeds within 24
    hours of the replace is served from the cache: no extraction, no
    write, and the entries it matches against are exactly the extracted
    ones, each as often as on the page, in an order chosen by the
    database. *)
Theorem refresh_then_hit (env1 env2 : Env) (req1 req2 : Request) (db : Table)
    (links : list Link) :
  cache_miss env1 req1 db ->
  env_run env1 = RunOk links ->
  movies_of_links links <> [] ->
  NoDup (map Href (movies_of_links links)) ->
  Forall (fits_columns (city_of req1)) (movies_of_links links) ->
  env_save env1 = NoFault ->
  city_of req2 = city_of req1 ->
  env_read env2 = ReadOk ->
  env_now env2 - env_tx_time env1 < window ->
  let db1 := fst (fst (getMovies env1 req1 db)) in
  exists served,
    Permutation (movies_of_links links) served /\
    getMovies env2 req2 db1
    = (db1, respond (city_of req1) served (query_of req2), []).
Proof.
  intros Hmiss Hrun Hne Hnd _ Hsave Hcity Hread Hwin db1.
  assert (db1 = delete_city (city_of req1) db
                ++ map (row_of (env_tx_time env1) (city_of req1))
                     (movies_of_links links)) as Hdb1.
  { unfold db1. rewrite (getMovies_miss env1 req1 db Hmiss), Hrun. simpl.
    rewrite Hsave, save_distinct by exact Hnd. reflexivity. }
  destruct (read_after_save (env_tx_time env1) (env_ties env2) (env_now env2)
              (city_of req1) (movies_of_links links) db Hwin)
    as (served & Hget & Hperm).
  rewrite <- Hdb1, <- Hcity, <- Hread in Hget.
  exists served. split; [exact Hperm|].
  assert (~ cache_miss env2 req2 db1) as Hhit.
  { unfold cache_miss. rewrite Hget. simpl. intros ->.
    apply Permutation_sym, Permutation_nil in Hperm. contradiction. }
  rewrite (getMovies_hit env2 req2 db1 Hhit), Hget, Hcity. reflexivity.
Qed.

(** X12.  The answers of [getMovies].  It is the 500 of a failed
    extraction exactly when the read found nothing to serve and the
    browser run failed: a failing read, a failing replace, an empty
    listing and an empty selection never fail a request.  A 200 names the
    city of the request, and its count is the number of its entries.
    With no NUL in the titles at hand the handler does not panic. *)
Theorem response_is_500_only_for_a_failed_extraction (env : Env)
    (req : Request) (db : Table) :
  (forall message,
     snd (fst (getMovies env req db)) = StatusInternalServerError message <->
     cache_miss env req db /\
     exists e, env_run env = RunErr e /\
               message = str "Failed to scrape movies: " ++ e) /\
  (forall city movies count,
     snd (fst (getMovies env req db)) = StatusOK city movies count ->
     city = city_of req /\ count = Z.of_nat (List.length movies)) /\
  (nul_free_titles
     (fst (getMoviesFromDB (env_read env) (env_ties env) (env_now env)
             (city_of req) db)) ->
   nul_free_titles (fst (scrapeMovies (env_run env))) ->
   snd (fst (getMovies env req db)) <> Panicked).
Proof.
  assert (forall movies msg,
            respond (city_of req) movies (query_of req)
            <> StatusInternalServerError msg) as Hr.
  { intros movies msg. unfold respond.
    destruct (apply_query movies (query_of req)); discriminate. }
  assert (forall movies city served count,
            respond (city_of req) movies (query_of req)
            = StatusOK city served count ->
            city = city_of req /\ count = Z.of_nat (List.length served)) as Hok.
  { intros movies city served count. unfold respond.
    destruct (apply_query movies (query_of req)); [|discriminate].
    intros H. injection H as <- <- <-. auto. }
  assert (forall movies,
            nul_free_titles movies ->
            respond (city_of req) movies (query_of req) <> Panicked) as Hp.
  { intros movies Hnul. unfold respond.
    destruct (apply_query_total movies (query_of req) Hnul) as (served & ->).
    discriminate. }
  destruct (cache_miss_dec env req db) as [Hmiss|Hhit].
  - rewrite (getMovies_miss env req db Hmiss).
    destruct (env_run env) as [e|links] eqn:Erun; simpl.
    + split; [|split; [discriminate|discriminate]].
      intros message. split.
      * intros H. injection H as <-. eauto.
      * intros (_ & e' & He' & ->). congruence.
    + split; [|split; [apply Hok|intros _; apply Hp]].
      intros message. split.
      * intros H. now apply Hr in H.
      * intros (_ & e' & He' & _). discriminate.
  - rewrite (getMovies_hit env req db Hhit). simpl.
    split; [|split; [apply Hok|intros Hnul _; now apply Hp]].
    intros message. split.
    + intros H. now apply Hr in H.
    + tauto.
Qed.

Lemma getMovies_other_city env req db c :
  c <> city_of req ->
  city_rows c (fst (fst (getMovies env req db))) = city_rows c db.
Proof.
  intros Hne.
  rewrite <- (city_rows_delete_other c (city_of req) _ Hne).
  rewrite <- (city_rows_delete_other c (city_of req) db Hne). f_equal.
  destruct (cache_miss_dec env req db) as [Hmiss|Hhit].
  - rewrite (getMovies_miss env req db Hmiss).
    destruct (scrapeMovies (env_run env)) as [movies [err|]]; simpl; auto.
    apply save_frame.
  - now rewrite (getMovies_hit env req db Hhit).
Qed.

(** With a snapshot taken at [t'] in the table, a read that succeeds and
    finds nothing comes 24 hours after [t'] or later. *)
Lemma miss_is_a_day_later env req db t :
  snapshot_since t (city_of req) db ->
  env_read env = ReadOk ->
  cache_miss env req db ->
  exists t' movies,
    t <= t' /\ movies <> [] /\
    city_rows (city_of req) db = map (row_of t' (city_of req)) movies /\
    window <= env_now env - t'.
Proof.
  intros (t' & movies & Ht & Hne & Hrows) Hread Hmiss.
  exists t', movies. repeat split; auto.
  destruct (Z_lt_le_dec (env_now env - t') window) as [Hfresh|]; [|assumption].
  exfalso. unfold cache_miss in Hmiss.
  rewrite Hread, <- read_city_rows, Hrows in Hmiss.
  destruct (read_after_save t' (env_ties env) (env_now env) (city_of req)
              movies [] Hfresh) as (served & E & Hperm).
  change (delete_city (city_of req) []
          ++ map (row_of t' (city_of req)) movies)
    with (map (row_of t' (city_of req)) movies) in E.
  rewrite E in Hmiss. simpl in Hmiss. subst served.
  apply Permutation_sym, Permutation_nil in Hperm. contradiction.
Qed.

Lemma step_keeps_snapshot env req db c t :
  (city_of req = c -> steady env) ->
  snapshot_since t c db ->
  snapshot_since t c (fst (fst (getMovies env req db))).
Proof.
  intros Hsteady Hsnap.
  destruct (gostring_eqb (city_of req) c) eqn:Ec.
  - apply gostring_eqb_eq in Ec. destruct (Hsteady Ec) as (Hread & Htime & Hrun).
    subst c.
    destruct (cache_miss_dec env req db) as [Hmiss|Hhit].
    + destruct (miss_is_a_day_later env req db t Hsnap Hread Hmiss)
        as (t' & movies & Ht & Hne & Hrows & Hlate).
      rewrite (getMovies_miss env req db Hmiss).
      destruct (env_run env) as [e|links] eqn:Erun; simpl; [exact Hsnap|].
      destruct (save_error_any_table (env_save env) (env_tx_time env)
                  (city_of req) (movies_of_links links) db db) as [_ Hafter].
      destruct (snd (saveMoviesToDB _ _ _ _ _)) as [e|].
      * exists t', movies. repeat split; auto. congruence.
      * exists (env_tx_time env), (movies_of_links links).
        split; [|split; [now apply Hrun | exact Hafter]].
        unfold window in Hlate. lia.
    + now rewrite (getMovies_hit env req db Hhit).
  - destruct Hsnap as (t' & movies & Ht & Hne & Hrows).
    exists t', movies. repeat split; auto.
    rewrite getMovies_other_city; auto.
    intros ->. now rewrite gostring_eqb_refl in Ec.
Qed.

Lemma serve_keeps_snapshot c t : forall requests db,
  Forall (fun er => city_of (snd er) = c -> steady (fst er)) requests ->
  snapshot_since t c db ->
  snapshot_since t c (serve requests db).
Proof.
  induction requests as [|[env req] requests IH]; intros db Hall Hsnap;
    simpl; auto.
  inversion Hall as [|? ? H Hrest]; subst.
  apply IH; auto. now apply step_keeps_snapshot.
Qed.

(** X20.  Extractions of one city are a day apart.  After a request has
    replaced the snapshot of its city by a listing that is not empty, and
    whatever requests are served in between (for other cities anything
    goes; for this city the read works, the transaction starts after the
    read and a page that is extracted lists an entry, while the browser
    run and the replace may fail), a request for the city whose read
    works extracts only if it comes 24 hours or more after the start of
    that replace. *)
Theorem extractions_are_a_day_apart (db : Table) (env1 env2 : Env)
    (req1 req2 : Request) (links : list Link)
    (between : list (Env * Request)) :
  env_run env1 = RunOk links ->
  movies_of_links links <> [] ->
  snd (getMovies env1 req1 db)
  = [Extraction (city_of req1); CacheWrite (city_of req1) true] ->
  Forall (fun er => city_of (snd er) = city_of req1 -> steady (fst er))
    between ->
  city_of req2 = city_of req1 ->
  env_read env2 = ReadOk ->
  In (Extraction (city_of req2))
    (snd (getMovies env2 req2
            (serve between (fst (fst (getMovies env1 req1 db)))))) ->
  window <= env_now env2 - env_tx_time env1.
Proof.
  intros Hrun Hne Heff Hbetween Hcity Hread Hextract.
  assert (snapshot_since (env_tx_time env1) (city_of req1)
            (fst (fst (getMovies env1 req1 db)))) as Hsnap.
  { exists (env_tx_time env1), (movies_of_links links).
    split; [lia|]. split; [exact Hne|].
    destruct (cache_miss_dec env1 req1 db) as [Hmiss|Hhit].
    - rewrite (getMovies_miss env1 req1 db Hmiss), Hrun in *. simpl in *.
      destruct (save_error_any_table (env_save env1) (env_tx_time env1)
                  (city_of req1) (movies_of_links links) db db) as [_ Hafter].
      destruct (snd (saveMoviesToDB _ _ _ _ _)); [discriminate|exact Hafter].
    - rewrite (getMovies_hit env1 req1 db Hhit) in Heff. discriminate. }
  apply (serve_keeps_snapshot _ _ between _ Hbetween) in Hsnap.
  set (db2 := serve between (fst (fst (getMovies env1 req1 db)))) in *.
  rewrite <- Hcity in Hsnap.
  destruct (cache_miss_dec env2 req2 db2) as [Hmiss|Hhit].
  - destruct (miss_is_a_day_later env2 req2 db2 _ Hsnap Hread Hmiss)
      as (t' & movies & Ht & _ & _ & Hlate).
    lia.
  - rewrite (getMovies_hit env2 req2 db2 Hhit) in Hextract. contradiction.
Qed.

End HandlerFacts.

(* ================================================================== *)
(** * Further properties: the matcher finds every occurrence *)
(* ================================================================== *)

Lemma skipn_nth_cons {A} (l : list A) (k : nat) (d : A) :
  (k < List.length l)%nat -> skipn k l = nth k l d :: skipn (S k) l.
Proof.
  revert k. induction l as [|x l IH]; intros [|k] H; simpl in *; try lia; auto.
  apply IH. lia.
Qed.

Lemma skipn_nil_length {A} (l : list A) (k : nat) :
  skipn k l = [] -> (List.length l <= k)%nat.
Proof.
  revert k. induction l as [|x l IH]; intros [|k] H; simpl in *;
    try lia; try discriminate.
  apply IH in H. lia.
Qed.

Lemma map_Some_inj {A} (l l' : list A) : map Some l = map Some l' -> l = l'.
Proof.
  revert l'. induction l as [|x l IH]; intros [|y l'] H; simpl in H;
    try discriminate; auto.
  injection H as -> H. f_equal. now apply IH.
Qed.

Section OccurrenceFacts.
Context {tables : GoTables}.

Lemma fold_subseq_tail p pattern s :
  fold_subseq (p :: pattern) s -> fold_subseq pattern s.
Proof.
  intros H. remember (p :: pattern) as pp eqn:E. revert p pattern E.
  induction H as [s|pp c s H IH|p' pp c s Hc H IH]; intros p pattern E.
  - discriminate.
  - constructor. eapply IH. exact E.
  - injection E as -> ->. now constructor.
Qed.

Lemma fold_subseq_nil_inv pattern : fold_subseq pattern [] -> pattern = [].
Proof. intros H. inversion H. reflexivity. Qed.

(** Taking the first rune that matches loses nothing. *)
Lemma fold_subseq_cons_inv p pattern c s :
  fold_subseq (p :: pattern) (c :: s) ->
  (Fuzzy.equalFold c p = true /\ fold_subseq pattern s) \/
  (Fuzzy.equalFold c p = false /\ fold_subseq (p :: pattern) s).
Proof.
  intros H. inversion H as [|? ? ? Hskip|? ? ? ? Hc Htake]; subst.
  - destruct (Fuzzy.equalFold c p) eqn:E; [left|right]; split; auto.
    eapply fold_subseq_tail. exact Hskip.
  - left. auto.
Qed.

(** The first rune that matches the first pattern rune is recorded: its
    score is a sum of bonuses, above the initial [bestScore] of -1. *)
Lemma score_candidate_first j c p st :
  0 <= j ->
  Fuzzy.bestScore st = -1 -> Fuzzy.matched st = [] ->
  Fuzzy.equalFold c p = true ->
  -1 < Fuzzy.matchedIndex (Fuzzy.score_candidate j c p st).
Proof.
  intros Hj Hbest Hm Hc. unfold Fuzzy.score_candidate.
  rewrite Hc, Hm, Hbest. cbn [Fuzzy.last_elem rev].
  destruct (j =? 0);
    destruct (Fuzzy.unicode_IsLower (Fuzzy.last st) && Fuzzy.unicode_IsUpper c);
    destruct (Fuzzy.isSeparator (Fuzzy.last st)); cbn; lia.
Qed.

Lemma score_candidate_keeps j c p st :
  0 <= j -> -1 < Fuzzy.matchedIndex st ->
  -1 < Fuzzy.matchedIndex (Fuzzy.score_candidate j c p st).
Proof.
  intros Hj Hmi. unfold Fuzzy.score_candidate.
  destruct (Fuzzy.equalFold c p); auto.
  destruct (Fuzzy.last_elem (Fuzzy.matched st));
    match goal with |- context [if ?b then _ else _] => destruct b end;
    simpl; lia.
Qed.

Lemma score_candidate_miss j c p st :
  Fuzzy.equalFold c p = false -> Fuzzy.score_candidate j c p st = st.
Proof. intros H. unfold Fuzzy.score_candidate. now rewrite H. Qed.

(** The second half of an iteration, once a position is recorded for the
    current pattern rune and the rest of the pattern lies ahead: the
    commit comes exactly when the next rune of the title is the first
    that the next pattern rune matches, or at the end of the title. *)
Lemma commit_complete runes rest st1 :
  nul_free rest ->
  -1 < Fuzzy.matchedIndex st1 ->
  (Fuzzy.patternIndex st1 < List.length runes)%nat ->
  fold_subseq (skipn (S (Fuzzy.patternIndex st1)) runes) rest ->
  let st2 := Fuzzy.commit runes (Fuzzy.next_rune rest) st1 in
  -1 < Fuzzy.matchedIndex st2 /\
  match rest with
  | [] => Fuzzy.patternIndex st2 = List.length runes
  | _ :: rest' =>
      (Fuzzy.patternIndex st2 < List.length runes)%nat /\
      fold_subseq (skipn (S (Fuzzy.patternIndex st2)) runes) rest'
  end.
Proof.
  intros Hnul Hmi Hk Hsub. unfold Fuzzy.commit.
  assert ((-1 <? Fuzzy.matchedIndex st1) = true) as -> by now apply Z.ltb_lt.
  rewrite andb_true_r.
  destruct rest as [|c' rest']; cbn [Fuzzy.next_rune].
  - rewrite orb_true_r. cbn [Fuzzy.matchedIndex Fuzzy.patternIndex].
    split; auto. apply fold_subseq_nil_inv, skipn_nil_length in Hsub. lia.
  - assert (c' <> 0) as Hc' by (intros ->; apply Hnul; now left).
    assert ((c' =? 0) = false) as -> by now apply Z.eqb_neq.
    rewrite orb_false_r.
    destruct (S (Fuzzy.patternIndex st1) <? List.length runes)%nat eqn:E.
    + apply Nat.ltb_lt in E.
      rewrite (skipn_nth_cons runes _ 0 E) in Hsub.
      apply fold_subseq_cons_inv in Hsub as [[Hc Hsub]|[Hc Hsub]];
        rewrite equalFold_sym, Hc; cbn [Fuzzy.matchedIndex Fuzzy.patternIndex];
        auto.
      split; auto. split; auto.
      rewrite (skipn_nth_cons runes _ 0 E). exact Hsub.
    + apply Nat.ltb_ge in E. rewrite equalFold_nul by exact Hc'.
      split; auto. split; auto.
      rewrite skipn_all2 by lia. constructor.
Qed.

Lemma scan_step_complete runes c rest st j :
  runes <> [] -> nul_free (c :: rest) -> 0 <= j ->
  scan_complete runes (c :: rest) st ->
  exists st',
    Fuzzy.scan_step runes j c (Fuzzy.next_rune rest) st = Some st' /\
    scan_complete runes rest st'.
Proof.
  intros Hne Hnul Hj Hinv.
  assert (nul_free rest) as Hnul' by (intros H; apply Hnul; now right).
  assert (exists p, nth_error runes (Fuzzy.patternIndex st) = Some p /\
                    nth (Fuzzy.patternIndex st) runes 0 = p) as (p & Hp & Hnth).
  { assert (Fuzzy.patternIndex st < List.length runes)%nat as Hk.
    { destruct Hinv as [(_ & _ & _ & -> & _)|(_ & Hk & _)]; auto.
      destruct runes; [contradiction|simpl; lia]. }
    exists (nth (Fuzzy.patternIndex st) runes 0). split; auto.
    now apply nth_error_nth'. }
  unfold Fuzzy.scan_step. rewrite Hp.
  destruct (score_candidate_facts j c p st) as (Hk1 & Hm1 & _ & _).
  set (st1 := Fuzzy.score_candidate j c p st) in *.
  eexists. split; [reflexivity|].
  (* after the first half: a position is recorded and the rest lies ahead,
     or nothing has matched yet *)
  assert ((-1 < Fuzzy.matchedIndex st1 /\
           (Fuzzy.patternIndex st1 < List.length runes)%nat /\
           fold_subseq (skipn (S (Fuzzy.patternIndex st1)) runes) rest) \/
          (st1 = st /\ Fuzzy.matchedIndex st = -1 /\ Fuzzy.bestScore st = -1 /\
           Fuzzy.matched st = [] /\ Fuzzy.patternIndex st = 0%nat /\
           fold_subseq runes rest)) as [Hpost|Hnone].
  { destruct Hinv as [(Hmi & Hbest & Hm & Hk & Hsub)|(Hmi & Hk & Hsub)].
    - rewrite Hk in *. destruct runes as [|p0 runes']; [contradiction|].
      simpl in Hp. injection Hp as ->.
      apply fold_subseq_cons_inv in Hsub as [[Hc Hsub]|[Hc Hsub]].
      + left. rewrite Hk1. simpl. split; [|split; [lia|exact Hsub]].
        now apply score_candidate_first.
      + right. subst st1. rewrite score_candidate_miss by exact Hc.
        split; [reflexivity|]. repeat split; assumption.
    - left. rewrite Hk1. split; [|split; assumption].
      now apply score_candidate_keeps. }
  - destruct Hpost as (Hmi & Hk & Hsub).
    destruct (commit_complete runes rest st1 Hnul' Hmi Hk Hsub) as [Hmi2 Hrest].
    unfold scan_complete. cbn [Fuzzy.patternIndex Fuzzy.matchedIndex].
    destruct rest as [|c' rest']; [exact Hrest|]. right. tauto.
  - destruct Hnone as (-> & Hmi & Hbest & Hm & Hk & Hsub).
    unfold Fuzzy.commit. rewrite Hmi. simpl (-1 <? -1). rewrite andb_false_r.
    unfold scan_complete.
    cbn [Fuzzy.patternIndex Fuzzy.matchedIndex Fuzzy.bestScore Fuzzy.matched].
    destruct rest as [|c' rest'].
    + apply fold_subseq_nil_inv in Hsub. contradiction.
    + left. auto.
Qed.

Lemma scan_loop_complete runes : runes <> [] -> forall s st j st',
  nul_free s -> 0 <= j ->
  scan_complete runes s st ->
  Fuzzy.scan_loop runes j s st = Some st' ->
  Fuzzy.patternIndex st' = List.length runes.
Proof.
  intros Hne. induction s as [|c rest IH]; intros st j st' Hnul Hj Hinv H;
    simpl in H.
  - injection H as <-. exact Hinv.
  - destruct (scan_step_complete runes c rest st j Hne Hnul Hj Hinv)
      as (st1 & Hstep & Hinv1).
    rewrite Hstep in H. eapply IH; [| |exact Hinv1|exact H].
    + intros Hin. apply Hnul. now right.
    + unfold utf8_RuneLen.
      destruct (c <? 128); [lia|]. destruct (c <? 2048); [lia|].
      destruct (c <? 65536); lia.
Qed.

(** [fuzzy.Find] gives a score to exactly the titles that hold the runes of
    the pattern in order, up to case. *)
Lemma scored_iff pattern title :
  pattern <> [] -> nul_free title ->
  (scored pattern title = true <-> fold_subseq pattern title).
Proof.
  intros Hne Hnul. unfold scored.
  destruct (match_one_spec pattern 0%nat title Hne Hnul)
    as [(m & Hm & _ & _ & Hsub & ->) | [Hm Hnone]].
  - tauto.
  - rewrite Hnone. split; [discriminate|]. intros Hsub. exfalso.
    unfold Fuzzy.match_one in Hm.
    destruct (scan_loop_inv pattern title [] Fuzzy.scan_init 0 Hnul)
      as (st & Hloop & Hlen & _).
    { split; [reflexivity|]. split.
      - intros _. destruct pattern; [contradiction|simpl; lia].
      - exists [], []. repeat split; [constructor|]. simpl. intros; lia. }
    rewrite Hloop in Hm.
    assert (Fuzzy.patternIndex st = List.length pattern) as Hall.
    { apply (scan_loop_complete pattern Hne title Fuzzy.scan_init 0 st);
        auto; [lia|].
      destruct title as [|c rest].
      - apply fold_subseq_nil_inv in Hsub. contradiction.
      - left. repeat split; auto. }
    rewrite Hlen, Hall, Nat.eqb_refl in Hm. discriminate.
Qed.

(** The loop over the titles returns the matches of the titles that have
    one, in the order of the data. *)
Lemma find_loop_filter runes : runes <> [] -> forall movies i ms,
  nul_free_titles movies ->
  Fuzzy.find_loop runes i (map Title movies) = Some ms ->
  map (fun m => nth_error movies (Fuzzy.Index m - i)) ms
  = map Some (filter (fun movie => scored runes (Title movie)) movies).
Proof.
  intros Hne. induction movies as [|mv movies IH]; intros i ms Hnul H;
    simpl in H.
  - now injection H as <-.
  - inversion Hnul as [|? ? Hmv Hmovies]; subst.
    assert (Forall nul_free (map Title movies)) as Hdata.
    { apply Forall_forall. intros t Ht.
      apply in_map_iff in Ht as (m & <- & Hm).
      unfold nul_free_titles in Hmovies. rewrite Forall_forall in Hmovies.
      auto. }
    destruct (find_loop_spec runes Hne (map Title movies) (S i) Hdata)
      as (ms' & Hloop & Hfrom & _).
    rewrite Hloop in H.
    assert (map (fun m => nth_error (mv :: movies) (Fuzzy.Index m - i)) ms'
            = map Some (filter (fun movie => scored runes (Title movie)) movies))
      as Hrest.
    { rewrite <- (IH (S i) ms' Hmovies Hloop). apply map_ext_in.
      intros m Hm. rewrite Forall_forall in Hfrom.
      destruct (Hfrom m Hm) as (Hi & _).
      replace (Fuzzy.Index m - i)%nat with (S (Fuzzy.Index m - S i)) by lia.
      reflexivity. }
    simpl filter. unfold scored at 1.
    destruct (match_one_spec runes i (Title mv) Hne Hmv)
      as [(m & Hm & Hi & _ & _ & Hscore) | [Hm Hnone]];
      rewrite Hm in H; injection H as <-.
    + rewrite Hscore. simpl. rewrite Hi, Nat.sub_diag. simpl.
      now rewrite Hrest.
    + rewrite Hnone. exact Hrest.
Qed.

Lemma pick_map (movies : list Movie) : forall ms result,
  pick movies ms = Some result ->
  map (fun m => nth_error movies (Fuzzy.Index m)) ms = map Some result.
Proof.
  induction ms as [|m ms IH]; intros result H; simpl in H.
  - now injection H as <-.
  - destruct (nth_error movies (Fuzzy.Index m)) as [movie|] eqn:E;
      [|discriminate].
    destruct (pick movies ms) as [result'|]; [|discriminate].
    injection H as <-. simpl. now rewrite E, (IH result').
Qed.

(** X14.  For a query that is not empty and titles without NUL,
    [fuzzySearchMovies] returns a rearrangement of the entries that
    [fuzzy.Find] gives a score, each as often as it stands in the list;
    and the entries with a score are exactly those whose title holds the
    runes of the query in order, up to case.  So no entry is dropped that
    holds the query, none is returned twice, none is made up. *)
Theorem search_returns_the_matching_entries (movies : list Movie)
    (query : gostring) :
  query <> [] ->
  nul_free_titles movies ->
  exists result,
    fuzzySearchMovies movies query = Some result /\
    Permutation result
      (filter (fun movie => scored query (Title movie)) movies) /\
    (forall movie,
       In movie movies ->
       (scored query (Title movie) = true <->
        fold_subseq query (Title movie))).
Proof.
  intros Hq Hnul.
  destruct (fuzzySearchMovies_found movies query Hq Hnul)
    as (ms & result & Hresult & _).
  exists result. split; [exact Hresult|]. split.
  - unfold fuzzySearchMovies in Hresult.
    destruct movies as [|mv movies'] eqn:Emovies.
    { injection Hresult as <-. constructor. }
    rewrite <- Emovies in *. clear Emovies mv movies'.
    unfold Fuzzy.Find, Fuzzy.FindNoSort in Hresult.
    destruct query as [|r q] eqn:Equery; [contradiction|].
    rewrite <- Equery in *. clear Equery r q.
    destruct (Fuzzy.find_loop query 0 (map Title movies)) as [ms0|] eqn:Hloop;
      [|discriminate].
    apply pick_map in Hresult.
    pose proof (find_loop_filter query Hq movies 0%nat ms0 Hnul Hloop) as Hfilter.
    assert (Permutation (map Some result)
              (map Some (filter (fun movie => scored query (Title movie))
                           movies))) as Hperm.
    { rewrite <- Hresult, <- Hfilter.
      erewrite (map_ext (fun m => nth_error movies (Fuzzy.Index m - 0)))
        by (intros m; now rewrite Nat.sub_0_r).
      apply Permutation_map. apply Stable_perm. }
    apply Permutation_map_inv in Hperm as (l3 & Hl3 & Hperm).
    apply map_Some_inj in Hl3. subst l3. now apply Permutation_sym.
  - intros movie Hin. apply scored_iff; auto.
    unfold nul_free_titles in Hnul. rewrite Forall_forall in Hnul. auto.
Qed.

(** The first entry that the matching stage returns is an entry of the
    list whose title holds the normalised query. *)
Lemma apply_query_matching (movies : list Movie) (query : gostring)
    (first : Movie) (rest : list Movie) :
  nul_free_titles movies ->
  apply_query movies query = Some (first :: rest) ->
  In first movies /\ fold_subseq (cleanQuery query) (Title first).
Proof.
  intros Hnul H. unfold apply_query in H.
  destruct (gostring_eqb query []) eqn:E; simpl in H.
  - apply gostring_eqb_eq in E. subst query. injection H as ->.
    split; [now left|]. rewrite cleanQuery_nil. constructor.
  - destruct (cleanQuery query) as [|r q] eqn:Eq.
    + rewrite fuzzySearchMovies_empty_query in H. discriminate.
    + destruct (fuzzySearchMovies_found movies (r :: q))
        as (ms & result & Hres & Hall & _); auto; [discriminate|].
      rewrite Hres in H. injection H as ->.
      inversion Hall as [|m ? ? ? (Hnth & _ & Hsub) _]; subst.
      split; [|exact Hsub]. eapply nth_error_In. exact Hnth.
Qed.

End OccurrenceFacts.


(* ================================================================== *)
(** * Normalisation of titles and queries *)
(* ================================================================== *)

Section DecoderFacts.
Context {tables : GoTables}.

Lemma unescape_no_amp (s : gostring) : forall fuel,
  ~ In AMP s -> unescape fuel s = s.
Proof.
  induction s as [|c s IH]; intros [|fuel] H; simpl; auto.
  unfold rune_eqb. destruct (Z.eqb_spec c AMP) as [->|_].
  - exfalso. apply H. now left.
  - rewrite IH; auto. intros Hin. apply H. now right.
Qed.

Lemma scan_name_ge (s : gostring) : forall i, (i <= scan_name s i)%nat.
Proof.
  induction s as [|c s IH]; intros i; simpl; auto.
  destruct (is_alnum c); [specialize (IH (S i)); lia|].
  destruct (c =? 59); lia.
Qed.

Lemma scan_name_le (s : gostring) : forall i,
  (scan_name s i <= i + List.length s)%nat.
Proof.
  induction s as [|c s IH]; intros i; simpl; [lia|].
  destruct (is_alnum c); [specialize (IH (S i)); lia|].
  destruct (c =? 59); lia.
Qed.

(** Every call of [unescapeEntity] reads at least the ampersand. *)
Lemma unescapeEntity_reads (s : gostring) : (1 <= snd (unescapeEntity s))%nat.
Proof.
  unfold unescapeEntity.
  destruct s as [|amp [|c1 s2]]; simpl; auto.
  destruct (c1 =? 35).
  - destruct (_ <=? 3); simpl; auto.
    destruct (if match s2 with [] => false | c :: _ => _ end then _ else _)
      as [x i].
    destruct (i <=? 3) eqn:E; simpl; auto.
    apply Z.leb_gt in E. lia.
  - pose proof (scan_name_ge (c1 :: s2) 1) as Hge.
    set (i := scan_name (c1 :: s2) 1) in *.
    destruct (_ =? 0)%nat; simpl; auto.
    destruct (negb (html_entity _ =? 0)); simpl; auto.
    destruct (negb (fst (html_entity2 _) =? 0)); simpl; auto.
    destruct (longest_prefix _ _) as [[x j]|]; simpl; [lia|].
    exact Hge.
Qed.

(** The loop of [html.UnescapeString] is through when its fuel is the
    length of the string: more fuel changes nothing. *)
Lemma unescape_fuel : forall n fuel s,
  (List.length s <= n)%nat -> (n <= fuel)%nat ->
  unescape fuel s = unescape n s.
Proof.
  induction n as [|n IH]; intros fuel s Hlen Hfuel.
  - destruct s; [|simpl in Hlen; lia]. destruct fuel; reflexivity.
  - destruct fuel as [|fuel]; [lia|].
    destruct s as [|c rest]; [reflexivity|].
    cbn [unescape]. destruct (rune_eqb c AMP).
    + pose proof (unescapeEntity_reads (c :: rest)) as Hread.
      destruct (unescapeEntity (c :: rest)) as [written read].
      simpl in Hread. f_equal. apply IH; [|lia].
      rewrite length_skipn.
      change (List.length (c :: rest)) with (S (List.length rest)) in *. lia.
    + f_equal. apply IH; simpl in *; lia.
Qed.

Lemma UnescapeString_unescape (s : gostring) (fuel : nat) :
  (List.length s <= fuel)%nat -> html_UnescapeString s = unescape fuel s.
Proof.
  intros Hfuel. unfold html_UnescapeString.
  destruct (existsb (rune_eqb AMP) s) eqn:E.
  - symmetry. now apply unescape_fuel.
  - symmetry. apply unescape_no_amp. intros Hin.
    apply not_true_iff_false in E. apply E. apply existsb_exists.
    exists AMP. split; [exact Hin | reflexivity].
Qed.

(** What stands before the first ampersand is copied. *)
Lemma UnescapeString_app (s t : gostring) :
  ~ In AMP s ->
  html_UnescapeString (s ++ t) = s ++ html_UnescapeString t.
Proof.
  intros Hs.
  rewrite (UnescapeString_unescape (s ++ t) (List.length s + List.length t))
    by (rewrite length_app; lia).
  rewrite (UnescapeString_unescape t (List.length t)) by lia.
  induction s as [|c s IH]; [reflexivity|]. simpl.
  unfold rune_eqb. destruct (Z.eqb_spec c AMP) as [->|_].
  - exfalso. apply Hs. now left.
  - rewrite IH; auto. intros Hin. apply Hs. now right.
Qed.

(** The reference [&nbsp;] is read as a whole and written as U+00A0. *)
Lemma unescapeEntity_nbsp (t : gostring) :
  html_entity (str "nbsp;") = NBSP ->
  unescapeEntity (str "&nbsp;" ++ t) = ([NBSP], 6%nat).
Proof.
  intros Hentity. unfold unescapeEntity. simpl.
  change (html_entity [110; 98; 115; 112; 59])
    with (html_entity (str "nbsp;")).
  rewrite Hentity. reflexivity.
Qed.

Lemma UnescapeString_nbsp (s t : gostring) :
  html_entity (str "nbsp;") = NBSP ->
  ~ In AMP s ->
  html_UnescapeString (s ++ str "&nbsp;" ++ t)
  = s ++ [NBSP] ++ html_UnescapeString t.
Proof.
  intros Hentity Hs. rewrite UnescapeString_app by exact Hs. f_equal.
  rewrite (UnescapeString_unescape _ (S (5 + List.length t)))
    by (rewrite length_app; simpl; lia).
  rewrite (UnescapeString_unescape t (5 + List.length t)) by lia.
  cbn [unescape]. change (str "&nbsp;" ++ t) with (AMP :: str "nbsp;" ++ t).
  cbn [app]. unfold rune_eqb at 1. rewrite Z.eqb_refl.
  change (AMP :: str "nbsp;" ++ t) with (str "&nbsp;" ++ t).
  rewrite (unescapeEntity_nbsp t Hentity). reflexivity.
Qed.

End DecoderFacts.

Lemma trim_left_blank (ws : gostring) :
  Forall (fun r => unicode_IsSpace r = true) ws -> trim_left ws = [].
Proof. induction 1 as [|r s Hr _ IH]; simpl; auto. now rewrite Hr. Qed.

Lemma trim_left_pad (ws s : gostring) :
  Forall (fun r => unicode_IsSpace r = true) ws ->
  trim_left (ws ++ s) = trim_left s.
Proof. induction 1 as [|r ws Hr _ IH]; simpl; auto. now rewrite Hr. Qed.

Lemma trim_left_app (s w : gostring) :
  trim_left (s ++ w)
  = match trim_left s with [] => trim_left w | _ => trim_left s ++ w end.
Proof.
  induction s as [|r s IH]; simpl.
  - destruct (trim_left w); reflexivity.
  - destruct (unicode_IsSpace r); auto.
Qed.

Lemma trim_right_pad (s ws : gostring) :
  Forall (fun r => unicode_IsSpace r = true) ws ->
  trim_right (s ++ ws) = trim_right s.
Proof.
  intros H. unfold trim_right. rewrite rev_app_distr.
  rewrite trim_left_pad; [reflexivity|]. now apply Forall_rev.
Qed.

(** White space around a string is trimmed away. *)
Lemma TrimSpace_pad (ws s ws' : gostring) :
  Forall (fun r => unicode_IsSpace r = true) ws ->
  Forall (fun r => unicode_IsSpace r = true) ws' ->
  strings_TrimSpace (ws ++ s ++ ws') = strings_TrimSpace s.
Proof.
  intros Hws Hws'. unfold strings_TrimSpace.
  rewrite trim_left_pad by exact Hws. rewrite trim_left_app.
  destruct (trim_left s) as [|r t].
  - now rewrite trim_left_blank.
  - now apply trim_right_pad.
Qed.

Lemma ReplaceAll1_app (s t : gostring) (old new : rune) :
  strings_ReplaceAll1 (s ++ t) old new
  = strings_ReplaceAll1 s old new ++ strings_ReplaceAll1 t old new.
Proof. apply map_app. Qed.

Lemma ReplaceAll1_blank (ws : gostring) :
  Forall (fun r => unicode_IsSpace r = true) ws ->
  Forall (fun r => unicode_IsSpace r = true)
    (strings_ReplaceAll1 ws NBSP SPACE).
Proof.
  unfold strings_ReplaceAll1.
  induction 1 as [|r s Hr _ IH]; simpl; constructor; auto.
  destruct (rune_eqb r NBSP); auto.
Qed.

Lemma ReplaceAll1_nbsp_for_space (s1 s2 : gostring) :
  nbsp_for_space s1 s2 ->
  strings_ReplaceAll1 s1 NBSP SPACE = strings_ReplaceAll1 s2 NBSP SPACE.
Proof.
  unfold strings_ReplaceAll1.
  induction 1 as [|a b s1 s2 [<-|[-> ->]] _ IH]; simpl; auto;
    now rewrite IH.
Qed.

Lemma nbsp_for_space_no_amp (s1 s2 : gostring) :
  nbsp_for_space s1 s2 -> ~ In AMP s1 -> ~ In AMP s2.
Proof.
  induction 1 as [|a b s1 s2 Hab _ IH]; simpl; auto.
  intros H [E|Hin].
  - destruct Hab as [->|[_ ->]]; [tauto | discriminate].
  - apply IH; auto.
Qed.

Lemma blank_no_amp (ws : gostring) :
  Forall (fun r => unicode_IsSpace r = true) ws -> ~ In AMP ws.
Proof.
  intros H Hin. rewrite Forall_forall in H. apply H in Hin. discriminate.
Qed.

Section NormalisationLaws.
Context {tables : GoTables}.

(** The reference [&nbsp;] is normalised to a plain space. *)
Lemma cleanQuery_nbsp_reference (s t : gostring) :
  html_entity (str "nbsp;") = NBSP ->
  ~ In AMP s ->
  cleanQuery (s ++ str "&nbsp;" ++ t) = cleanQuery (s ++ [SPACE] ++ t).
Proof.
  intros Hentity Hs. unfold cleanQuery. cbv zeta.
  rewrite (UnescapeString_nbsp s t Hentity Hs).
  replace (s ++ [SPACE] ++ t) with ((s ++ [SPACE]) ++ t)
    by (rewrite <- app_assoc; reflexivity).
  rewrite UnescapeString_app.
  - rewrite <- app_assoc. f_equal.
    rewrite !ReplaceAll1_app. reflexivity.
  - intros Hin. apply in_app_or in Hin as [Hin|[E|[]]]; [tauto|discriminate].
Qed.

(** Non-breaking spaces and plain spaces are normalised alike. *)
Lemma cleanQuery_nbsp_for_space (s1 s2 t : gostring) :
  ~ In AMP s1 -> nbsp_for_space s1 s2 ->
  cleanQuery (s1 ++ t) = cleanQuery (s2 ++ t).
Proof.
  intros Hs Hfold. unfold cleanQuery. cbv zeta.
  rewrite !UnescapeString_app;
    [|eapply nbsp_for_space_no_amp; eassumption | exact Hs].
  f_equal. rewrite !ReplaceAll1_app. f_equal.
  now apply ReplaceAll1_nbsp_for_space.
Qed.

(** White space around a string is no part of its normal form. *)
Lemma cleanQuery_pad (ws s ws' : gostring) :
  Forall (fun r => unicode_IsSpace r = true) ws ->
  Forall (fun r => unicode_IsSpace r = true) ws' ->
  ~ In AMP s ->
  cleanQuery (ws ++ s ++ ws') = cleanQuery s.
Proof.
  intros Hws Hws' Hs. unfold cleanQuery. cbv zeta.
  rewrite !UnescapeString_no_amp; [|exact Hs|].
  - rewrite !ReplaceAll1_app. apply TrimSpace_pad; now apply ReplaceAll1_blank.
  - intros Hin. apply in_app_or in Hin as [Hin|Hin];
      [now apply (blank_no_amp ws)|].
    apply in_app_or in Hin as [Hin|Hin]; [tauto | now apply (blank_no_amp ws')].
Qed.

(** A normalised string without ampersand is left as it is. *)
Lemma cleanQuery_fixed (s : gostring) :
  ~ In AMP s -> normalised s -> cleanQuery s = s.
Proof.
  intros Hamp (Hnbsp & Hhead & Hlast). unfold cleanQuery. cbv zeta.
  rewrite UnescapeString_no_amp by exact Hamp.
  rewrite ReplaceAll1_absent by (intros H; now apply (Hnbsp NBSP H)).
  apply TrimSpace_fixed; intros; subst; eauto.
Qed.

Lemma equalFold_refl c : Fuzzy.equalFold c c = true.
Proof. unfold Fuzzy.equalFold. now rewrite Z.eqb_refl. Qed.

Lemma fold_subseq_refl (s : gostring) : fold_subseq s s.
Proof.
  induction s as [|c s IH]; [constructor|].
  apply fold_subseq_take; [apply equalFold_refl | exact IH].
Qed.

(** An entry whose title holds the query is among the entries that
    [fuzzySearchMovies] returns. *)
Lemma fuzzySearchMovies_finds (movies : list Movie) (query : gostring)
    (movie : Movie) :
  query <> [] -> nul_free_titles movies ->
  In movie movies -> fold_subseq query (Title movie) ->
  exists result,
    fuzzySearchMovies movies query = Some result /\ In movie result.
Proof.
  intros Hq Hnul Hin Hsub.
  destruct (fuzzySearchMovies_found movies query Hq Hnul)
    as (ms & result & Hresult & Hpick & _ & Hcomplete).
  exists result. split; [exact Hresult|].
  apply In_nth_error in Hin as (i & Hi).
  assert (match_score query (Title movie) <> None) as Hscore.
  { assert (scored query (Title movie) = true) as H.
    { apply scored_iff; auto. unfold nul_free_titles in Hnul.
      rewrite Forall_forall in Hnul. apply Hnul.
      eapply nth_error_In. exact Hi. }
    unfold scored in H. destruct (match_score _ _); [discriminate|].
    discriminate H. }
  destruct (Hcomplete i movie Hi Hscore) as (m & Hm & Hidx).
  clear Hresult Hcomplete.
  induction Hpick as [|m' movie' ms result (Hnth & _) _ IH];
    [contradiction|].
  destruct Hm as [->|Hm].
  - left. rewrite Hidx, Hi in Hnth. now injection Hnth.
  - right. now apply IH.
Qed.

(** C8.  One normalisation for titles and queries.  The extractor stores
    [cleanQuery] of the text of each link, and the handler matches against
    [cleanQuery] of the query: one function on both sides.  This function
    decodes: the reference [&nbsp;], wherever it stands behind text
    without ampersand, is normalised as a plain space in its place is (the
    entity map knowing the name, as Go's does).  It folds: strings that
    differ in non-breaking spaces standing for plain spaces have one
    normal form.  It trims: white space around a string does not change
    the normal form, and a string without ampersand that is in normal form
    is its own normal form.  So an entry is found by every query that has
    the normal form of the text of its link, in particular by the text
    written with plain spaces for its non-breaking spaces; and the example
    of the specification and the example in the comment of [cleanQuery]
    come out as they say. *)
Theorem one_normalisation_for_titles_and_queries :
  (forall links,
     map Title (movies_of_links links)
     = map (fun link => cleanQuery (link_text link))
         (filter (fun link => negb (gostring_eqb (link_href link) [])) links)) /\
  (forall movies query,
     query <> [] ->
     apply_query movies query = fuzzySearchMovies movies (cleanQuery query)) /\
  (html_entity (str "nbsp;") = NBSP ->
   forall s t,
     ~ In AMP s ->
     cleanQuery (s ++ str "&nbsp;" ++ t) = cleanQuery (s ++ [SPACE] ++ t)) /\
  (forall s1 s2 t,
     ~ In AMP s1 -> nbsp_for_space s1 s2 ->
     cleanQuery (s1 ++ t) = cleanQuery (s2 ++ t)) /\
  (forall ws s ws',
     Forall (fun r => unicode_IsSpace r = true) ws ->
     Forall (fun r => unicode_IsSpace r = true) ws' ->
     ~ In AMP s ->
     cleanQuery (ws ++ s ++ ws') = cleanQuery s) /\
  (forall s, ~ In AMP s -> normalised s -> cleanQuery s = s) /\
  (forall links link query,
     In link links ->
     link_href link <> [] ->
     nul_free_titles (movies_of_links links) ->
     cleanQuery query <> [] ->
     cleanQuery (link_text link) = cleanQuery query ->
     exists result,
       apply_query (movies_of_links links) query = Some result /\
       In {| Title := cleanQuery query; Href := link_href link |} result) /\
  (forall links link query,
     In link links ->
     link_href link <> [] ->
     nul_free_titles (movies_of_links links) ->
     ~ In AMP (link_text link) ->
     nbsp_for_space (link_text link) query ->
     cleanQuery query <> [] ->
     exists result,
       apply_query (movies_of_links links) query = Some result /\
       In {| Title := cleanQuery query; Href := link_href link |} result) /\
  cleanQuery dragon_nbsp = dragon /\
  cleanQuery dragon = dragon /\
  (html_entity (str "nbsp;") = NBSP ->
   cleanQuery (str "How to Train Your&nbsp;Dragon") = dragon) /\
  (forall h href,
     movies_of_links [ {| link_text := dragon_nbsp; link_href := h :: href |} ]
     = [ {| Title := dragon; Href := h :: href |} ] /\
     apply_query [ {| Title := dragon; Href := h :: href |} ] dragon
     = Some [ {| Title := dragon; Href := h :: href |} ]).
Proof.
  assert (forall links link query,
            In link links ->
            link_href link <> [] ->
            nul_free_titles (movies_of_links links) ->
            cleanQuery query <> [] ->
            cleanQuery (link_text link) = cleanQuery query ->
            exists result,
              apply_query (movies_of_links links) query = Some result /\
              In {| Title := cleanQuery query; Href := link_href link |}
                result) as Hfound.
  { intros links link query Hin Hhref Hnul Hne Hsame.
    assert (query <> []) as Hq by (intros ->; now apply Hne).
    unfold apply_query.
    assert (gostring_eqb query [] = false) as ->.
    { apply not_true_iff_false. intros E. apply gostring_eqb_eq in E.
      contradiction. }
    simpl negb. cbv iota.
    apply fuzzySearchMovies_finds; auto.
    - rewrite <- Hsame. clear Hnul Hsame.
      induction links as [|l links IH]; [contradiction|]. simpl.
      destruct Hin as [->|Hin].
      + assert (gostring_eqb (link_href link) [] = false) as ->.
        { apply not_true_iff_false. intros E. apply gostring_eqb_eq in E.
          contradiction. }
        now left.
      + destruct (negb _); [right|]; now apply IH.
    - apply fold_subseq_refl. }
  split; [|split; [|split; [|split; [|split; [|split; [|split; [|split;
    [|split; [|split; [|split]]]]]]]]]].
  - induction links as [|link links IH]; simpl; auto.
    destruct (gostring_eqb (link_href link) []); simpl; auto.
    now rewrite IH.
  - intros movies query Hq. unfold apply_query.
    destruct (gostring_eqb query []) eqn:E; [|reflexivity].
    apply gostring_eqb_eq in E. contradiction.
  - intros Hentity s t. now apply cleanQuery_nbsp_reference.
  - intros s1 s2 t. apply cleanQuery_nbsp_for_space.
  - apply cleanQuery_pad.
  - apply cleanQuery_fixed.
  - exact Hfound.
  - intros links link query Hin Hhref Hnul Hamp Hfold Hne.
    apply Hfound; auto.
    rewrite <- (app_nil_r (link_text link)), <- (app_nil_r query).
    now apply cleanQuery_nbsp_for_space.
  - vm_compute. reflexivity.
  - vm_compute. reflexivity.
  - intros Hentity.
    change (str "How to Train Your&nbsp;Dragon")
      with (str "How to Train Your" ++ str "&nbsp;" ++ str "Dragon").
    rewrite cleanQuery_nbsp_reference by (auto; absent_from_literal).
    vm_compute. reflexivity.
  - intros h href. split; vm_compute; reflexivity.
Qed.

End NormalisationLaws.

(** C8 with Go's entry for [nbsp;]: the example in the comment of
    [cleanQuery], and a link with that text, found by the title written
    with plain spaces. *)
Lemma one_normalisation_for_titles_and_queries_witness :
  (html_entity (GoTables := ascii_tables) (str "nbsp;") = NBSP /\
   cleanQuery (tables := ascii_tables) (str "How to Train Your&nbsp;Dragon")
   = dragon) /\
  (cleanQuery (tables := ascii_tables) (link_text link_dragon)
   = cleanQuery (tables := ascii_tables) dragon /\
   exists result,
     apply_query (tables := ascii_tables)
       (movies_of_links (tables := ascii_tables) [link_a; link_dragon; link_b])
       dragon
     = Some result /\
     In {| Title := cleanQuery (tables := ascii_tables) dragon;
           Href := link_href link_dragon |} result).
Proof.
  pose proof (@one_normalisation_for_titles_and_queries ascii_tables)
    as (_ & _ & _ & _ & _ & _ & Hfound & _ & _ & _ & Hcode & _).
  split; [split; [reflexivity | exact (Hcode eq_refl)]|].
  split; [reflexivity|].
  apply (Hfound [link_a; link_dragon; link_b] link_dragon dragon).
  - right. now left.
  - discriminate.
  - repeat constructor; absent_from_literal.
  - discriminate.
  - reflexivity.
Defined.

(* ================================================================== *)
(** * Further properties: the warm-up *)
(* ================================================================== *)

Section WarmUpFacts.
Context {tables : GoTables}.

Lemma preloadCity_as_request (env : Env) (req : Request) (db : Table) :
  preloadCity env (city_of req) db
  = (fst (fst (getMovies env req db)), snd (getMovies env req db)).
Proof.
  unfold preloadCity, getMovies.
  destruct (getMoviesFromDB _ _ _ _ _) as [movies err].
  destruct (0 <? List.length movies)%nat; simpl; auto.
  destruct (scrapeMovies (env_run env)) as [ms [e|]]; auto.
  destruct (saveMoviesToDB _ _ _ _ _); reflexivity.
Qed.

Lemma preloadCity_frame env city db :
  delete_city city (fst (preloadCity env city db)) = delete_city city db.
Proof.
  pose (req := {| req_city := Some city; req_query := None |}).
  change (preloadCity env city db) with (preloadCity env (city_of req) db).
  rewrite preloadCity_as_request. simpl fst.
  destruct (cache_miss_dec env req db) as [Hmiss|Hhit].
  - rewrite (getMovies_miss _ _ _ Hmiss).
    destruct (scrapeMovies (env_run env)) as [movies [err|]]; simpl; auto.
    apply save_frame.
  - now rewrite (getMovies_hit _ _ _ Hhit).
Qed.

Lemma preloadCity_other env city c db :
  c <> city ->
  city_rows c (fst (preloadCity env city db)) = city_rows c db.
Proof.
  intros Hne.
  rewrite <- (city_rows_delete_other c city (fst (preloadCity env city db)) Hne).
  rewrite preloadCity_frame. now apply city_rows_delete_other.
Qed.

Lemma preloadCity_city_rows env city db1 db2 :
  city_rows city db1 = city_rows city db2 ->
  snd (preloadCity env city db1) = snd (preloadCity env city db2) /\
  city_rows city (fst (preloadCity env city db1))
  = city_rows city (fst (preloadCity env city db2)).
Proof.
  intros Hrows. unfold preloadCity.
  rewrite <- (read_city_rows (env_read env) (env_ties env) (env_now env)
                city db1).
  rewrite <- (read_city_rows (env_read env) (env_ties env) (env_now env)
                city db2).
  rewrite Hrows.
  destruct (getMoviesFromDB _ _ _ _ _) as [movies err].
  destruct (0 <? List.length movies)%nat; simpl; auto.
  destruct (scrapeMovies (env_run env)) as [ms [e|]]; simpl; auto.
  destruct (save_error_any_table (env_save env) (env_tx_time env)
              city ms db1 db2) as [Herr Hrows1].
  destruct (save_error_any_table (env_save env) (env_tx_time env)
              city ms db2 db1) as [_ Hrows2].
  destruct (saveMoviesToDB _ _ _ _ db1) as [db1' s1].
  destruct (saveMoviesToDB _ _ _ _ db2) as [db2' s2].
  simpl in *. subst s2. rewrite Hrows1, Hrows2, Hrows. auto.
Qed.

Lemma cuttack_is_not_bhubaneswar : cuttack <> bhubaneswar.
Proof. discriminate. Qed.

Lemma preloadMovies_unfold world db :
  preloadMovies world db
  = (fst (preloadCity (world bhubaneswar) bhubaneswar
            (fst (preloadCity (world cuttack) cuttack db))),
     snd (preloadCity (world cuttack) cuttack db)
     ++ snd (preloadCity (world bhubaneswar) bhubaneswar
               (fst (preloadCity (world cuttack) cuttack db)))).
Proof.
  unfold preloadMovies, cities.
  change (str "cuttack") with cuttack.
  change (str "bhubaneswar") with bhubaneswar.
  cbn [preload_loop].
  destruct (preloadCity (world cuttack) cuttack db) as [db1 e1].
  cbn [fst snd].
  destruct (preloadCity (world bhubaneswar) bhubaneswar db1) as [db2 e2].
  cbn [fst snd]. rewrite ?app_nil_r. reflexivity.
Qed.

Lemma preloadMovies_city_rows world db city :
  In city cities ->
  city_rows city (fst (preloadMovies world db))
  = city_rows city (fst (preloadCity (world city) city db)).
Proof.
  intros Hin. rewrite preloadMovies_unfold. cbn [fst].
  destruct Hin as [<-|[<-|[]]].
  - change (str "cuttack") with cuttack.
    rewrite preloadCity_other by apply cuttack_is_not_bhubaneswar.
    reflexivity.
  - change (str "bhubaneswar") with bhubaneswar.
    apply preloadCity_city_rows. apply preloadCity_other.
    intros H. now apply cuttack_is_not_bhubaneswar.
Qed.

(** X15.  The warm-up treats a city as a request for that city would: the
    body of the loop of [preloadMovies], which repeats the steps of
    [getMovies] in its own code, leaves the table that the request leaves
    and has the effects that the request has (the same extraction, the
    same write), in every environment. *)
Theorem preload_runs_the_transitions_of_a_request (env : Env) (req : Request)
    (db : Table) :
  preloadCity env (city_of req) db
  = (fst (fst (getMovies env req db)), snd (getMovies env req db)).
Proof.
  unfold preloadCity, getMovies.
  destruct (getMoviesFromDB (env_read env) (env_ties env) (env_now env)
              (city_of req) db) as [cached err].
  destruct (0 <? List.length cached)%nat; simpl.
  - (* served from the cache: skipped by the warm-up *)
    reflexivity.
  - destruct (scrapeMovies (env_run env)) as [extracted [e|]].
    + (* the extraction failed *)
      reflexivity.
    + (* the replace, whatever its outcome *)
      destruct (saveMoviesToDB (env_save env) (env_tx_time env) (city_of req)
                  extracted db); reflexivity.
Qed.

(** X16.  The two cities of the warm-up do not influence each other:
    whatever happens to "cuttack" (a hit, a failed extraction, a failed or
    a successful replace), "bhubaneswar" is treated as if it were
    processed alone on the table of the start, and the other way round;
    the effects are those of the two cities in this order; and the rows
    of every other city are left as they were. *)
Theorem preload_treats_each_city_alone (world : gostring -> Env) (db : Table) :
  let out := preloadMovies world db in
  snd out = snd (preloadCity (world cuttack) cuttack db)
            ++ snd (preloadCity (world bhubaneswar) bhubaneswar db) /\
  city_rows cuttack (fst out)
  = city_rows cuttack (fst (preloadCity (world cuttack) cuttack db)) /\
  city_rows bhubaneswar (fst out)
  = city_rows bhubaneswar
      (fst (preloadCity (world bhubaneswar) bhubaneswar db)) /\
  delete_city cuttack (delete_city bhubaneswar (fst out))
  = delete_city cuttack (delete_city bhubaneswar db).
Proof.
  cbv zeta. split; [|split; [|split]].
  - rewrite preloadMovies_unfold. cbn [snd]. f_equal.
    apply preloadCity_city_rows. apply preloadCity_other.
    intros H. now apply cuttack_is_not_bhubaneswar.
  - apply preloadMovies_city_rows. now left.
  - apply preloadMovies_city_rows. right. now left.
  - rewrite preloadMovies_unfold. cbn [fst].
    rewrite preloadCity_frame.
    rewrite (delete_city_comm cuttack bhubaneswar), preloadCity_frame.
    apply delete_city_comm.
Qed.

(** X17.  The warm-up warms the cache.  For a city of the warm-up whose
    read at start-up finds nothing to serve, whose page lists at least
    one entry, the links being pairwise distinct and the entries fitting
    the columns, and whose replace does not fail: a request for that city
    whose read succeeds within 24 hours of that replace is served from
    the cache, with the entries extracted at start-up, each as often as
    on the page and in an order chosen by the database, and no extraction
    of its own. *)
Theorem preload_warms_the_cache (world : gostring -> Env) (db : Table)
    (city : gostring) (links : list Link) (env : Env) (req : Request) :
  In city cities ->
  fst (getMoviesFromDB (env_read (world city)) (env_ties (world city))
         (env_now (world city)) city db)
  = [] ->
  env_run (world city) = RunOk links ->
  movies_of_links links <> [] ->
  NoDup (map Href (movies_of_links links)) ->
  Forall (fits_columns city) (movies_of_links links) ->
  env_save (world city) = NoFault ->
  city_of req = city ->
  env_read env = ReadOk ->
  env_now env - env_tx_time (world city) < window ->
  exists served,
    Permutation (movies_of_links links) served /\
    getMovies env req (fst (preloadMovies world db))
    = (fst (preloadMovies world db), respond city served (query_of req), []).
Proof.
  intros Hin Hmiss Hrun Hne Hnd _ Hsave Hcity Hread Hwin.
  set (warm := fst (preloadMovies world db)).
  assert (city_rows city warm
          = map (row_of (env_tx_time (world city)) city) (movies_of_links links))
    as Hrows.
  { unfold warm. rewrite (preloadMovies_city_rows world db city Hin).
    unfold preloadCity.
    destruct (getMoviesFromDB _ _ _ city db) as [cached err]. simpl in Hmiss.
    subst cached. simpl. rewrite Hrun. simpl.
    rewrite Hsave, save_distinct by exact Hnd. simpl.
    now rewrite city_rows_app, city_rows_delete, city_rows_own. }
  destruct (read_after_save (env_tx_time (world city)) (env_ties env)
              (env_now env) city (movies_of_links links) [] Hwin)
    as (served & Hget & Hperm).
  change (delete_city city []
          ++ map (row_of (env_tx_time (world city)) city)
               (movies_of_links links))
    with (map (row_of (env_tx_time (world city)) city)
            (movies_of_links links)) in Hget.
  rewrite <- Hrows, read_city_rows, <- Hcity, <- Hread in Hget.
  exists served. split; [exact Hperm|].
  assert (~ cache_miss env req warm) as Hhit.
  { unfold cache_miss. rewrite Hget. simpl. intros ->.
    apply Permutation_sym, Permutation_nil in Hperm. contradiction. }
  rewrite (getMovies_hit env req warm Hhit), Hget, Hcity. reflexivity.
Qed.

End WarmUpFacts.

(* ================================================================== *)
(** * Further properties: the front end *)
(* ================================================================== *)

Section FrontEndFacts.
Context {tables : GoTables}.

Lemma validateAndExtractLink_of_response (city : gostring)
    (movies : list Movie) (count : Z) :
  validateAndExtractLink (json_of_response city movies count)
  = match movies with
    | [] => Return JsNull
    | first :: _ =>
        if gostring_eqb (Href first) [] then Return JsNull
        else Return (JsString (Href first))
    end.
Proof.
  destruct movies as [|first rest]; [reflexivity|].
  unfold validateAndExtractLink, json_of_response. simpl.
  destruct (gostring_eqb (Href first) []); reflexivity.
Qed.

(** X18.  On the body of a 200 of the API, [validateAndExtractLink] does
    not throw: it returns [null] when the answer lists no entry (the
    field [movies] is then [null], not an empty array) or when the first
    entry has an empty link, and the link of the first entry otherwise,
    whatever the other entries are.  On a 500, [fetchMovieData] throws and
    no link is computed. *)
Theorem front_end_takes_the_first_link (response : Response) :
  bookingLink response
  = match response with
    | StatusOK _ [] _ => Return JsNull
    | StatusOK _ (first :: _) _ =>
        if gostring_eqb (Href first) [] then Return JsNull
        else Return (JsString (Href first))
    | StatusInternalServerError _ | Panicked => Throw
    end.
Proof.
  destruct response as [city movies count|message|]; try reflexivity.
  unfold bookingLink, fetchMovieData.
  rewrite validateAndExtractLink_of_response.
  destruct movies; reflexivity.
Qed.

(** X19.  From the table to the page.  When the front end computes a
    link for the answer of a request (the titles at hand holding no NUL),
    the link is [null] or it is the link, not empty, of an entry that was
    read from the cache or extracted for this request, and whose title
    holds the runes of the normalised query in order, up to case. *)
Theorem injected_link_comes_from_a_matching_entry (env : Env) (req : Request)
    (db : Table) (link : JsValue) :
  nul_free_titles
    (fst (getMoviesFromDB (env_read env) (env_ties env) (env_now env) (city_of req) db)) ->
  nul_free_titles (fst (scrapeMovies (env_run env))) ->
  bookingLink (snd (fst (getMovies env req db))) = Return link ->
  link = JsNull \/
  exists movie,
    (In movie
       (fst (getMoviesFromDB (env_read env) (env_ties env) (env_now env) (city_of req) db)) \/
     In movie (fst (scrapeMovies (env_run env)))) /\
    link = JsString (Href movie) /\ Href movie <> [] /\
    fold_subseq (cleanQuery (query_of req)) (Title movie).
Proof.
  intros Hcached Hscraped Hlink.
  assert (forall movies,
            nul_free_titles movies ->
            bookingLink (respond (city_of req) movies (query_of req))
            = Return link ->
            link = JsNull \/
            exists movie, In movie movies /\ link = JsString (Href movie) /\
              Href movie <> [] /\
              fold_subseq (cleanQuery (query_of req)) (Title movie)) as Hserve.
  { intros movies Hnul H. unfold respond in H.
    destruct (apply_query movies (query_of req)) as [served|] eqn:E;
      [|discriminate].
    unfold bookingLink, fetchMovieData in H.
    rewrite validateAndExtractLink_of_response in H.
    destruct served as [|first rest]; [left; congruence|].
    destruct (gostring_eqb (Href first) []) eqn:Eh; [left; congruence|].
    right. exists first.
    destruct (apply_query_matching movies (query_of req) first rest Hnul E)
      as [Hin Hsub].
    split; [exact Hin|]. split; [congruence|]. split; [|exact Hsub].
    intros H0. rewrite H0 in Eh. discriminate. }
  destruct (cache_miss_dec env req db) as [Hmiss|Hhit].
  - rewrite (getMovies_miss env req db Hmiss) in Hlink.
    destruct (scrapeMovies (env_run env)) as [movies [err|]] eqn:Erun;
      simpl in Hlink; [discriminate|].
    destruct (Hserve movies Hscraped Hlink) as [H|(movie & Hin & H)]; auto.
    right. exists movie. auto.
  - rewrite (getMovies_hit env req db Hhit) in Hlink. simpl in Hlink.
    destruct (Hserve _ Hcached Hlink) as [H|(movie & Hin & H)]; auto.
    right. exists movie. auto.
Qed.

End FrontEndFacts.

(* ------------------------------------------------------------------ *)
(** ** Concrete runs of the further properties *)
(* ------------------------------------------------------------------ *)

Lemma samples_nul_free : nul_free_titles [movie_a; movie_b].
Proof. repeat constructor; absent_from_literal. Defined.

Lemma samples_fit_columns (city : gostring) :
  (List.length city <= 100)%nat -> ~ In 0 city ->
  Forall (fits_columns city) [movie_a; movie_b].
Proof.
  intros Hlen Hnul.
  assert (forall m, In m [movie_a; movie_b] -> fits_columns city m) as H.
  { intros m [<-|[<-|[]]];
      (split; [exact Hlen|]); (split; [exact Hnul|]);
      (split; [simpl; lia|]); (split; [absent_from_literal|]);
      (split; [simpl; lia|absent_from_literal]). }
  constructor; [apply H; now left|].
  constructor; [apply H; right; now left|]. constructor.
Defined.

Lemma cuttack_fits : Forall (fits_columns cuttack) [movie_a; movie_b].
Proof.
  apply samples_fit_columns; [simpl; lia | absent_from_literal].
Defined.

Lemma bhubaneswar_fits : Forall (fits_columns bhubaneswar) [movie_a; movie_b].
Proof.
  apply samples_fit_columns; [simpl; lia | absent_from_literal].
Defined.

Lemma dragon_has_no_ampersand :
  ~ In AMP (cleanQuery (tables := ascii_tables) dragon_nbsp).
Proof. vm_compute. absent_from_literal. Defined.

(** X2 on the title written with non-breaking spaces. *)
Lemma cleanQuery_idempotent_witness :
  cleanQuery (tables := ascii_tables)
    (cleanQuery (tables := ascii_tables) dragon_nbsp)
  = dragon.
Proof.
  exact (@cleanQuery_idempotent ascii_tables dragon_nbsp
           dragon_has_no_ampersand).
Defined.

(** X3 on [db_two], an hour after its snapshot, with a query of two
    spaces. *)
Lemma blank_query_selects_nothing_witness :
  snd (fst (getMovies (tables := ascii_tables) env_hit req_blank db_two))
  = StatusOK cuttack [] 0.
Proof.
  destruct (@blank_query_selects_nothing ascii_tables env_hit req_blank db_two)
    as [H|[Hmiss _]].
  - discriminate.
  - repeat constructor.
  - exact H.
  - vm_compute in Hmiss. discriminate Hmiss.
Defined.

(** X5 on [db_two]: the read breaks off after the first of two rows. *)
Lemma broken_read_serves_what_it_read_witness :
  getMovies (tables := ascii_tables) env_read_breaks req_cuttack db_two
  = (db_two, StatusOK cuttack [movie_a] 1, []).
Proof.
  exact (@broken_read_serves_what_it_read ascii_tables env_read_breaks
           req_cuttack db_two 1 store_error eq_refl (le_n 1)
           db_two_fresh_after_an_hour).
Defined.

(** X6 on a listing that names "Ballerina" twice. *)
Lemma repeated_link_fails_replace_witness :
  exists e,
    saveMoviesToDB NoFault hour cuttack [movie_a; movie_b; movie_b] db_two
    = (db_two, Some e).
Proof.
  exact (proj1 (@repeated_link_fails_replace ascii_tables [movie_a] [] []
                  movie_b movie_b eq_refl)
           NoFault hour cuttack db_two).
Defined.

(** X7 on a table with rows of two cities. *)
Lemma save_then_read_round_trip_witness :
  exists db',
    saveMoviesToDB NoFault hour cuttack [movie_a; movie_b] db_three
    = (db', None) /\
    forall ties now,
      (now - hour < window ->
       exists served,
         getMoviesFromDB ReadOk ties now cuttack db' = (served, None) /\
         Permutation [movie_a; movie_b] served) /\
      (window <= now - hour ->
       forall fault, fst (getMoviesFromDB fault ties now cuttack db') = []).
Proof.
  exact (save_then_read_round_trip hour cuttack [movie_a; movie_b] db_three
           samples_distinct cuttack_fits).
Defined.

Lemma db_three_unique : unique_rows db_three.
Proof.
  repeat constructor; simpl; intros H;
    repeat (destruct H as [H|H]; [discriminate|]); exact H.
Defined.

(** X8 on [db_three], 25 hours after its snapshot: the rows of "cuttack"
    are replaced. *)
Lemma getMovies_keeps_store_invariants_witness :
  unique_rows
    (fst (fst (getMovies (tables := ascii_tables) (env_extract (25 * hour))
                 req_cuttack db_three))).
Proof.
  exact (proj1 (@getMovies_keeps_store_invariants ascii_tables
                  (env_extract (25 * hour)) req_cuttack db_three)
           db_three_unique).
Defined.

(** X10 on [db_two] with and without a row of another city. *)
Lemma request_ignores_other_cities_witness :
  snd (fst (getMovies (tables := ascii_tables) env_hit req_cuttack db_three))
  = StatusOK cuttack [movie_a; movie_b] 2.
Proof.
  exact (proj1 (@request_ignores_other_cities ascii_tables env_hit req_cuttack
                  db_three db_two eq_refl)).
Defined.

(** X11: an extraction into an empty table, then a request with the query
    "balerina" an hour later. *)
Lemma refresh_then_hit_witness :
  exists served,
    Permutation [movie_a; movie_b] served /\
    getMovies (tables := ascii_tables) env_hit req_balerina db_two
    = (db_two,
       respond (tables := ascii_tables) cuttack served (str "balerina"), []).
Proof.
  refine (@refresh_then_hit ascii_tables (env_extract 0) env_hit req_cuttack
            req_balerina [] [link_a; link_b] eq_refl eq_refl _
            samples_distinct cuttack_fits eq_refl eq_refl eq_refl eq_refl).
  discriminate.
Defined.

(** X12 on [db_two], an hour after its snapshot, with the query
    "balerina". *)
Lemma response_is_500_only_for_a_failed_extraction_witness :
  snd (fst (getMovies (tables := ascii_tables) env_hit req_balerina db_two))
  <> Panicked.
Proof.
  exact (proj2 (proj2 (@response_is_500_only_for_a_failed_extraction
                         ascii_tables env_hit req_balerina db_two))
           samples_nul_free (Forall_nil _)).
Defined.

(** X14 on two titles that hold "saw". *)
Lemma search_returns_the_matching_entries_witness :
  exists result,
    fuzzySearchMovies (tables := ascii_tables) [saw_x; saw_3] (str "saw")
    = Some result /\
    Permutation result
      (filter (fun movie =>
                 scored (tables := ascii_tables) (str "saw") (Title movie))
         [saw_x; saw_3]) /\
    (forall movie,
       In movie [saw_x; saw_3] ->
       (scored (tables := ascii_tables) (str "saw") (Title movie) = true <->
        fold_subseq (tables := ascii_tables) (str "saw") (Title movie))).
Proof.
  refine (@search_returns_the_matching_entries ascii_tables [saw_x; saw_3]
            (str "saw") _ ascii_literal_nul_free_saw).
  discriminate.
Defined.

(** X17: a warm-up on an empty table, then a request for "bhubaneswar" an
    hour later. *)
Lemma preload_warms_the_cache_witness :
  exists served,
    Permutation [movie_a; movie_b] served /\
    getMovies (tables := ascii_tables) env_hit req_bhubaneswar
      (fst (preloadMovies (tables := ascii_tables) world_extract []))
    = (fst (preloadMovies (tables := ascii_tables) world_extract []),
       StatusOK bhubaneswar served (Z.of_nat (List.length served)), []).
Proof.
  refine (@preload_warms_the_cache ascii_tables world_extract [] bhubaneswar
            [link_a; link_b] env_hit req_bhubaneswar _ eq_refl eq_refl _
            samples_distinct bhubaneswar_fits eq_refl eq_refl eq_refl eq_refl).
  - right. left. reflexivity.
  - discriminate.
Defined.

(** X19 on [db_two], an hour after its snapshot, with the query
    "balerina": the link of "Ballerina". *)
Lemma injected_link_comes_from_a_matching_entry_witness :
  JsString (Href movie_b) = JsNull \/
  exists movie,
    (In movie
       (fst (getMoviesFromDB (env_read env_hit) (env_ties env_hit)
               (env_now env_hit) (city_of req_balerina) db_two)) \/
     In movie (fst (scrapeMovies (tables := ascii_tables) (env_run env_hit)))) /\
    JsString (Href movie_b) = JsString (Href movie) /\ Href movie <> [] /\
    fold_subseq (tables := ascii_tables)
      (cleanQuery (tables := ascii_tables) (query_of req_balerina))
      (Title movie).
Proof.
  exact (@injected_link_comes_from_a_matching_entry ascii_tables env_hit
           req_balerina db_two (JsString (Href movie_b))
           samples_nul_free (Forall_nil _) eq_refl).
Defined.

Lemma env_hit_steady : steady (tables := ascii_tables) env_hit.
Proof.
  split; [reflexivity|]. split; [discriminate|]. intros links H.
  discriminate H.
Defined.

(** X20: an extraction into an empty table, a request served from the
    cache an hour later, and an extraction 25 hours after the first. *)
Lemma extractions_are_a_day_apart_witness :
  window <= env_now (env_extract (25 * hour)) - env_tx_time (env_extract 0).
Proof.
  refine (@extractions_are_a_day_apart ascii_tables [] (env_extract 0)
            (env_extract (25 * hour)) req_cuttack req_cuttack
            [link_a; link_b] [(env_hit, req_balerina)]
            eq_refl _ eq_refl _ eq_refl eq_refl _).
  - discriminate.
  - constructor; [intros _; exact env_hit_steady | constructor].
  - left. reflexivity.
Defined.
